(** * Resumable page-index orchestration: a shallow embedding

    The development follows [pageindex/resilient_indexer_gemini.py]:
    the class [ResilientPageIndexer] with its checkpoint file
    ([_load_state], [_save_state]) and its [run] method.  Python values are
    modelled by the types the code manipulates: integers as [Z], text as
    [string], the checkpoint dictionary as the decoded JSON value where it
    is loaded and as a record with the five keys the code reads and writes
    where [run] works on it, the file system as a finite map from paths to
    file contents. *)

From Stdlib Require Import ZArith Lia String Ascii List Bool.
From stdpp Require Import base tactics option list gmap strings pretty sorting.

Local Open Scope Z_scope.

(** ** Python exceptions and results *)

(** The exceptions that occur.  [OSError] stands for its subclasses as
    well ([FileNotFoundError], [FileExistsError], [PermissionError], ...),
    [CallFailed] for any other [Exception] a collaborator raises.  The last
    three are the exceptions that are no [Exception]: they are what stops a
    run from outside, and an [except Exception] does not catch them. *)
Inductive PyError : Type :=
| ZeroDivisionError
| OverflowError
| JSONDecodeError
| KeyError (key : string)
| TypeError
| OSError
| CallFailed (what : string)
| KeyboardInterrupt
| SystemExit
| CancelledError.

(** [isinstance(e, Exception)] *)
Definition is_exception (e : PyError) : bool :=
  match e with
  | KeyboardInterrupt | SystemExit | CancelledError => false
  | _ => true
  end.

Inductive result (A : Type) : Type :=
| Ok (a : A)
| Raise (e : PyError).
Arguments Ok {A} a.
Arguments Raise {A} e.

(** ** Numbers: [int / int] and [math.ceil]

    [total_pages / max_page_num_each_node] is Python's true division of two
    integers: the exact quotient rounded to the nearest binary64 value, ties
    to even.  A float is represented by the integer pair (mantissa, exponent)
    of its value [mant * 2 ^ expo]. *)

Module PyFloat.

Record t : Type := mk { mant : Z; expo : Z }.

(** Nearest integer to [n / d], ties to the even neighbour ([0 <= n], [0 < d]). *)
Definition round_half_even (n d : Z) : Z :=
  let q := n / d in
  let r := n mod d in
  if 2 * r <? d then q
  else if d <? 2 * r then q + 1
  else if Z.even q then q else q + 1.

(** [n / d] scaled by [2 ^ sh], kept as an exact fraction. *)
Definition scaled (n d sh : Z) : Z * Z :=
  if 0 <=? sh then (n * 2 ^ sh, d) else (n, d * 2 ^ (- sh)).

(** Number of binary places kept after the point: 53 significant bits, and
    never more than the 1074 places of the smallest subnormal. *)
Definition places (n d : Z) : Z :=
  let sh0 := 52 + Z.log2 d - Z.log2 n in
  let '(n0, d0) := scaled n d sh0 in
  let sh1 := if n0 / d0 <? 2 ^ 52 then sh0 + 1 else sh0 in
  Z.min sh1 1074.

(** [a / b] on Python integers. *)
Definition int_true_divide (a b : Z) : result t :=
  if b =? 0 then Raise ZeroDivisionError
  else if a =? 0 then Ok (mk 0 0)
  else
    let n := Z.abs a in
    let d := Z.abs b in
    let sh := places n d in
    let '(n1, d1) := scaled n d sh in
    let m := round_half_even n1 d1 in
    if (sh <? 0) && (2 ^ 1024 <=? m * 2 ^ (- sh)) then Raise OverflowError
    else Ok (mk (Z.sgn a * Z.sgn b * m) (- sh)).

(** [math.ceil] of a float, an exact integer. *)
Definition math_ceil (x : t) : Z :=
  if 0 <=? expo x then mant x * 2 ^ expo x
  else - ((- mant x) / 2 ^ (- expo x)).

End PyFloat.

(** [math.ceil(total_pages / max_page_num_each_node)] *)
Definition ceil_of_quotient (pages per_node : Z) : result Z :=
  match PyFloat.int_true_divide pages per_node with
  | Ok x => Ok (PyFloat.math_ceil x)
  | Raise e => Raise e
  end.

(** The ceiling of the exact quotient, as the specification words it. *)
Definition spec_ceil_div (pages group_size : Z) : Z :=
  - ((- pages) / group_size).

Local Close Scope Z_scope.

(** ** Text helpers *)

Definition dquote : ascii := ascii_of_nat 34.
Definition backslash : ascii := ascii_of_nat 92.

(** [s[:n]] *)
Fixpoint str_take (n : nat) (s : string) : string :=
  match n, s with
  | S n', String c r => String c (str_take n' r)
  | _, _ => EmptyString
  end.

(** [s[n:]] *)
Fixpoint str_drop (n : nat) (s : string) : string :=
  match n, s with
  | S n', String _ r => str_drop n' r
  | _, _ => s
  end.

(** [str(i)] on an integer: its decimal numeral. *)
Definition str (i : Z) : string := pretty i.

(** ** JSON values and the [json] module

    [json.dump(obj, f, indent=4)] and [json.load(f)] of the Python standard
    library, for the values a checkpoint holds.  Characters are code points
    below 256; a number with a fraction or an exponent keeps its literal;
    the words [NaN] and [Infinity] are not read. *)

#[warnings="-register-all"]
Inductive json : Type :=
| JNull
| JBool (b : bool)
| JInt (n : Z)
| JFloat (literal : string)
| JStr (s : string)
| JArr (items : list json)
| JObj (members : list (string * json)).

Module Json.

Definition hex_digit (n : nat) : ascii :=
  if (n <? 10)%nat then ascii_of_nat (48 + n) else ascii_of_nat (87 + n).

(** One character of a string literal, [ensure_ascii=True]. *)
Definition escape_char (c : ascii) : string :=
  let n := nat_of_ascii c in
  if (n =? 34)%nat then String backslash (String dquote EmptyString)
  else if (n =? 92)%nat then String backslash (String backslash EmptyString)
  else if (n =? 10)%nat then String backslash "n"
  else if (n =? 13)%nat then String backslash "r"
  else if (n =? 9)%nat then String backslash "t"
  else if (n =? 8)%nat then String backslash "b"
  else if (n =? 12)%nat then String backslash "f"
  else if (32 <=? n)%nat && (n <=? 126)%nat then String c EmptyString
  else String backslash
         ("u00" +:+ String (hex_digit (n / 16)) (String (hex_digit (n mod 16)) EmptyString)).

Fixpoint escape (s : string) : string :=
  match s with
  | EmptyString => EmptyString
  | String c r => escape_char c +:+ escape r
  end.

Definition quote (s : string) : string :=
  String dquote (escape s +:+ String dquote EmptyString).

Fixpoint spaces (n : nat) : string :=
  match n with
  | O => EmptyString
  | S n' => String " " (spaces n')
  end.

Definition newline : string := String (ascii_of_nat 10) EmptyString.

(** Line break followed by the indentation of nesting depth [level]. *)
Definition newline_indent (level : nat) : string :=
  newline +:+ spaces (4 * level).

(** The text of [j] when it sits at nesting depth [level]. *)
Fixpoint encode (level : nat) (j : json) : string :=
  match j with
  | JNull => "null"
  | JBool true => "true"
  | JBool false => "false"
  | JInt n => pretty n
  | JFloat lit => lit
  | JStr s => quote s
  | JArr items =>
      match items with
      | [] => "[]"
      | _ =>
          "[" +:+
          (fix each (l : list json) (sep : string) : string :=
             match l with
             | [] => EmptyString
             | x :: l' =>
                 sep +:+ newline_indent (S level) +:+ encode (S level) x
                 +:+ each l' ","
             end) items EmptyString
          +:+ newline_indent level +:+ "]"
      end
  | JObj members =>
      match members with
      | [] => "{}"
      | _ =>
          "{" +:+
          (fix each (l : list (string * json)) (sep : string) : string :=
             match l with
             | [] => EmptyString
             | (k, x) :: l' =>
                 sep +:+ newline_indent (S level) +:+ quote k +:+ ": "
                 +:+ encode (S level) x +:+ each l' ","
             end) members EmptyString
          +:+ newline_indent level +:+ "}"
      end
  end.

(** [json.dumps(j, indent=4)] *)
Definition dumps (j : json) : string := encode 0 j.

(** *** Decoding *)

Definition is_ws (c : ascii) : bool :=
  let n := nat_of_ascii c in
  (n =? 32)%nat || (n =? 9)%nat || (n =? 10)%nat || (n =? 13)%nat.

Fixpoint skip_ws (s : string) : string :=
  match s with
  | String c r => if is_ws c then skip_ws r else s
  | EmptyString => EmptyString
  end.

Definition is_digit (c : ascii) : bool :=
  let n := nat_of_ascii c in (48 <=? n)%nat && (n <=? 57)%nat.

Fixpoint take_digits (s : string) : string * string :=
  match s with
  | String c r =>
      if is_digit c
      then let '(d, r') := take_digits r in (String c d, r')
      else (EmptyString, s)
  | EmptyString => (EmptyString, EmptyString)
  end.

Fixpoint digits_value (acc : Z) (d : string) : Z :=
  match d with
  | EmptyString => acc
  | String c r => digits_value (10 * acc + Z.of_nat (nat_of_ascii c - 48)) r
  end.

Definition hex_value (c : ascii) : option nat :=
  let n := nat_of_ascii c in
  if (48 <=? n)%nat && (n <=? 57)%nat then Some (n - 48)
  else if (97 <=? n)%nat && (n <=? 102)%nat then Some (n - 87)
  else if (65 <=? n)%nat && (n <=? 70)%nat then Some (n - 55)
  else None.

(** The character written [\uXXXX]. *)
Definition hex4 (a b c d : ascii) : option ascii :=
  match hex_value a, hex_value b, hex_value c, hex_value d with
  | Some x3, Some x2, Some x1, Some x0 =>
      if (x3 =? 0)%nat && (x2 =? 0)%nat then Some (ascii_of_nat (16 * x1 + x0)) else None
  | _, _, _, _ => None
  end.

Definition unescape (e : ascii) : option ascii :=
  let n := nat_of_ascii e in
  if (n =? 34)%nat then Some dquote
  else if (n =? 92)%nat then Some backslash
  else if (n =? 47)%nat then Some "/"%char
  else if (n =? 110)%nat then Some (ascii_of_nat 10)
  else if (n =? 114)%nat then Some (ascii_of_nat 13)
  else if (n =? 116)%nat then Some (ascii_of_nat 9)
  else if (n =? 98)%nat then Some (ascii_of_nat 8)
  else if (n =? 102)%nat then Some (ascii_of_nat 12)
  else None.

Definition push (c : ascii) (res : option (string * string)) : option (string * string) :=
  match res with
  | Some (body, rest) => Some (String c body, rest)
  | None => None
  end.

(** The body of a string literal, read from just after its opening quote. *)
Fixpoint parse_string (s : string) : option (string * string) :=
  match s with
  | EmptyString => None
  | String c r =>
      if Ascii.eqb c dquote then Some (EmptyString, r)
      else if Ascii.eqb c backslash then
        match r with
        | EmptyString => None
        | String e r1 =>
            if Ascii.eqb e "u" then
              match r1 with
              | String h1 (String h2 (String h3 (String h4 r2))) =>
                  match hex4 h1 h2 h3 h4 with
                  | Some ch => push ch (parse_string r2)
                  | None => None
                  end
              | _ => None
              end
            else
              match unescape e with
              | Some ch => push ch (parse_string r1)
              | None => None
              end
        end
      else if (nat_of_ascii c <? 32)%nat then None
      else push c (parse_string r)
  end.

Definition is_empty (s : string) : bool :=
  match s with EmptyString => true | _ => false end.

Definition parse_fraction (s : string) : string * string :=
  match s with
  | String c r =>
      if Ascii.eqb c "." then
        let '(d, r') := take_digits r in
        if is_empty d then (EmptyString, s) else (String c d, r')
      else (EmptyString, s)
  | EmptyString => (EmptyString, s)
  end.

Definition parse_exponent (s : string) : string * string :=
  match s with
  | String c r =>
      if Ascii.eqb c "e" || Ascii.eqb c "E" then
        let '(sg, r1) :=
          match r with
          | String x r' =>
              if Ascii.eqb x "+" || Ascii.eqb x "-"
              then (String x EmptyString, r') else (EmptyString, r)
          | EmptyString => (EmptyString, r)
          end in
        let '(d, r2) := take_digits r1 in
        if is_empty d then (EmptyString, s) else (String c (sg +:+ d), r2)
      else (EmptyString, s)
  | EmptyString => (EmptyString, s)
  end.

Definition parse_number (s : string) : option (json * string) :=
  let '(neg, s1) :=
    match s with
    | String c r => if Ascii.eqb c "-" then (true, r) else (false, s)
    | EmptyString => (false, s)
    end in
  match s1 with
  | String c r =>
      if is_digit c then
        let '(ds, r1) := if Ascii.eqb c "0" then (EmptyString, r) else take_digits r in
        let int_lit := String c ds in
        let '(frac, r2) := parse_fraction r1 in
        let '(ex, r3) := parse_exponent r2 in
        if is_empty frac && is_empty ex then
          let v := digits_value 0 int_lit in
          Some (JInt (if neg then (- v)%Z else v), r3)
        else
          Some (JFloat ((if neg then "-" else EmptyString) +:+ int_lit +:+ frac +:+ ex), r3)
      else None
  | EmptyString => None
  end.

Fixpoint strip_prefix (p s : string) : option string :=
  match p, s with
  | EmptyString, _ => Some s
  | String a p', String b s' => if Ascii.eqb a b then strip_prefix p' s' else None
  | String _ _, EmptyString => None
  end.

Definition parse_atom (s : string) : option (json * string) :=
  match strip_prefix "null" s with
  | Some r => Some (JNull, r)
  | None =>
  match strip_prefix "true" s with
  | Some r => Some (JBool true, r)
  | None =>
  match strip_prefix "false" s with
  | Some r => Some (JBool false, r)
  | None => parse_number s
  end end end.

(** [d[k] = v] on a dictionary kept in insertion order. *)
Fixpoint dict_set (k : string) (v : json) (d : list (string * json)) : list (string * json) :=
  match d with
  | [] => [(k, v)]
  | (k', v') :: d' =>
      if String.eqb k k' then (k, v) :: d' else (k', v') :: dict_set k v d'
  end.

(** [d[k]] *)
Fixpoint dict_get (k : string) (d : list (string * json)) : option json :=
  match d with
  | [] => None
  | (k', v) :: d' => if String.eqb k k' then Some v else dict_get k d'
  end.

Fixpoint parse_value (fuel : nat) (s : string) : option (json * string) :=
  match fuel with
  | O => None
  | S fuel' =>
      match s with
      | EmptyString => None
      | String c r =>
          if Ascii.eqb c "{" then
            match skip_ws r with
            | EmptyString => None
            | String c1 r1 =>
                if Ascii.eqb c1 "}" then Some (JObj [], r1)
                else parse_members fuel' (String c1 r1) []
            end
          else if Ascii.eqb c "[" then
            match skip_ws r with
            | EmptyString => None
            | String c1 r1 =>
                if Ascii.eqb c1 "]" then Some (JArr [], r1)
                else parse_items fuel' (String c1 r1) []
            end
          else if Ascii.eqb c dquote then
            match parse_string r with
            | Some (body, r1) => Some (JStr body, r1)
            | None => None
            end
          else parse_atom s
      end
  end
with parse_items (fuel : nat) (s : string) (acc : list json) : option (json * string) :=
  match fuel with
  | O => None
  | S fuel' =>
      match parse_value fuel' s with
      | Some (v, r) =>
          match skip_ws r with
          | EmptyString => None
          | String c r1 =>
              if Ascii.eqb c "," then parse_items fuel' (skip_ws r1) (v :: acc)
              else if Ascii.eqb c "]" then Some (JArr (rev (v :: acc)), r1)
              else None
          end
      | None => None
      end
  end
with parse_members (fuel : nat) (s : string) (acc : list (string * json)) : option (json * string) :=
  match fuel with
  | O => None
  | S fuel' =>
      match s with
      | EmptyString => None
      | String q r =>
          if Ascii.eqb q dquote then
            match parse_string r with
            | Some (k, r1) =>
                match skip_ws r1 with
                | EmptyString => None
                | String c r2 =>
                    if Ascii.eqb c ":" then
                      match parse_value fuel' (skip_ws r2) with
                      | Some (v, r3) =>
                          match skip_ws r3 with
                          | EmptyString => None
                          | String c' r4 =>
                              if Ascii.eqb c' "," then
                                parse_members fuel' (skip_ws r4) (dict_set k v acc)
                              else if Ascii.eqb c' "}" then
                                Some (JObj (dict_set k v acc), r4)
                              else None
                          end
                      | None => None
                      end
                    else None
                end
            | None => None
            end
          else None
      end
  end.

(** A number with a fraction or an exponent somewhere in [j]. *)
Fixpoint has_float (j : json) : bool :=
  match j with
  | JFloat _ => true
  | JArr items =>
      (fix any (l : list json) : bool :=
         match l with [] => false | x :: l' => has_float x || any l' end) items
  | JObj members =>
      (fix any (l : list (string * json)) : bool :=
         match l with [] => false | (_, x) :: l' => has_float x || any l' end) members
  | _ => false
  end.

(** What the decoder above does not read though [json.loads] does: an
    escape [\uXXXX] above [\u00ff] in a string literal, and the words
    [NaN], [Infinity] and [-Infinity], which start with a letter that
    stands nowhere else outside a string literal.  [inside] tells whether
    the text is read from within a string literal. *)
Fixpoint unmodelled (inside : bool) (s : string) : bool :=
  match s with
  | EmptyString => false
  | String c r =>
      if inside then
        if Ascii.eqb c dquote then unmodelled false r
        else if Ascii.eqb c backslash then
          match r with
          | EmptyString => false
          | String e r1 =>
              if Ascii.eqb e "u" then
                match r1 with
                | String h1 (String h2 (String h3 (String h4 r2))) =>
                    match hex_value h1, hex_value h2, hex_value h3, hex_value h4 with
                    | Some x3, Some x2, Some _, Some _ =>
                        if (x3 =? 0)%nat && (x2 =? 0)%nat then unmodelled true r2 else true
                    | _, _, _, _ => unmodelled true r1
                    end
                | _ => false
                end
              else unmodelled true r1
          end
        else unmodelled true r
      else
        if Ascii.eqb c dquote then unmodelled true r
        else if Ascii.eqb c "N" || Ascii.eqb c "I" then true
        else unmodelled false r
  end.

(** What [json.loads(s)] does, as far as it is followed here.  [Value j]:
    it returns [j].  [Invalid]: it raises [JSONDecodeError].  [Beyond]:
    the text has a number with a fraction or an exponent (a float, which is
    not written back as it was read), or it is not read by the decoder
    above and holds what that decoder does not model; nothing is said then.
    Python's limits on the depth of nesting and on the number of digits of
    an integer are not modelled. *)
Inductive Decoded : Type :=
| Value (j : json)
| Invalid
| Beyond.

Definition decode (s : string) : Decoded :=
  match parse_value (2 * String.length s + 2) (skip_ws s) with
  | Some (j, r) =>
      if is_empty (skip_ws r) then (if has_float j then Beyond else Value j)
      else if unmodelled false s then Beyond else Invalid
  | None => if unmodelled false s then Beyond else Invalid
  end.

(** The value [json.loads(s)] returns, where [decode] tells. *)
Definition loads (s : string) : option json :=
  match decode s with
  | Value j => Some j
  | _ => None
  end.

End Json.

(** ** The checkpoint record *)

(** The dictionary held in [self.state], with the keys the code uses. *)
Record State : Type := mkState {
  step : string;
  completed_groups : list string;
  toc_segments : list json;
  total_groups : Z;
  total_pages : Z
}.

(** The dictionary [_load_state] builds when there is no checkpoint file. *)
Definition default_state : State :=
  {| step := "INITIALIZE";
     completed_groups := [];
     toc_segments := [];
     total_groups := 0;
     total_pages := 0 |}.

Definition set_step (v : string) (st : State) : State :=
  {| step := v;
     completed_groups := completed_groups st;
     toc_segments := toc_segments st;
     total_groups := total_groups st;
     total_pages := total_pages st |}.

Definition set_total_pages (v : Z) (st : State) : State :=
  {| step := step st;
     completed_groups := completed_groups st;
     toc_segments := toc_segments st;
     total_groups := total_groups st;
     total_pages := v |}.

Definition set_total_groups (v : Z) (st : State) : State :=
  {| step := step st;
     completed_groups := completed_groups st;
     toc_segments := toc_segments st;
     total_groups := v;
     total_pages := total_pages st |}.

(** [state["toc_segments"].append(segment)] *)
Definition append_segment (segment : json) (st : State) : State :=
  {| step := step st;
     completed_groups := completed_groups st;
     toc_segments := toc_segments st ++ [segment];
     total_groups := total_groups st;
     total_pages := total_pages st |}.

(** [state["completed_groups"].append(group)] *)
Definition append_group (group : string) (st : State) : State :=
  {| step := step st;
     completed_groups := completed_groups st ++ [group];
     toc_segments := toc_segments st;
     total_groups := total_groups st;
     total_pages := total_pages st |}.

Definition state_to_json (st : State) : json :=
  JObj [("step", JStr (step st));
        ("completed_groups", JArr (JStr <$> completed_groups st));
        ("toc_segments", JArr (toc_segments st));
        ("total_groups", JInt (total_groups st));
        ("total_pages", JInt (total_pages st))].

(** [obj[key]] for a string [key], on a decoded value. *)
Definition subscript (obj : json) (key : string) : result json :=
  match obj with
  | JObj members =>
      match Json.dict_get key members with
      | Some v => Ok v
      | None => Raise (KeyError key)
      end
  | _ => Raise TypeError
  end.

Fixpoint as_strings (l : list json) : option (list string) :=
  match l with
  | [] => Some []
  | JStr s :: l' => option_map (cons s) (as_strings l')
  | _ :: _ => None
  end.

(** The record a decoded value stands for, when it is a dictionary of the
    code's own making: the five keys in the order in which the code sets
    them, with a string, a list of strings, a list, and two integers.  The
    methods are followed for such a dictionary only; any other loaded value
    is a foreign one (see [foreign_run] below). *)
Definition as_state (j : json) : option State :=
  match j with
  | JObj [(k1, JStr s); (k2, JArr gs); (k3, JArr segs); (k4, JInt tg); (k5, JInt tp)] =>
      if String.eqb k1 "step" && String.eqb k2 "completed_groups"
         && String.eqb k3 "toc_segments" && String.eqb k4 "total_groups"
         && String.eqb k5 "total_pages"
      then option_map (λ cg, mkState s cg segs tg tp) (as_strings gs)
      else None
  | _ => None
  end.

(** ** Files and paths *)

(** The file system: the text of each file, by path. *)
Abbreviation FS := (gmap string string).

Fixpoint rfind_slash (p : string) : option nat :=
  match p with
  | EmptyString => None
  | String c r =>
      match rfind_slash r with
      | Some i => Some (S i)
      | None => if Ascii.eqb c "/" then Some O else None
      end
  end.

(** [os.path.basename] (POSIX): what follows the last slash. *)
Definition basename (p : string) : string :=
  match rfind_slash p with
  | Some i => str_drop (S i) p
  | None => p
  end.

Fixpoint ends_with_slash (p : string) : bool :=
  match p with
  | EmptyString => false
  | String c EmptyString => Ascii.eqb c "/"
  | String _ r => ends_with_slash r
  end.

Definition starts_with_slash (p : string) : bool :=
  match p with
  | String c _ => Ascii.eqb c "/"
  | EmptyString => false
  end.

(** [os.path.join(a, b)] (POSIX). *)
Definition path_join (a b : string) : string :=
  if starts_with_slash b then b
  else if Json.is_empty a || ends_with_slash a then a +:+ b
  else a +:+ "/" +:+ b.

(** ** The indexer *)

(** The options object built by [config(...)]. *)
Record Opt : Type := mkOpt {
  model : string;
  toc_check_page_num : Z;
  max_page_num_each_node : Z;
  max_token_num_each_node : Z;
  if_add_node_id : string;
  if_add_node_summary : string;
  if_add_doc_description : string;
  if_add_node_text : string
}.

(** The attributes [__init__] sets once; [self.state] is the mutable part and
    lives in the [World] below. *)
Record ResilientPageIndexer : Type := mkIndexer {
  pdf_path : string;
  opt : Opt;
  doc_name : string;
  state_path : string
}.

(** How a write of the checkpoint file goes.  [open(path, 'w')] empties the
    file before [json.dump] writes into it, so a write that stops after [n]
    characters leaves those [n] characters in the file. *)
Inductive SaveFault : Type :=
| NoFault
| OpenFails
| WriteFailsAfter (n : nat).

Inductive Event : Type :=
| CountPages (pdf : string)
| CallInit (pdf : string) (o : Opt)
| CallExtract (pdf : string) (group : string) (o : Opt)
| CallVerify (segments : list json) (o : Opt)
| Saved (st : State)
| SaveFailed (st : State)
| Sleep.

(** An event with [self.state] and the disk as they are when it happens
    (for a write: as it leaves them). *)
Record Entry : Type := mkEntry {
  at_mem : State;
  at_disk : FS;
  event : Event
}.

(** [self.state], the disk, and what has happened so far, oldest first. *)
Record World : Type := mkWorld {
  mem : State;
  disk : FS;
  trace : list Entry
}.

(** What the indexer calls.  [get_number_of_pages] is called directly; the
    next three stand for [call_with_backoff(f, ...)], whose outcome is the
    value returned or the exception that leaves the wrapper.  Within one run
    each of them is called at most once per argument.  [disk_fault k] tells
    how the write after [k] completed ones goes.

    The rest is what the host answers when an indexer is made.
    [host_makedirs d] is the outcome of [os.makedirs(d, exist_ok=True)]
    where the files of the modelled disk do not decide it; [read_fault p]
    is the exception, if any, of finding the checkpoint at [p] and opening
    and reading it (a directory at [p], a file that may not be read);
    [load_beyond text] is what [json.load] does with a text that
    [Json.decode] leaves open; and [foreign_run self state fs] is what
    [run] does when [self.state] is the foreign value [state]: what it
    returns or raises, the text it leaves in the checkpoint file if it
    writes it, and what happens (the snapshots of its entries tell
    nothing).  Printing is taken to succeed. *)
Record Collaborators : Type := mkCollaborators {
  get_number_of_pages : string → result Z;
  generate_toc_init : string → Opt → result json;
  generate_toc_continue : string → string → Opt → result json;
  verify_toc : list json → Opt → result json;
  disk_fault : nat → SaveFault;
  host_makedirs : string → result unit;
  read_fault : string → option PyError;
  load_beyond : string → result json;
  foreign_run : ResilientPageIndexer → json → FS
                → result (option json) * option string * list Entry
}.

(** Computations that read and change the world and may raise. *)
Definition M (A : Type) : Type := World → result A * World.

Definition ret {A : Type} (a : A) : M A := λ w, (Ok a, w).

Definition raise {A : Type} (e : PyError) : M A := λ w, (Raise e, w).

Definition bind {A B : Type} (m : M A) (k : A → M B) : M B :=
  λ w, match m w with
       | (Ok a, w') => k a w'
       | (Raise e, w') => (Raise e, w')
       end.

Notation "'let*' x := m 'in' k" := (bind m (λ x, k))
  (at level 10, x name, m at level 100, k at level 200).
Notation "m ;; k" := (bind m (λ _, k))
  (at level 100, k at level 200, right associativity).

Definition get_state : M State := λ w, (Ok (mem w), w).

Definition modify (f : State → State) : M unit :=
  λ w, (Ok tt, mkWorld (f (mem w)) (disk w) (trace w)).

Definition emit (e : Event) : M unit :=
  λ w, (Ok tt, mkWorld (mem w) (disk w) (trace w ++ [mkEntry (mem w) (disk w) e])).

Definition lift {A : Type} (r : result A) : M A := λ w, (r, w).

(** An outside call: noted in the trace, then its outcome. *)
Definition perform {A : Type} (e : Event) (outcome : result A) : M A :=
  emit e ;; lift outcome.

Definition saved_states (tr : list Entry) : list State :=
  omap (λ x, match event x with Saved st => Some st | _ => None end) tr.

(** Number of completed writes so far. *)
Definition saves_done (tr : list Entry) : nat := length (saved_states tr).

(** The text [json.dump(self.state, f, indent=4)] writes. *)
Definition checkpoint_text (st : State) : string :=
  Json.dumps (state_to_json st).

(** The effect of [_save_state] on the disk under a given fault. *)
Definition write_checkpoint (path : string) (fault : SaveFault) (st : State) (fs : FS)
  : result unit * FS :=
  match fault with
  | OpenFails => (Raise OSError, fs)
  | WriteFailsAfter n => (Raise OSError, <[path := str_take n (checkpoint_text st)]> fs)
  | NoFault => (Ok tt, <[path := checkpoint_text st]> fs)
  end.

Section Methods.

Context (env : Collaborators) (self : ResilientPageIndexer).

Definition _save_state : M unit :=
  λ w,
    match write_checkpoint (state_path self) (disk_fault env (saves_done (trace w)))
            (mem w) (disk w) with
    | (Ok _, fs) =>
        (Ok tt, mkWorld (mem w) fs (trace w ++ [mkEntry (mem w) fs (Saved (mem w))]))
    | (Raise e, fs) =>
        (Raise e, mkWorld (mem w) fs (trace w ++ [mkEntry (mem w) fs (SaveFailed (mem w))]))
    end.

(** Step 0: page count and group count, when [total_pages] is still 0. *)
Definition count_step : M unit :=
  let* st := get_state in
  if decide (total_pages st = 0%Z) then
    let* pages := perform (CountPages (pdf_path self))
                    (get_number_of_pages env (pdf_path self)) in
    modify (set_total_pages pages) ;;
    let* groups := lift (ceil_of_quotient pages (max_page_num_each_node (opt self))) in
    modify (set_total_groups groups) ;;
    _save_state
  else ret tt.

(** Step 1: the initial analysis. *)
Definition init_step : M unit :=
  let* st := get_state in
  if decide (step st = "INITIALIZE") then
    perform (CallInit (pdf_path self) (opt self))
      (generate_toc_init env (pdf_path self) (opt self)) ;;
    modify (set_step "EXTRACT_NODES") ;;
    _save_state
  else ret tt.

(** One turn of the loop over the groups. *)
Definition extract_group (i : Z) : M unit :=
  let* st := get_state in
  if decide (str i ∈ completed_groups st) then ret tt
  else
    let* segment := perform (CallExtract (pdf_path self) (str i) (opt self))
                      (generate_toc_continue env (pdf_path self) (str i) (opt self)) in
    modify (append_segment segment) ;;
    modify (append_group (str i)) ;;
    _save_state ;;
    emit Sleep.

Fixpoint for_each (l : list Z) (body : Z → M unit) : M unit :=
  match l with
  | [] => ret tt
  | i :: l' => body i ;; for_each l' body
  end.

(** Step 2: the loop [for i in range(1, total + 1)]. *)
Definition extract_step : M unit :=
  let* st := get_state in
  if decide (step st = "EXTRACT_NODES") then
    let total := total_groups st in
    for_each (seqZ 1 total) extract_group ;;
    modify (set_step "VERIFY") ;;
    _save_state
  else ret tt.

(** Step 3 and the branch for a finished checkpoint.  The value is what
    [run] returns; [None] is Python's [None], returned when no branch does. *)
Definition verify_step : M (option json) :=
  let* st := get_state in
  if decide (step st = "VERIFY") then
    let* final_structure :=
      perform (CallVerify (toc_segments st) (opt self))
        (verify_toc env (toc_segments st) (opt self)) in
    ret (Some final_structure)
  else if decide (step st = "COMPLETED") then
    let* final_structure :=
      perform (CallVerify (toc_segments st) (opt self))
        (verify_toc env (toc_segments st) (opt self)) in
    ret (Some final_structure)
  else ret None.

Definition run : M (option json) :=
  count_step ;; init_step ;; extract_step ;; verify_step.

End Methods.

(** [json.load(f)] on a file holding [text]. *)
Definition json_load (env : Collaborators) (text : string) : result json :=
  match Json.decode text with
  | Json.Value j => Ok j
  | Json.Invalid => Raise JSONDecodeError
  | Json.Beyond => load_beyond env text
  end.

(** [_load_state] for the checkpoint at [path]: the decoded value as it is,
    after the read of [state['step']] for the message; the dictionary of
    the default state when there is no file. *)
Definition _load_state (env : Collaborators) (path : string) (fs : FS) : result json :=
  match read_fault env path with
  | Some e => Raise e
  | None =>
      match fs !! path with
      | Some text =>
          match json_load env text with
          | Ok state =>
              match subscript state "step" with
              | Ok _ => Ok state
              | Raise e => Raise e
              end
          | Raise e => Raise e
          end
      | None => Ok (state_to_json default_state)
      end
  end.

Definition default_work_dir : string := "./tmp".

(** [os.makedirs(work_dir, exist_ok=True)]: it raises for the empty path
    and when a regular file is in the place of the directory. *)
Definition makedirs (env : Collaborators) (work_dir : string) (fs : FS) : result unit :=
  if Json.is_empty work_dir then Raise OSError
  else if bool_decide (is_Some (fs !! work_dir)) then Raise OSError
  else host_makedirs env work_dir.

(** [ResilientPageIndexer(pdf_path, opt, work_dir)]: the object and the
    value of [self.state]. *)
Definition __init__ (env : Collaborators) (pdf : string) (o : Opt) (work_dir : string)
    (fs : FS) : result (ResilientPageIndexer * json) :=
  let name := basename pdf in
  let path := path_join work_dir (name +:+ "_state.json") in
  match makedirs env work_dir fs with
  | Ok _ =>
      match _load_state env path fs with
      | Ok state => Ok (mkIndexer pdf o name path, state)
      | Raise e => Raise e
      end
  | Raise e => Raise e
  end.

(** [run] from the loaded value [state]: what it returns or raises, the
    disk it leaves and what happened. *)
Definition run_loaded (env : Collaborators) (self : ResilientPageIndexer) (state : json)
    (fs : FS) : result (option json) * FS * list Entry :=
  match as_state state with
  | Some st => let '(r, w') := run env self (mkWorld st fs []) in (r, disk w', trace w')
  | None =>
      let '(r, text, tr) := foreign_run env self state fs in
      (r, match text with Some t => <[state_path self := t]> fs | None => fs end, tr)
  end.

(** A whole invocation: construct the indexer, then [run]. *)
Definition invoke (env : Collaborators) (pdf : string) (o : Opt) (work_dir : string) (fs : FS)
  : result (option json) * FS * list Entry :=
  match __init__ env pdf o work_dir fs with
  | Ok (self, state) => run_loaded env self state fs
  | Raise e => (Raise e, fs, [])
  end.

(** ** Reading a trace *)

Definition extract_calls (tr : list Entry) : list string :=
  omap (λ x, match event x with CallExtract _ g _ => Some g | _ => None end) tr.

Definition verify_calls (tr : list Entry) : list (list json) :=
  omap (λ x, match event x with CallVerify segs _ => Some segs | _ => None end) tr.

(** Calls to a collaborator: the page count and the three calls to the
    reasoning service made through the retry wrapper. *)
Definition is_call (e : Event) : bool :=
  match e with
  | CountPages _ | CallInit _ _ | CallExtract _ _ _ | CallVerify _ _ => true
  | _ => false
  end.

(** The state last written, [st0] when nothing was written yet. *)
Definition last_saved (st0 : State) (tr : list Entry) : State :=
  default st0 (last (saved_states tr)).

(** [todo cg l]: the groups of [l], as the loop names them, that are not in
    [cg]. *)
Definition todo (cg : list string) (l : list Z) : list string :=
  filter (λ g, g ∉ cg) (str <$> l).

Definition is_ok {A : Type} (r : result A) : Prop :=
  match r with Ok _ => True | Raise _ => False end.

(** Every extraction of a pending group succeeds and no write fails. *)
Definition smooth (env : Collaborators) (self : ResilientPageIndexer)
    (cg0 : list string) (l : list Z) : Prop :=
  (∀ g, g ∈ todo cg0 l →
        is_ok (generate_toc_continue env (pdf_path self) g (opt self))) ∧
  (∀ k, disk_fault env k = NoFault).

(** The loop after the turns [done]: the pending groups among them have
    been called for and appended, in order. *)
Definition loop_inv (cg0 calls0 : list string) (done : list Z) (w : World) : Prop :=
  completed_groups (mem w) = cg0 ++ todo cg0 done ∧
  extract_calls (trace w) = calls0 ++ todo cg0 done.

(** The loop left by an exception: some call was issued, and something
    failed. *)
Definition loop_exc (env : Collaborators) (self : ResilientPageIndexer)
    (cg0 calls0 : list string) (l : list Z) (w : World) : Prop :=
  (∃ k, (0 < k)%nat ∧ extract_calls (trace w) = calls0 ++ take k (todo cg0 l)) ∧
  ¬ smooth env self cg0 l.

(** How far the extraction got: some [k] of the pending groups, in order;
    at least one if any is pending; all of them if nothing fails. *)
Definition calls_outcome (env : Collaborators) (self : ResilientPageIndexer)
    (cg0 : list string) (n : Z) (w : World) : Prop :=
  ∃ k, (todo cg0 (seqZ 1 n) ≠ [] → (0 < k)%nat) ∧
       extract_calls (trace w) = take k (todo cg0 (seqZ 1 n)) ∧
       (smooth env self cg0 (seqZ 1 n) → extract_calls (trace w) = todo cg0 (seqZ 1 n)).

(** [m] and [fs] hold no unsaved progress, [seen] being what has happened
    since [st0] was loaded from [fs0]: [m] is the state last written, and the
    checkpoint file holds its text (or nothing was written and the disk is
    as it was found). *)
Definition persisted (path : string) (st0 : State) (fs0 : FS)
    (seen : list Entry) (m : State) (fs : FS) : Prop :=
  m = last_saved st0 seen ∧
  ((saved_states seen = [] ∧ fs = fs0) ∨ fs !! path = Some (checkpoint_text m)).

(** Every outside call so far went out with nothing unsaved. *)
Definition calls_ok (path : string) (st0 : State) (fs0 : FS) (tr : list Entry) : Prop :=
  ∀ tr1 x tr2, tr = tr1 ++ x :: tr2 → is_call (event x) = true →
               persisted path st0 fs0 tr1 (at_mem x) (at_disk x).

Definition synced (path : string) (st0 : State) (fs0 : FS) (w : World) : Prop :=
  calls_ok path st0 fs0 (trace w) ∧ persisted path st0 fs0 (trace w) (mem w) (disk w).

(** [s'] holds everything [s] holds, in the same order, with as many
    segments added as groups. *)
Definition extends (s s' : State) : Prop :=
  toc_segments s `prefix_of` toc_segments s' ∧
  completed_groups s `prefix_of` completed_groups s' ∧
  length (toc_segments s') + length (completed_groups s)
  = length (completed_groups s') + length (toc_segments s).

Definition balanced (s : State) : Prop :=
  length (toc_segments s) = length (completed_groups s).

(** The states written so far grow one into the next, and [self.state]
    holds at least what each of them holds. *)
Definition growing (st0 : State) (w : World) : Prop :=
  StronglySorted extends (st0 :: saved_states (trace w)) ∧
  Forall (λ s, extends s (mem w)) (st0 :: saved_states (trace w)).

Definition growing_saved (st0 : State) (w : World) : Prop :=
  StronglySorted extends (st0 :: saved_states (trace w)).

(** [φ] holds of [self.state] and of every state written so far. *)
Definition always (φ : State → Prop) (w : World) : Prop :=
  φ (mem w) ∧ Forall φ (saved_states (trace w)).

Definition always_saved (φ : State → Prop) (w : World) : Prop :=
  Forall φ (saved_states (trace w)).

(** The world a completed write leaves. *)
Definition written (path : string) (w : World) : World :=
  let fs := <[path := checkpoint_text (mem w)]> (disk w) in
  mkWorld (mem w) fs (trace w ++ [mkEntry (mem w) fs (Saved (mem w))]).

(** What [run] returns when it returns the outcome of the verification. *)
Definition returned (r : result json) : result (option json) :=
  match r with
  | Ok v => Ok (Some v)
  | Raise e => Raise e
  end.

(** Only the checkpoint file of [self] may differ from the disk [fs0]. *)
Definition same_elsewhere (self : ResilientPageIndexer) (fs0 : FS) (w : World) : Prop :=
  ∀ q, q ≠ state_path self → disk w !! q = fs0 !! q.

(** ** Reading back an encoded value *)

(** The decimal digits of a number, as [str] writes them. *)
Definition digits (x : N) : string := pretty_N_go x EmptyString.

Fixpoint all_digits (s : string) : bool :=
  match s with
  | EmptyString => true
  | String c r => Json.is_digit c && all_digits r
  end.

(** What may follow a value in an encoded text. *)
Definition delimited (rest : string) : Prop :=
  match rest with
  | EmptyString => True
  | String c _ => c = ","%char ∨ c = ascii_of_nat 10
  end.

(** Values that a Python object gives: object keys are distinct.  Numbers
    with a fraction are left out. *)
#[warnings="-register-all"]
Inductive wf_json : json → Prop :=
| wf_null : wf_json JNull
| wf_bool b : wf_json (JBool b)
| wf_int n : wf_json (JInt n)
| wf_str s : wf_json (JStr s)
| wf_arr items : Forall wf_json items → wf_json (JArr items)
| wf_obj members :
    NoDup members.*1 → Forall (λ kv, wf_json kv.2) members → wf_json (JObj members).

(** Fuel that decoding the text of a value takes. *)
Fixpoint need (j : json) : nat :=
  match j with
  | JArr items =>
      S ((fix sum (l : list json) : nat :=
            match l with [] => 0 | x :: l' => S (need x) + sum l' end) items)
  | JObj members =>
      S ((fix sum (l : list (string * json)) : nat :=
            match l with [] => 0 | (_, x) :: l' => S (need x) + sum l' end) members)
  | _ => 1
  end.

Fixpoint items_need (l : list json) : nat :=
  match l with [] => 0 | x :: l' => S (need x) + items_need l' end.

Fixpoint members_need (l : list (string * json)) : nat :=
  match l with [] => 0 | (_, x) :: l' => S (need x) + members_need l' end.

Section Joined.
Variable level : nat.

Fixpoint encode_items (l : list json) (sep : string) : string :=
  match l with
  | [] => EmptyString
  | x :: l' =>
      sep +:+ Json.newline_indent (S level) +:+ Json.encode (S level) x
      +:+ encode_items l' ","
  end.

Fixpoint encode_members (l : list (string * json)) (sep : string) : string :=
  match l with
  | [] => EmptyString
  | (k, x) :: l' =>
      sep +:+ Json.newline_indent (S level) +:+ Json.quote k +:+ ": "
      +:+ Json.encode (S level) x +:+ encode_members l' ","
  end.

End Joined.

(** A text that starts with a character of a value. *)
Definition solid (s : string) : Prop :=
  match s with
  | EmptyString => False
  | String c _ =>
      Json.is_ws c = false ∧ Ascii.eqb c "]" = false ∧ Ascii.eqb c "}" = false
  end.

(** The property of one value: its text, followed by a delimiter, reads
    back as the value and leaves what follows. *)
Definition reads_back (j : json) : Prop :=
  ∀ level rest fuel, need j ≤ fuel → delimited rest →
    Json.parse_value fuel (Json.encode level j +:+ rest) = Some (j, rest).

(** The segments of a state are values a Python object gives. *)
Definition wf_state (st : State) : Prop := Forall wf_json (toc_segments st).

(** ** Lifetimes *)

(** The disk holds [s] as its checkpoint: no file and [s] the default
    state, or the file with the text of [s]. *)
Definition stored (path : string) (fs : FS) (s : State) : Prop :=
  (fs !! path = None ∧ s = default_state) ∨
  (fs !! path = Some (checkpoint_text s) ∧ wf_state s).

(** Collaborators whose segments are values a Python object gives and with
    whom a write completes or fails before the file is opened. *)
Definition orderly (env : Collaborators) : Prop :=
  (∀ pdf g o seg, generate_toc_continue env pdf g o = Ok seg → wf_json seg) ∧
  (∀ k n, disk_fault env k ≠ WriteFailsAfter n).

(** Successive invocations for one document, each with its own
    collaborators, on the disk the previous one left: the states written,
    in order, and the disk at the end. *)
Fixpoint lifetime (envs : list Collaborators) (pdf : string) (o : Opt)
    (work_dir : string) (fs : FS) : list State * FS :=
  match envs with
  | [] => ([], fs)
  | env :: envs' =>
      let '(_, fs', tr) := invoke env pdf o work_dir fs in
      let '(later, fs'') := lifetime envs' pdf o work_dir fs' in
      (saved_states tr ++ later, fs'')
  end.

(** The invariant of an orderly run started from [st0]: the disk holds the
    state last written, and [self.state] holds well-formed segments. *)
Definition keeps_stored (path : string) (st0 : State) (w : World) : Prop :=
  stored path (disk w) (last_saved st0 (trace w)) ∧ wf_state (mem w).

(** The invariant of an orderly run on the disk [fs0]: the checkpoint file
    holds the text of the state written last, or is as it was when none
    was written; and [self.state] holds well-formed segments. *)
Definition left_on_disk (path : string) (fs0 : FS) (w : World) : Prop :=
  match last (saved_states (trace w)) with
  | Some s => disk w !! path = Some (checkpoint_text s) ∧ wf_state s
  | None => disk w !! path = fs0 !! path
  end ∧ wf_state (mem w).

(** ** Triples

    [triple P m Q E]: from a world satisfying [P], [m] ends in a world
    satisfying [Q] when it returns and [E] when it raises. *)
Definition triple {A : Type} (P : World → Prop) (m : M A)
    (Q : A → World → Prop) (E : World → Prop) : Prop :=
  ∀ w, P w → match m w with
             | (Ok a, w') => Q a w'
             | (Raise _, w') => E w'
             end.

(** ** Sample inputs *)

Module Samples.

(** The options of the command line defaults. *)
Definition options : Opt :=
  mkOpt "gpt-4o-2024-11-20" 20 10 20000 "yes" "yes" "no" "no".

Definition segment_of (group : string) : json :=
  JObj [("group", JStr group); ("nodes", JArr [])].

(** Collaborators that always answer, for a document of [pages] pages. *)
Definition answering (pages : Z) : Collaborators :=
  mkCollaborators
    (λ _, Ok pages)
    (λ _ _, Ok JNull)
    (λ _ group _, Ok (segment_of group))
    (λ segments _, Ok (JObj [("structure", JArr segments)]))
    (λ _, NoFault)
    (λ _, Ok tt) (λ _, None) (λ _, Raise JSONDecodeError) (λ _ _ _, (Ok None, None, [])).

(** The same, with the extraction of group 3 failing. *)
Definition failing_at_3 (pages : Z) : Collaborators :=
  mkCollaborators
    (λ _, Ok pages)
    (λ _ _, Ok JNull)
    (λ _ group _, if String.eqb group "3" then Raise (CallFailed "rate limit")
                  else Ok (segment_of group))
    (λ segments _, Ok (JObj [("structure", JArr segments)]))
    (λ _, NoFault)
    (λ _, Ok tt) (λ _, None) (λ _, Raise JSONDecodeError) (λ _ _ _, (Ok None, None, [])).

(** The same as [answering], with every write breaking off after [n]
    characters. *)
Definition breaking_writes (pages : Z) (n : nat) : Collaborators :=
  mkCollaborators
    (λ _, Ok pages)
    (λ _ _, Ok JNull)
    (λ _ group _, Ok (segment_of group))
    (λ segments _, Ok (JObj [("structure", JArr segments)]))
    (λ _, WriteFailsAfter n)
    (λ _, Ok tt) (λ _, None) (λ _, Raise JSONDecodeError) (λ _ _ _, (Ok None, None, [])).

(** The same as [answering], with the user interrupting the extraction of
    group 3. *)
Definition interrupted_at_3 (pages : Z) : Collaborators :=
  mkCollaborators
    (λ _, Ok pages)
    (λ _ _, Ok JNull)
    (λ _ group _, if String.eqb group "3" then Raise KeyboardInterrupt
                  else Ok (segment_of group))
    (λ segments _, Ok (JObj [("structure", JArr segments)]))
    (λ _, NoFault)
    (λ _, Ok tt) (λ _, None) (λ _, Raise JSONDecodeError) (λ _ _ _, (Ok None, None, [])).

Definition indexer : ResilientPageIndexer :=
  mkIndexer "/data/report.pdf" options "report.pdf" "./tmp/report.pdf_state.json".

(** The same indexer with one page per group. *)
Definition indexer_by_page : ResilientPageIndexer :=
  mkIndexer "/data/report.pdf"
    (mkOpt "gpt-4o-2024-11-20" 20 1 20000 "yes" "yes" "no" "no")
    "report.pdf" "./tmp/report.pdf_state.json".

(** Two groups done out of three. *)
Definition two_of_three : State :=
  mkState "EXTRACT_NODES" ["1"; "2"] [segment_of "1"; segment_of "2"] 3 23.

(** Checkpoints in the extraction phase whose page count is 0: one with
    nothing else, one with two groups recorded out of three. *)
Definition never_counted : State := mkState "EXTRACT_NODES" [] [] 0 0.

Definition two_of_three_uncounted : State :=
  mkState "EXTRACT_NODES" ["1"; "2"] [segment_of "1"; segment_of "2"] 3 0.

Definition all_extracted : State :=
  mkState "VERIFY" ["1"; "2"; "3"]
    [segment_of "1"; segment_of "2"; segment_of "3"] 3 23.

Definition finished : State :=
  mkState "COMPLETED" ["1"; "2"; "3"]
    [segment_of "1"; segment_of "2"; segment_of "3"] 3 23.

(** A disk holding the checkpoint of [st] for [indexer]. *)
Definition disk_with (st : State) : FS :=
  {[ state_path indexer := checkpoint_text st ]}.

(** The world of a first invocation: default state, empty disk. *)
Definition fresh : World := mkWorld default_state ∅ [].

(** What happens in a first run on 23 pages with every call answering, and
    the entry of its call to the initial analysis. *)
Definition first_run_trace : list Entry :=
  trace (run (answering 23) indexer fresh).2.

Definition init_call : Entry :=
  default (mkEntry default_state ∅ Sleep) (first_run_trace !! 2%nat).

(** A document of [2^53 + 1] pages, one page per group. *)
Definition huge : Z := 2 ^ 53 + 1.

End Samples.

(** [s] holds what [st0] holds and, after it, groups with the segments the
    extraction returned for them, position by position. *)
Definition answered (env : Collaborators) (self : ResilientPageIndexer)
    (st0 s : State) : Prop :=
  ∃ new ans,
    completed_groups s = completed_groups st0 ++ new ∧
    toc_segments s = toc_segments st0 ++ ans ∧
    Forall2 (λ g seg, generate_toc_continue env (pdf_path self) g (opt self) = Ok seg)
            new ans.

(** The events of a trace, without the snapshots. *)
Definition events (tr : list Entry) : list Event := event <$> tr.

Definition is_write (e : Event) : Prop :=
  match e with Saved _ | SaveFailed _ => True | _ => False end.

(** Nothing, or the call [e] followed by writes only. *)
Definition call_then_writes (e : Event) (d : list Event) : Prop :=
  d = [] ∨ ∃ ws, d = e :: ws ∧ Forall is_write ws.

(** What the loop over the groups may add: extractions, writes, pauses. *)
Definition extraction_event (self : ResilientPageIndexer) (e : Event) : Prop :=
  is_write e ∨ e = Sleep ∨ ∃ g, e = CallExtract (pdf_path self) g (opt self).

(** Nothing, or one verification call. *)
Definition one_verify (self : ResilientPageIndexer) (d : list Event) : Prop :=
  d = [] ∨ ∃ segs, d = [CallVerify segs (opt self)].

(** [m] only adds events to the trace, and what it adds satisfies [S]. *)
Definition adds {A : Type} (S : list Event → Prop) (m : M A) : Prop :=
  ∀ w, ∃ d, events (trace (m w).2) = events (trace w) ++ d ∧ S d.

(** [S1] then [S2]. *)
Definition then_ (S1 S2 : list Event → Prop) (d : list Event) : Prop :=
  ∃ d1 d2, d = d1 ++ d2 ∧ S1 d1 ∧ S2 d2.

(** One move of the phase: none, or one step along
    [INITIALIZE], [EXTRACT_NODES], [VERIFY]. *)
Definition phase_step (a b : string) : Prop :=
  a = b ∨ (a = "INITIALIZE" ∧ b = "EXTRACT_NODES") ∨
  (a = "EXTRACT_NODES" ∧ b = "VERIFY").

Definition phase_moves (s s' : State) : Prop := phase_step (step s) (step s').

(** The phases written so far move one step at a time, and [self.state] is
    in the phase last written. *)
Definition advancing (st0 : State) (w : World) : Prop :=
  Sorted phase_moves (st0 :: saved_states (trace w)) ∧
  step (mem w) = step (last_saved st0 (trace w)).

Definition advancing_saved (st0 : State) (w : World) : Prop :=
  Sorted phase_moves (st0 :: saved_states (trace w)).

(** Every group of [1..total_groups] is among the completed ones. *)
Definition complete (s : State) : Prop :=
  ∀ i, (1 ≤ i ≤ total_groups s)%Z → str i ∈ completed_groups s.

(** A state in the phase [VERIFY] has every group completed. *)
Definition verify_means_complete (s : State) : Prop :=
  step s = "VERIFY" → complete s.

(** The segments the extraction returns for [groups], in order. *)
Definition answers (env : Collaborators) (self : ResilientPageIndexer)
    (groups : list string) : list json :=
  omap (λ g, match generate_toc_continue env (pdf_path self) g (opt self) with
             | Ok seg => Some seg
             | Raise _ => None
             end) groups.

(** The loop after the turns [done], every extraction having succeeded:
    [self.state] is the state [st0] with the pending groups among [done]
    and their segments appended. *)
Definition loop_done (env : Collaborators) (self : ResilientPageIndexer)
    (st0 : State) (done : list Z) (w : World) : Prop :=
  mem w =
  mkState (step st0)
    (completed_groups st0 ++ todo (completed_groups st0) done)
    (toc_segments st0 ++ answers env self (todo (completed_groups st0) done))
    (total_groups st0) (total_pages st0).

(** The directory part [os.path.join(work_dir, name)] puts before a
    relative [name]. *)
Definition join_prefix (work_dir : string) : string :=
  if Json.is_empty work_dir || ends_with_slash work_dir then work_dir
  else work_dir +:+ "/".

(** ** The command line ([run_robust_pageindex.py]) *)

(** The namespace [parser.parse_args()] returns. *)
Module Args.
Record t : Type := mk {
  pdf_path : option string;
  md_path : option string;
  model : string;
  toc_check_pages : Z;
  max_pages_per_node : Z;
  max_tokens_per_node : Z;
  if_add_node_id : string;
  if_add_node_summary : string;
  if_add_doc_description : string;
  if_add_node_text : string
}.
End Args.

(** [config(model=args.model, ...)] *)
Definition config (args : Args.t) : Opt :=
  mkOpt (Args.model args) (Args.toc_check_pages args) (Args.max_pages_per_node args)
    (Args.max_tokens_per_node args) (Args.if_add_node_id args)
    (Args.if_add_node_summary args) (Args.if_add_doc_description args)
    (Args.if_add_node_text args).

(** [p.rfind(c)] *)
Fixpoint rfind (c : ascii) (p : string) : option nat :=
  match p with
  | EmptyString => None
  | String x r =>
      match rfind c r with
      | Some i => Some (S i)
      | None => if Ascii.eqb x c then Some O else None
      end
  end.

Fixpoint all_dots (s : string) : bool :=
  match s with
  | EmptyString => true
  | String c r => Ascii.eqb c "." && all_dots r
  end.

(** [os.path.splitext(p)] (POSIX): the extension starts at the last dot of
    the last component, unless only dots come before it there. *)
Definition splitext (p : string) : string * string :=
  match rfind "." p with
  | Some dot =>
      let name := match rfind_slash p with Some sep => S sep | None => O end in
      if (name <=? dot)%nat then
        if all_dots (str_take (dot - name)%nat (str_drop name p)) then (p, EmptyString)
        else (str_take dot p, str_drop dot p)
      else (p, EmptyString)
  | None => (p, EmptyString)
  end.

(** [f'{output_dir}/{pdf_name}_structure.json'] *)
Definition output_file (pdf : string) : string :=
  "./results" +:+ "/" +:+ (splitext (basename pdf)).1 +:+ "_structure.json".

(** [json.dumps(j, indent=width)] *)
Section Indent.
Variable width : nat.

Definition newline_indent_by (level : nat) : string :=
  Json.newline +:+ Json.spaces (width * level).

Fixpoint encode_indent (level : nat) (j : json) : string :=
  match j with
  | JNull => "null"
  | JBool true => "true"
  | JBool false => "false"
  | JInt n => pretty n
  | JFloat lit => lit
  | JStr s => Json.quote s
  | JArr items =>
      match items with
      | [] => "[]"
      | _ =>
          "[" +:+
          (fix each (l : list json) (sep : string) : string :=
             match l with
             | [] => EmptyString
             | x :: l' =>
                 sep +:+ newline_indent_by (S level) +:+ encode_indent (S level) x
                 +:+ each l' ","
             end) items EmptyString
          +:+ newline_indent_by level +:+ "]"
      end
  | JObj members =>
      match members with
      | [] => "{}"
      | _ =>
          "{" +:+
          (fix each (l : list (string * json)) (sep : string) : string :=
             match l with
             | [] => EmptyString
             | (k, x) :: l' =>
                 sep +:+ newline_indent_by (S level) +:+ Json.quote k +:+ ": "
                 +:+ encode_indent (S level) x +:+ each l' ","
             end) members EmptyString
          +:+ newline_indent_by level +:+ "}"
      end
  end.

End Indent.

(** The text [json.dump(toc_with_page_number, f, indent=2)] writes; [None]
    is written as [null]. *)
Definition results_text (toc : option json) : string :=
  encode_indent 2 0 (default JNull toc).

(** Writing [text] to the file at [path] under a given fault. *)
Definition write_text (path : string) (fault : SaveFault) (text : string) (fs : FS)
  : result unit * FS :=
  match fault with
  | OpenFails => (Raise OSError, fs)
  | WriteFailsAfter n => (Raise OSError, <[path := str_take n text]> fs)
  | NoFault => (Ok tt, <[path := text]> fs)
  end.

(** The line [process_pdf_robustly] prints last. *)
Inductive Printed : Type :=
| Success (output : string)
| ExecutionInterrupted (e : PyError).

(** [process_pdf_robustly(args)]: what it prints last or the exception that
    leaves it, the disk, and what the indexer did.  The indexer is made
    before the [try], so what its construction raises leaves the function
    (without a path, [os.path.basename(None)] raises [TypeError]).  The
    handler is [except Exception]: it catches what [run] and the writing of
    the results raise when that is an [Exception], and lets the rest
    through.  [results_fault] tells how the writing of the results goes
    ([OpenFails] also when [os.makedirs] fails); what it raises when it
    fails is an [OSError], an interruption from outside during that
    writing is not followed. *)
Definition process_pdf_robustly (env : Collaborators) (results_fault : SaveFault)
    (args : Args.t) (fs : FS) : result Printed * FS * list Entry :=
  match Args.pdf_path args with
  | None => (Raise TypeError, fs, [])
  | Some pdf =>
      match __init__ env pdf (config args) default_work_dir fs with
      | Raise e => (Raise e, fs, [])
      | Ok (indexer, state) =>
          let '(r, fs1, tr) := run_loaded env indexer state fs in
          match r with
          | Ok toc_with_page_number =>
              match write_text (output_file pdf) results_fault
                      (results_text toc_with_page_number) fs1 with
              | (Ok _, fs') => (Ok (Success (output_file pdf)), fs', tr)
              | (Raise e, fs') =>
                  if is_exception e then (Ok (ExecutionInterrupted e), fs', tr)
                  else (Raise e, fs', tr)
              end
          | Raise e =>
              if is_exception e then (Ok (ExecutionInterrupted e), fs1, tr)
              else (Raise e, fs1, tr)
          end
      end
  end.

(** [s.lower()] on code points below 256. *)
Definition lower_char (c : ascii) : ascii :=
  let n := nat_of_ascii c in
  if (((65 <=? n) && (n <=? 90)) || ((192 <=? n) && (n <=? 222) && negb (n =? 215)))%nat
  then ascii_of_nat (n + 32)%nat else c.

Fixpoint lower (s : string) : string :=
  match s with
  | EmptyString => EmptyString
  | String c r => String (lower_char c) (lower r)
  end.

(** [s.endswith(suffix)] *)
Definition endswith (s suffix : string) : bool :=
  (String.length suffix <=? String.length s)%nat &&
  String.eqb (str_drop (String.length s - String.length suffix)%nat s) suffix.

(** The truth value of an optional string argument: [None] and the empty
    string are false. *)
Definition given (a : option string) : option string :=
  match a with
  | Some (String c r) => Some (String c r)
  | _ => None
  end.

(** An exception that leaves the script. *)
Inductive Uncaught : Type :=
| FromLibrary (e : PyError)
| ValueError (message : string)
| NameError (name : string).

(** How the script ends: normally (with the last line of the PDF mode, if
    that was run) or by an exception. *)
Inductive Exit : Type :=
| Finished (printed : option Printed)
| Traceback (e : Uncaught).

(** The Markdown mode.  [load] stands for [ConfigLoader().load]; the name
    [call_with_backoff] is not bound in the script, so evaluating the call
    on line 89 raises [NameError] before its arguments are looked at. *)
Definition markdown_mode (load : list (string * string) → result Opt)
    (args : Args.t) (md : string) (fs : FS) : Exit :=
  if negb (endswith (lower md) ".md" || endswith (lower md) ".markdown") then
    Traceback (ValueError "Markdown file must have .md or .markdown extension")
  else if negb (bool_decide (is_Some (fs !! md))) then
    Traceback (ValueError ("Markdown file not found: " +:+ md))
  else
    let user_opt :=
      [("model", Args.model args);
       ("if_add_node_summary", Args.if_add_node_summary args);
       ("if_add_doc_description", Args.if_add_doc_description args);
       ("if_add_node_text", Args.if_add_node_text args);
       ("if_add_node_id", Args.if_add_node_id args)] in
    match load user_opt with
    | Ok opt => Traceback (NameError "call_with_backoff")
    | Raise e => Traceback (FromLibrary e)
    end.

(** The script after [parse_args]. *)
Definition main (env : Collaborators) (results_fault : SaveFault)
    (load : list (string * string) → result Opt) (args : Args.t) (fs : FS)
  : Exit * FS * list Entry :=
  match given (Args.pdf_path args) with
  | Some _ =>
      match process_pdf_robustly env results_fault args fs with
      | (Ok printed, fs', tr) => (Finished (Some printed), fs', tr)
      | (Raise e, fs', tr) => (Traceback (FromLibrary e), fs', tr)
      end
  | None =>
      match given (Args.md_path args) with
      | Some md => (markdown_mode load args md fs, fs, [])
      | None => (Finished None, fs, [])
      end
  end.

(** The checkpoint file of the document at [pdf] for the command line. *)
Definition checkpoint_of (pdf : string) : string :=
  path_join default_work_dir (basename pdf +:+ "_state.json").

Section JoinedBy.
Variables (width level : nat).

Fixpoint encode_items_by (l : list json) (sep : string) : string :=
  match l with
  | [] => EmptyString
  | x :: l' =>
      sep +:+ newline_indent_by width (S level) +:+ encode_indent width (S level) x
      +:+ encode_items_by l' ","
  end.

Fixpoint encode_members_by (l : list (string * json)) (sep : string) : string :=
  match l with
  | [] => EmptyString
  | (k, x) :: l' =>
      sep +:+ newline_indent_by width (S level) +:+ Json.quote k +:+ ": "
      +:+ encode_indent width (S level) x +:+ encode_members_by l' ","
  end.

End JoinedBy.

(** [reads_back] for the text written with any indent. *)
Definition reads_back_by (width : nat) (j : json) : Prop :=
  ∀ level rest fuel, need j ≤ fuel → delimited rest →
    Json.parse_value fuel (encode_indent width level j +:+ rest) = Some (j, rest).

(** Every extraction for [groups] succeeds. *)
Definition all_ok (env : Collaborators) (self : ResilientPageIndexer)
    (groups : list string) : Prop :=
  Forall (λ g, is_ok (generate_toc_continue env (pdf_path self) g (opt self))) groups.

(** [s] is [st0] after the turns [done] of the loop over [l], each of their
    extractions having succeeded; its phase is that of [st0], or [VERIFY]
    when every turn is done. *)
Definition stopped_at (env : Collaborators) (self : ResilientPageIndexer)
    (st0 : State) (l : list Z) (s : State) : Prop :=
  ∃ done rest,
    l = done ++ rest ∧
    all_ok env self (todo (completed_groups st0) done) ∧
    completed_groups s = completed_groups st0 ++ todo (completed_groups st0) done ∧
    toc_segments s
    = toc_segments st0 ++ answers env self (todo (completed_groups st0) done) ∧
    total_groups s = total_groups st0 ∧ total_pages s = total_pages st0 ∧
    (step s = step st0 ∨ (step s = "VERIFY" ∧ rest = [])).

(** The loop of an orderly run after the turns [done]: [self.state] is as
    [loop_done] says, it is the state written last, and the extractions so
    far succeeded. *)
Definition loop_saved (env : Collaborators) (self : ResilientPageIndexer)
    (st0 : State) (done : list Z) (w : World) : Prop :=
  loop_done env self st0 done w ∧
  all_ok env self (todo (completed_groups st0) done) ∧
  last_saved st0 (trace w) = mem w.

(** ** Sample command lines *)

Module CliSamples.

(** [--pdf_path /data/report.pdf] with the defaults of the parser. *)
Definition args : Args.t :=
  Args.mk (Some "/data/report.pdf") None "gpt-4o-2024-11-20" 20 10 20000
    "yes" "yes" "no" "no".

(** The indexer of [Samples.indexer] with a group size of 0. *)
Definition indexer_no_group_size : ResilientPageIndexer :=
  mkIndexer "/data/report.pdf"
    (mkOpt "gpt-4o-2024-11-20" 20 0 20000 "yes" "yes" "no" "no")
    "report.pdf" "./tmp/report.pdf_state.json".

(** The structure the sample collaborators return for three groups. *)
Definition structure : json :=
  JObj [("structure",
         JArr [Samples.segment_of "1"; Samples.segment_of "2"; Samples.segment_of "3"])].

(** The checkpoint right after the initial analysis of a 23-page document. *)
Definition extraction_started : State :=
  mkState "EXTRACT_NODES" [] [] 3 23.

End CliSamples.

(** * Properties *)

(** ** Arithmetic of the group count *)

Section GroupCount.
Local Open Scope Z_scope.

Example ceil_90_10 : ceil_of_quotient 90 10 = Ok 9.
Proof. vm_compute. reflexivity. Qed.
Example ceil_91_10 : ceil_of_quotient 91 10 = Ok 10.
Proof. vm_compute. reflexivity. Qed.
Example ceil_1_10 : ceil_of_quotient 1 10 = Ok 1.
Proof. vm_compute. reflexivity. Qed.
Example ceil_big : ceil_of_quotient (2 ^ 53 + 1) 1 = Ok (2 ^ 53).
Proof. vm_compute. reflexivity. Qed.
Example ceil_underflow :
  ceil_of_quotient 1 (2 ^ 1075) = Ok 0 /\ spec_ceil_div 1 (2 ^ 1075) = 1.
Proof. split; vm_compute; reflexivity. Qed.
Example ceil_last_exact : ceil_of_quotient (2 ^ 53) 3 = Ok (spec_ceil_div (2 ^ 53) 3).
Proof. vm_compute. reflexivity. Qed.
Example ceil_neg : ceil_of_quotient 91 (-10) = Ok (-9).
Proof. vm_compute. reflexivity. Qed.
Example ceil_third : ceil_of_quotient 1 3 = Ok 1.
Proof. vm_compute. reflexivity. Qed.

Lemma ceil_char (x d c : Z) :
  0 < d -> (c - 1) * d < x <= c * d -> - ((- x) / d) = c.
Proof.
  intros Hd [Hlo Hhi].
  assert ((- x) / d = - c) as ->; [|lia].
  symmetry. apply (Z.div_unique_pos _ _ _ (c * d - x)); lia.
Qed.

Lemma spec_ceil_div_exact (p g : Z) :
  0 < g -> p mod g = 0 -> spec_ceil_div p g = p / g.
Proof.
  intros Hg Hr. unfold spec_ceil_div. apply ceil_char; [done|].
  pose proof (Z.div_mod p g ltac:(lia)). nia.
Qed.

Lemma spec_ceil_div_inexact (p g : Z) :
  0 < g -> p mod g <> 0 -> spec_ceil_div p g = p / g + 1.
Proof.
  intros Hg Hr. unfold spec_ceil_div. apply ceil_char; [done|].
  pose proof (Z.div_mod p g ltac:(lia)).
  pose proof (Z.mod_pos_bound p g Hg). nia.
Qed.

Lemma round_half_even_range (n d : Z) :
  n / d <= PyFloat.round_half_even n d <= n / d + 1.
Proof.
  unfold PyFloat.round_half_even. repeat case_match; lia.
Qed.

Lemma ceil_round_scaled (p g s : Z) :
  0 < p -> 0 < g -> 0 <= s ->
  g < 2 * 2 ^ s \/ (g = 2 * 2 ^ s /\ p mod g <> 1) ->
  - ((- PyFloat.round_half_even (p * 2 ^ s) g) / 2 ^ s) = spec_ceil_div p g.
Proof.
  intros Hp Hg Hs Hhalf.
  set (T := 2 ^ s) in *.
  assert (0 < T) as HT by (apply Z.pow_pos_nonneg; lia).
  pose proof (Z.div_mod p g ltac:(lia)) as Hpg.
  pose proof (Z.mod_pos_bound p g Hg) as Hr0.
  pose proof (Z.div_mod (p * T) g ltac:(lia)) as HN.
  pose proof (Z.mod_pos_bound (p * T) g Hg) as Hr.
  set (k := p / g) in *. set (r0 := p mod g) in *.
  destruct (decide (r0 = 0)) as [Hz|Hnz].
  - rewrite spec_ceil_div_exact by done. fold k.
    assert (p * T = (k * T) * g) as HNe by nia.
    unfold PyFloat.round_half_even.
    rewrite HNe, Z.div_mul, Z.mod_mul by lia.
    replace (2 * 0 <? g) with true by (symmetry; apply Z.ltb_lt; lia).
    apply ceil_char; [done|]. nia.
  - rewrite spec_ceil_div_inexact by done. fold k.
    apply ceil_char; [done|].
    pose proof (round_half_even_range (p * T) g) as [Hlo Hhi].
    set (q := (p * T) / g) in *. set (r := (p * T) mod g) in *.
    assert (k * T <= q <= k * T + T - 1) as [Hq1 Hq2] by nia.
    split; [|lia].
    destruct (decide (q = k * T)) as [Heq|]; [|lia].
    assert (r = r0 * T) as Hrr by nia.
    unfold PyFloat.round_half_even. fold q r.
    assert (g < 2 * r) as Hup.
    { destruct Hhalf as [Hlt|[Hg2 Hne]]; [nia|].
      assert (2 <= r0) by lia. nia. }
    replace (2 * r <? g) with false by (symmetry; apply Z.ltb_ge; lia).
    replace (g <? 2 * r) with true by (symmetry; apply Z.ltb_lt; lia).
    lia.
Qed.

Lemma places_spec (p g : Z) :
  0 < p <= 2 ^ 53 -> 0 < g -> p < 2 ^ 53 \/ 2 <= g ->
  0 <= PyFloat.places p g <= 1074 /\
  (PyFloat.places p g = 1074 \/ 2 ^ 52 * g <= p * 2 ^ PyFloat.places p g).
Proof.
  intros [Hp Hp53] Hg Hcase. unfold PyFloat.places.
  pose proof (Z.log2_spec p Hp) as [Hlp1 Hlp2].
  pose proof (Z.log2_spec g Hg) as [Hlg1 Hlg2].
  pose proof (Z.log2_nonneg p) as Hlp0.
  pose proof (Z.log2_nonneg g) as Hlg0.
  assert (Z.log2 p < 54) as Hlp54 by (apply Z.log2_lt_pow2; lia).
  assert (Z.log2 p < 53 \/ 1 <= Z.log2 g) as Hlogs.
  { destruct Hcase as [Hlt|Hge]; [left; apply Z.log2_lt_pow2; lia|].
    right. apply (Z.log2_le_pow2 g 1); lia. }
  set (lp := Z.log2 p) in *. set (lg := Z.log2 g) in *.
  set (sh0 := 52 + lg - lp).
  assert (0 <= sh0) as Hsh0 by (unfold sh0; lia).
  unfold PyFloat.scaled.
  replace (0 <=? sh0) with true by (symmetry; apply Z.leb_le; lia).
  assert (2 ^ lp * 2 ^ sh0 = 2 ^ 52 * 2 ^ lg) as Hpow.
  { rewrite <- !Z.pow_add_r by lia. f_equal. unfold sh0. lia. }
  assert (0 < 2 ^ sh0) as Hs0pos by (apply Z.pow_pos_nonneg; lia).
  assert (2 ^ (sh0 + 1) = 2 * 2 ^ sh0) as Hsucc
    by (rewrite Z.pow_add_r by lia; change (2 ^ 1) with 2; lia).
  assert (2 ^ Z.succ lg = 2 * 2 ^ lg) as Hsuccg
    by (unfold Z.succ; rewrite Z.pow_add_r by lia; change (2 ^ 1) with 2; lia).
  destruct (Z.ltb_spec (p * 2 ^ sh0 / g) (2 ^ 52)) as [Hlt|Hge].
  - split; [lia|].
    destruct (Z.min_spec (sh0 + 1) 1074) as [[? ->]|[? ->]]; [right|by left].
    rewrite Hsucc. nia.
  - split; [lia|].
    destruct (Z.min_spec sh0 1074) as [[? ->]|[? ->]]; [right|by left].
    pose proof (Z.mul_div_le (p * 2 ^ sh0) g Hg). nia.
Qed.

Lemma two_pow_1075 (s : Z) : s = 1074 -> 2 ^ 1075 = 2 * 2 ^ s.
Proof.
  intros ->. change 1075 with (1074 + 1).
  rewrite Z.pow_add_r by lia. change (2 ^ 1) with 2. lia.
Qed.

Lemma pow2_53_mod_ne_1 (s : Z) : 0 <= s -> 2 ^ 53 mod (2 * 2 ^ s) <> 1.
Proof.
  intros Hs.
  assert (0 < 2 ^ s) as HT by (apply Z.pow_pos_nonneg; lia).
  assert (2 * 2 ^ s = 2 ^ (s + 1)) as ->
    by (rewrite Z.pow_add_r by lia; change (2 ^ 1) with 2; lia).
  destruct (Z_le_gt_dec (s + 1) 53) as [Hle|Hgt].
  - replace 53 with ((53 - (s + 1)) + (s + 1)) at 1 by lia.
    rewrite Z.pow_add_r by lia. rewrite Z.mod_mul; [lia|].
    apply Z.pow_nonzero; lia.
  - rewrite Z.mod_small; [lia|]. split; [lia|].
    apply Z.pow_lt_mono_r; lia.
Qed.

(** The float computation gives the exact ceiling on the whole range where
    page counts are exact floats and the quotient does not underflow. *)
Lemma ceil_of_quotient_exact (p g : Z) :
  0 < p <= 2 ^ 53 -> 0 < g < 2 ^ 1075 ->
  ceil_of_quotient p g = Ok (spec_ceil_div p g).
Proof.
  intros Hp [Hg Hg1075].
  destruct (Z.eq_dec p (2 ^ 53)) as [Hp53|Hp53];
    [destruct (Z.eq_dec g 1) as [Hg1|Hg1]|].
  { subst p g. by vm_compute. }
  all: assert (p < 2 ^ 53 \/ 2 <= g) as Hcase by lia.
  all: destruct (places_spec p g Hp Hg Hcase) as [[Hs0 Hs1] Hs].
  all: unfold ceil_of_quotient, PyFloat.int_true_divide.
  all: replace (g =? 0) with false by (symmetry; apply Z.eqb_neq; lia).
  all: replace (p =? 0) with false by (symmetry; apply Z.eqb_neq; lia).
  all: rewrite (Z.abs_eq p), (Z.abs_eq g) by lia.
  all: set (s := PyFloat.places p g) in *.
  all: unfold PyFloat.scaled.
  all: replace (0 <=? s) with true by (symmetry; apply Z.leb_le; lia).
  all: replace (s <? 0) with false by (symmetry; apply Z.ltb_ge; lia).
  all: cbn [andb]; f_equal.
  all: rewrite (Z.sgn_pos p), (Z.sgn_pos g) by lia.
  all: assert (0 < 2 ^ s) as HT by (apply Z.pow_pos_nonneg; lia).
  all: assert (g < 2 * 2 ^ s \/ (g = 2 * 2 ^ s /\ p mod g <> 1)) as Hhalf.
  { destruct Hs as [Hs|Hs]; [left; rewrite <- (two_pow_1075 s Hs); lia|].
    destruct (Z.eq_dec g (2 * 2 ^ s)) as [Heq|Hne]; [right|left; nia].
    split; [done|]. rewrite Hp53, Heq. by apply pow2_53_mod_ne_1. }
  2:{ destruct Hs as [Hs|Hs]; [left; rewrite <- (two_pow_1075 s Hs); lia|].
      left. nia. }
  all: pose proof (ceil_round_scaled p g s ltac:(lia) Hg Hs0 Hhalf) as Hc.
  all: unfold PyFloat.math_ceil; cbn [PyFloat.mant PyFloat.expo].
  all: replace (1 * 1 * PyFloat.round_half_even (p * 2 ^ s) g)
    with (PyFloat.round_half_even (p * 2 ^ s) g) by lia.
  all: destruct (Z.leb_spec 0 (- s)) as [Hle|Hgt];
    [assert (s = 0) as Hz by lia; rewrite Hz in *;
     change (2 ^ 0) with 1 in *; change (- 0) with 0; change (2 ^ 0) with 1;
     rewrite Z.div_1_r in Hc; lia
    |rewrite Z.opp_involutive; exact Hc].
Qed.

End GroupCount.

(** ** Rules for triples *)

Lemma triple_ret {A : Type} (a : A) (Q : A → World → Prop) E :
  triple (Q a) (ret a) Q E.
Proof. intros w Hw. exact Hw. Qed.

Lemma triple_get_state (P : World → Prop) E :
  triple P get_state (λ _, P) E.
Proof. intros w Hw. exact Hw. Qed.

Lemma triple_bind {A B : Type} (m : M A) (k : A → M B) P Q R E :
  triple P m Q E → (∀ a, triple (Q a) (k a) R E) → triple P (bind m k) R E.
Proof.
  intros Hm Hk w Hw. unfold bind. specialize (Hm w Hw).
  destruct (m w) as [[a|e] w1]; [|exact Hm]. exact (Hk a w1 Hm).
Qed.

Lemma triple_weaken {A : Type} (m : M A) (P P' : World → Prop) Q Q'
    (E E' : World → Prop) :
  triple P' m Q' E' → (∀ w, P w → P' w) → (∀ a w, Q' a w → Q a w) →
  (∀ w, E' w → E w) → triple P m Q E.
Proof.
  intros Hm HP HQ HE w Hw. specialize (Hm w (HP w Hw)).
  destruct (m w) as [[a|e] w1]; auto.
Qed.

(** The loop rule: the invariant is indexed by the turns already taken. *)
Lemma triple_for_each (body : Z → M unit) (I : list Z → World → Prop) E (l : list Z) :
  (∀ done i rest, l = done ++ i :: rest →
     triple (I done) (body i) (λ _, I (done ++ [i])) E) →
  triple (I []) (for_each l body) (λ _, I l) E.
Proof.
  intros Hbody.
  cut (∀ rest done, l = done ++ rest → triple (I done) (for_each rest body) (λ _, I l) E).
  { intros H. apply (H l []). done. }
  intros rest. induction rest as [|i rest IH]; intros done Hl.
  - rewrite app_nil_r in Hl. rewrite Hl. apply (triple_ret tt (λ _, I done)).
  - cbn [for_each]. eapply triple_bind.
    + apply (Hbody done i rest Hl).
    + intros u. apply IH. rewrite <- app_assoc. exact Hl.
Qed.

(** Unfolding the steps down to the world they build. *)
Ltac run_ops :=
  unfold count_step, init_step, extract_group, extract_step, verify_step;
  unfold perform;
  unfold bind, emit, lift, modify, get_state, ret, raise, _save_state,
    write_checkpoint; cbn [mem disk trace fst snd].

(** ** Reading traces *)

Lemma saved_states_snoc tr m fs e :
  saved_states (tr ++ [mkEntry m fs e]) =
  saved_states tr ++ match e with Saved s => [s] | _ => [] end.
Proof. unfold saved_states. rewrite omap_app. cbn. by destruct e. Qed.

Lemma extract_calls_snoc tr m fs e :
  extract_calls (tr ++ [mkEntry m fs e]) =
  extract_calls tr ++ match e with CallExtract _ g _ => [g] | _ => [] end.
Proof. unfold extract_calls. rewrite omap_app. cbn. by destruct e. Qed.

Lemma verify_calls_snoc tr m fs e :
  verify_calls (tr ++ [mkEntry m fs e]) =
  verify_calls tr ++ match e with CallVerify segs _ => [segs] | _ => [] end.
Proof. unfold verify_calls. rewrite omap_app. cbn. by destruct e. Qed.

Lemma last_saved_snoc_saved st0 tr m fs s :
  last_saved st0 (tr ++ [mkEntry m fs (Saved s)]) = s.
Proof. unfold last_saved. by rewrite saved_states_snoc, last_snoc. Qed.

Lemma last_saved_snoc_other st0 tr m fs e :
  (∀ s, e ≠ Saved s) →
  last_saved st0 (tr ++ [mkEntry m fs e]) = last_saved st0 tr.
Proof.
  intros He. unfold last_saved. rewrite saved_states_snoc.
  destruct e; rewrite ?app_nil_r; try done. by destruct (He st).
Qed.

(** ** Saving before calling *)

Section Sync.
Context (path : string) (st0 : State) (fs0 : FS).

Lemma calls_ok_nil : calls_ok path st0 fs0 [].
Proof. intros [|? ?] x tr2 H; discriminate. Qed.

Lemma calls_ok_snoc tr x :
  calls_ok path st0 fs0 tr →
  (is_call (event x) = true → persisted path st0 fs0 tr (at_mem x) (at_disk x)) →
  calls_ok path st0 fs0 (tr ++ [x]).
Proof.
  intros Htr Hm tr1 x' tr2 Heq Hext.
  destruct tr2 as [|y tr2 _] using rev_ind.
  - apply app_inj_tail in Heq as [-> ->]. auto.
  - change (tr1 ++ x' :: tr2 ++ [y]) with (tr1 ++ (x' :: tr2) ++ [y]) in Heq.
    rewrite app_assoc in Heq. apply app_inj_tail in Heq as [-> _].
    eapply Htr; eauto.
Qed.

Lemma persisted_snoc_other tr m fs m' fs' e :
  (∀ s, e ≠ Saved s) →
  persisted path st0 fs0 tr m fs →
  persisted path st0 fs0 (tr ++ [mkEntry m' fs' e]) m fs.
Proof.
  intros He [Hm Hfs]. split.
  - by rewrite last_saved_snoc_other.
  - rewrite saved_states_snoc. destruct e; rewrite ?app_nil_r; try done.
    by destruct (He st).
Qed.

Lemma persisted_saved tr m fs m' fs' :
  persisted path st0 fs0 (tr ++ [mkEntry m' fs' (Saved m)]) m
    (<[path := checkpoint_text m]> fs).
Proof.
  split; [by rewrite last_saved_snoc_saved|].
  right. apply lookup_insert_eq.
Qed.

End Sync.

Ltac sync_facts :=
  unfold synced; cbn [mem disk trace];
  repeat first
    [ match goal with |- _ ∧ _ => split end
    | apply persisted_saved
    | apply persisted_snoc_other; [intros ?; discriminate|]
    | apply calls_ok_snoc; [|cbn [event is_call at_mem at_disk]; try discriminate; intros _]
    | assumption ].

Section SyncSteps.
Context (env : Collaborators) (self : ResilientPageIndexer) (st0 : State) (fs0 : FS).

Let Synced := synced (state_path self) st0 fs0.
Let CallsOk := λ w, calls_ok (state_path self) st0 fs0 (trace w).

Lemma count_step_synced :
  triple Synced (count_step env self) (λ _, Synced) CallsOk.
Proof.
  intros w [HG HS]. run_ops.
  repeat case_match; simplify_eq/=; subst Synced CallsOk; sync_facts.
Qed.

Lemma init_step_synced :
  triple Synced (init_step env self) (λ _, Synced) CallsOk.
Proof.
  intros w [HG HS]. run_ops.
  repeat case_match; simplify_eq/=; subst Synced CallsOk; sync_facts.
Qed.

Lemma extract_group_synced i :
  triple Synced (extract_group env self i) (λ _, Synced) CallsOk.
Proof.
  intros w [HG HS]. run_ops.
  repeat case_match; simplify_eq/=; subst Synced CallsOk; sync_facts.
Qed.

Lemma extract_step_synced :
  triple Synced (extract_step env self) (λ _, Synced) CallsOk.
Proof.
  unfold extract_step. eapply triple_bind; [apply triple_get_state|].
  intros st. case_decide; [|apply (triple_ret tt (λ _, Synced))].
  eapply triple_bind.
  { apply (triple_for_each _ (λ _, Synced)). intros. apply extract_group_synced. }
  intros u w [HG HS]. run_ops.
  repeat case_match; simplify_eq/=; subst Synced CallsOk; sync_facts.
Qed.

Lemma verify_step_synced :
  triple Synced (verify_step env self) (λ _, Synced) CallsOk.
Proof.
  intros w [HG HS]. run_ops.
  repeat case_match; simplify_eq/=; subst Synced CallsOk; sync_facts.
Qed.

Lemma run_synced :
  triple Synced (run env self) (λ _, Synced) CallsOk.
Proof.
  unfold run.
  eapply triple_bind; [apply count_step_synced|intros ?].
  eapply triple_bind; [apply init_step_synced|intros ?].
  eapply triple_bind; [apply extract_step_synced|intros ?].
  apply verify_step_synced.
Qed.

End SyncSteps.

(** C4.  Whenever [run] calls a collaborator (the page count, the initial
    analysis, a group extraction, the verification), [self.state] holds no
    unsaved progress: it is the state last written by [_save_state], and the
    checkpoint file holds the text of exactly that state; or nothing was
    written yet in this run, [self.state] is still the state that was loaded
    and the disk is untouched. *)
Theorem run_saves_before_calls env self st fs tr1 x tr2 :
  trace (run env self (mkWorld st fs [])).2 = tr1 ++ x :: tr2 →
  is_call (event x) = true →
  at_mem x = last_saved st tr1 ∧
  ((saved_states tr1 = [] ∧ at_mem x = st ∧ at_disk x = fs) ∨
   at_disk x !! state_path self = Some (checkpoint_text (at_mem x))).
Proof.
  intros Htr Hext.
  pose proof (run_synced env self st fs (mkWorld st fs [])) as H.
  assert (synced (state_path self) st fs (mkWorld st fs [])) as H0.
  { split; [apply calls_ok_nil|]. split; [done|]. by left. }
  specialize (H H0).
  assert (calls_ok (state_path self) st fs (trace (run env self (mkWorld st fs [])).2)) as Hok.
  { destruct (run env self (mkWorld st fs [])) as [[r|err] w']; [by destruct H|done]. }
  destruct (Hok _ _ _ Htr Hext) as [Hm Hd]. split; [done|].
  destruct Hd as [[Hnil Hfs]|Hfile]; [left|by right].
  split_and!; [done| |done].
  rewrite Hm. unfold last_saved. by rewrite Hnil.
Qed.

(** ** Which groups are extracted *)

Lemma todo_snoc cg done i :
  todo cg (done ++ [i]) = todo cg done ++ (if decide (str i ∈ cg) then [] else [str i]).
Proof.
  unfold todo. rewrite fmap_app, filter_app. f_equal.
  change (str <$> [i]) with [str i].
  rewrite filter_cons, filter_nil. by repeat case_decide.
Qed.

Lemma todo_split cg done i rest :
  todo cg (done ++ i :: rest) =
  todo cg done ++ (if decide (str i ∈ cg) then [] else [str i]) ++ todo cg rest.
Proof.
  unfold todo. rewrite fmap_app, filter_app. f_equal.
  rewrite fmap_cons, filter_cons. by repeat case_decide.
Qed.

Lemma todo_elem cg l g : g ∈ todo cg l → (g ∉ cg) ∧ (∃ i, i ∈ l ∧ g = str i).
Proof.
  unfold todo. rewrite list_elem_of_filter, list_elem_of_fmap.
  intros [? (i & -> & ?)]. eauto.
Qed.

Lemma str_inj i j : str i = str j → i = j.
Proof. apply pretty_Z_inj. Qed.

Lemma extract_calls_count_step env self w :
  extract_calls (trace (count_step env self w).2) = extract_calls (trace w).
Proof.
  run_ops. repeat case_match; simplify_eq/=;
    rewrite ?extract_calls_snoc, ?app_nil_r; done.
Qed.

Lemma extract_calls_init_step env self w :
  extract_calls (trace (init_step env self w).2) = extract_calls (trace w).
Proof.
  run_ops. repeat case_match; simplify_eq/=;
    rewrite ?extract_calls_snoc, ?app_nil_r; done.
Qed.

Lemma extract_calls_verify_step env self w :
  extract_calls (trace (verify_step env self w).2) = extract_calls (trace w).
Proof.
  run_ops. repeat case_match; simplify_eq/=;
    rewrite ?extract_calls_snoc, ?app_nil_r; done.
Qed.

Section Loop.
Context (env : Collaborators) (self : ResilientPageIndexer).
Context (cg0 calls0 : list string) (l : list Z).

Lemma extract_group_calls done i rest :
  NoDup l → l = done ++ i :: rest →
  triple (loop_inv cg0 calls0 done) (extract_group env self i)
         (λ _, loop_inv cg0 calls0 (done ++ [i])) (loop_exc env self cg0 calls0 l).
Proof.
  intros Hnd Hl w [Hcg Hcalls].
  assert (i ∉ done) as Hfresh.
  { rewrite Hl in Hnd. apply NoDup_app in Hnd as (_ & Hnd & _).
    intros Hin. apply (Hnd i Hin). left. }
  assert (str i ∈ completed_groups (mem w) ↔ str i ∈ cg0) as Hmem.
  { rewrite Hcg, elem_of_app. split; [|by left].
    intros [?|Hin]; [done|].
    apply todo_elem in Hin as (_ & j & Hj & Heq).
    apply str_inj in Heq as ->. done. }
  assert (str i ∉ cg0 →
          ∃ k, (0 < k)%nat ∧
               (calls0 ++ todo cg0 done) ++ [str i] = calls0 ++ take k (todo cg0 l)) as Hexc.
  { intros Hni. exists (S (length (todo cg0 done))). split; [lia|].
    rewrite Hl, todo_split, decide_False by done.
    rewrite <- app_assoc. f_equal.
    rewrite take_app_ge by lia.
    replace (S (length (todo cg0 done)) - length (todo cg0 done))%nat with 1%nat by lia.
    done. }
  assert (str i ∉ cg0 → str i ∈ todo cg0 l) as Hin.
  { intros Hni. rewrite Hl, todo_split, decide_False by done.
    rewrite !elem_of_app. right. left. apply list_elem_of_singleton. done. }
  run_ops. unfold loop_inv, loop_exc.
  destruct (decide (str i ∈ completed_groups (mem w))) as [Hd|Hd]; cbn [mem trace].
  { rewrite todo_snoc, decide_True by tauto. by rewrite app_nil_r. }
  rewrite Hmem in Hd.
  destruct (generate_toc_continue env (pdf_path self) (str i) (opt self)) as [seg|err] eqn:Hcall;
    cbn [mem trace disk].
  2:{ rewrite extract_calls_snoc, Hcalls. split; [by apply Hexc|].
      intros [Hs _]. specialize (Hs _ (Hin Hd)). by rewrite Hcall in Hs. }
  destruct (disk_fault env _) eqn:Hfault; cbn [mem trace disk].
  - rewrite !extract_calls_snoc, !app_nil_r, Hcalls. cbn [completed_groups append_group append_segment].
    rewrite todo_snoc, decide_False by done. rewrite Hcg, !app_assoc. done.
  - rewrite !extract_calls_snoc, !app_nil_r, Hcalls. split; [by apply Hexc|].
    intros [_ Hs]. by rewrite Hs in Hfault.
  - rewrite !extract_calls_snoc, !app_nil_r, Hcalls. split; [by apply Hexc|].
    intros [_ Hs]. by rewrite Hs in Hfault.
Qed.

Lemma for_each_calls :
  NoDup l →
  triple (loop_inv cg0 calls0 []) (for_each l (extract_group env self))
         (λ _, loop_inv cg0 calls0 l) (loop_exc env self cg0 calls0 l).
Proof.
  intros Hnd. apply (triple_for_each _ (loop_inv cg0 calls0)). intros. by eapply extract_group_calls.
Qed.

End Loop.

Lemma count_step_skip env self w :
  total_pages (mem w) ≠ 0%Z → count_step env self w = (Ok tt, w).
Proof. intros H. run_ops. by rewrite decide_False. Qed.

Lemma init_step_skip env self w :
  step (mem w) ≠ "INITIALIZE" → init_step env self w = (Ok tt, w).
Proof. intros H. run_ops. by rewrite decide_False. Qed.

Section ExtractStep.
Context (env : Collaborators) (self : ResilientPageIndexer).
Context (cg0 : list string) (n : Z).

Let T := todo cg0 (seqZ 1 n).

Lemma extract_step_calls :
  triple (λ w, step (mem w) = "EXTRACT_NODES" ∧ completed_groups (mem w) = cg0 ∧
               total_groups (mem w) = n ∧ extract_calls (trace w) = [])
         (extract_step env self)
         (λ _ w, extract_calls (trace w) = T ∧ step (mem w) = "VERIFY")
         (calls_outcome env self cg0 n).
Proof.
  unfold extract_step. intros w (Hstep & Hcg & Hn & Hcalls).
  unfold bind at 1. unfold get_state. rewrite decide_True by done. rewrite Hn.
  pose proof (for_each_calls env self cg0 [] (seqZ 1 n) (NoDup_seqZ 1 n) w) as Hloop.
  unfold bind at 1.
  destruct (for_each (seqZ 1 n) (extract_group env self) w) as [[u|err] w1].
  - destruct Hloop as [Hcg1 Hcalls1].
    { split; unfold todo; cbn; by rewrite ?app_nil_r. }
    cbn in Hcalls1. fold T in Hcalls1.
    run_ops. destruct (disk_fault env _) eqn:Hfault; cbn [mem trace disk].
    + by rewrite extract_calls_snoc, app_nil_r.
    + exists (length T). fold T. cbn [trace]. rewrite extract_calls_snoc, app_nil_r, firstn_all.
      split_and!; [|done|done]. destruct T; [done|cbn; lia].
    + exists (length T). fold T. cbn [trace]. rewrite extract_calls_snoc, app_nil_r, firstn_all.
      split_and!; [|done|done]. destruct T; [done|cbn; lia].
  - destruct Hloop as [(k & Hk & Hcalls1) Hns].
    { split; unfold todo; cbn; by rewrite ?app_nil_r. }
    exists k. fold T. cbn in Hcalls1. split_and!; [done|done|]. intros Hs. by destruct Hns.
Qed.

End ExtractStep.

(** What the count leaves alone: the phase, the segments and the completed
    groups. *)
Lemma count_step_keeps env self w :
  step (mem (count_step env self w).2) = step (mem w) ∧
  toc_segments (mem (count_step env self w).2) = toc_segments (mem w) ∧
  completed_groups (mem (count_step env self w).2) = completed_groups (mem w).
Proof. run_ops. by repeat case_match. Qed.

Lemma count_step_recounts env self w p n :
  total_pages (mem w) = 0%Z →
  get_number_of_pages env (pdf_path self) = Ok p →
  ceil_of_quotient p (max_page_num_each_node (opt self)) = Ok n →
  total_groups (mem (count_step env self w).2) = n.
Proof.
  intros Hz Hp Hn. run_ops. rewrite decide_True by done. rewrite Hp, Hn.
  repeat case_match; simplify_eq/=; done.
Qed.

Lemma run_calls_outcome env self st fs :
  step st = "EXTRACT_NODES" →
  let counted := count_step env self (mkWorld st fs []) in
  match counted.1 with
  | Ok _ =>
      calls_outcome env self (completed_groups st) (total_groups (mem counted.2))
        (run env self (mkWorld st fs [])).2
  | Raise _ => extract_calls (trace (run env self (mkWorld st fs [])).2) = []
  end.
Proof.
  intros Hstep counted.
  assert (run env self (mkWorld st fs []) =
          match counted with
          | (Ok _, w0) =>
              (init_step env self;; extract_step env self;; verify_step env self) w0
          | (Raise e, w0) => (Raise e, w0)
          end) as -> by reflexivity.
  pose proof (count_step_keeps env self (mkWorld st fs [])) as (Hs & _ & Hcg).
  pose proof (extract_calls_count_step env self (mkWorld st fs [])) as Hnone.
  fold counted in Hs, Hcg, Hnone. cbn [mem trace] in Hs, Hcg, Hnone.
  destruct counted as [[u|err] w0]; cbn [fst snd] in *; [|exact Hnone].
  unfold bind at 1. rewrite init_step_skip by (by rewrite Hs, Hstep).
  unfold bind at 1.
  pose proof (extract_step_calls env self (completed_groups st) (total_groups (mem w0))
                w0) as Hex.
  destruct (extract_step env self w0) as [[u'|err] w1]; cbn [snd].
  - destruct Hex as [Hcalls _]; [by rewrite Hs|].
    unfold calls_outcome. rewrite extract_calls_verify_step, Hcalls.
    set (pending := todo _ _).
    exists (length pending). rewrite firstn_all. split_and!; [|done|done].
    destruct pending; [done|cbn; lia].
  - apply Hex. by rewrite Hs.
Qed.

(** C3, as the code has it.  From a checkpoint in the extraction phase
    with the pages counted ([total_pages] not 0), [run] calls the
    extraction exactly for the groups [str(i)], [i] in [1..total_groups],
    that are not in [completed_groups], in ascending order and each once:
    the calls issued are an initial part of that list, never empty when a
    group is pending, and the whole list when no call and no write fails.
    With groups 1 and 2 completed out of 3, the only call is for group 3.
    With [total_pages] 0, [run] counts the pages first and sets
    [total_groups] anew; if that fails no extraction is called, and
    otherwise the same holds with the new [total_groups], which is the
    group count of the pages counted. *)
Theorem run_extracts_pending env self st fs :
  step st = "EXTRACT_NODES" →
  let calls := extract_calls (trace (run env self (mkWorld st fs [])).2) in
  (total_pages st ≠ 0%Z →
   let pending := todo (completed_groups st) (seqZ 1 (total_groups st)) in
   calls `prefix_of` pending ∧
   (pending ≠ [] → calls ≠ []) ∧
   ((∀ g, g ∈ pending →
          is_ok (generate_toc_continue env (pdf_path self) g (opt self))) →
    (∀ k, disk_fault env k = NoFault) → calls = pending) ∧
   (completed_groups st = ["1"; "2"] → total_groups st = 3%Z → calls = ["3"])) ∧
  (total_pages st = 0%Z →
   let counted := count_step env self (mkWorld st fs []) in
   let pending := todo (completed_groups st) (seqZ 1 (total_groups (mem counted.2))) in
   (∀ p n, get_number_of_pages env (pdf_path self) = Ok p →
           ceil_of_quotient p (max_page_num_each_node (opt self)) = Ok n →
           total_groups (mem counted.2) = n) ∧
   (¬ is_ok counted.1 → calls = []) ∧
   (is_ok counted.1 →
    calls `prefix_of` pending ∧
    (pending ≠ [] → calls ≠ []) ∧
    ((∀ g, g ∈ pending →
           is_ok (generate_toc_continue env (pdf_path self) g (opt self))) →
     (∀ k, disk_fault env k = NoFault) → calls = pending))).
Proof.
  intros Hstep calls.
  pose proof (run_calls_outcome env self st fs Hstep) as Hrun. cbv zeta in Hrun.
  fold calls in Hrun.
  assert (∀ n, calls_outcome env self (completed_groups st) n
                 (run env self (mkWorld st fs [])).2 →
               let pending := todo (completed_groups st) (seqZ 1 n) in
               calls `prefix_of` pending ∧
               (pending ≠ [] → calls ≠ []) ∧
               ((∀ g, g ∈ pending →
                      is_ok (generate_toc_continue env (pdf_path self) g (opt self))) →
                (∀ k, disk_fault env k = NoFault) → calls = pending) ∧
               (pending = ["3"] → calls = ["3"])) as Hshape.
  { intros n (k & Hk & Hcalls & Hall) pending.
    fold calls pending in Hk, Hcalls, Hall.
    assert (pending ≠ [] → calls ≠ []) as Hne.
    { intros Hp. specialize (Hk Hp). rewrite Hcalls.
      destruct pending; [done|]. destruct k; [lia|done]. }
    split_and!.
    - rewrite Hcalls. apply prefix_take.
    - done.
    - intros Hc Hd. apply Hall. by split.
    - intros Hp. rewrite Hp in *. specialize (Hne ltac:(done)).
      destruct k as [|k]; [by rewrite Hcalls in Hne|]. rewrite Hcalls. by destruct k. }
  split.
  - intros Hpages pending.
    rewrite count_step_skip in Hrun by done. cbn [fst snd mem] in Hrun.
    destruct (Hshape _ Hrun) as (H1 & H2 & H3 & H4). fold pending in H1, H2, H3, H4.
    split_and!; [done|done|done|].
    intros Hcg Htot. apply H4. unfold pending. rewrite Hcg, Htot. by vm_compute.
  - intros Hzero counted pending. fold counted in Hrun. split_and!.
    + intros p n Hp Hn. by apply (count_step_recounts env self (mkWorld st fs []) p n).
    + intros Hno. by destruct counted.1.
    + intros Hok. destruct counted.1; [|done].
      destruct (Hshape _ Hrun) as (H1 & H2 & H3 & _). by split_and!.
Qed.

(** ** Growth of the recorded progress *)

Lemma extends_refl s : extends s s.
Proof. unfold extends. split_and!; [done|done|lia]. Qed.

Lemma extends_trans s1 s2 s3 : extends s1 s2 → extends s2 s3 → extends s1 s3.
Proof.
  intros (? & ? & ?) (? & ? & ?). unfold extends.
  split_and!; [by etrans|by etrans|lia].
Qed.

Lemma extends_set_step v s : extends s (set_step v s).
Proof. unfold extends. cbn. split_and!; [done|done|lia]. Qed.

Lemma extends_set_totals p g s : extends s (set_total_groups g (set_total_pages p s)).
Proof. unfold extends. cbn. split_and!; [done|done|lia]. Qed.

Lemma extends_append seg g s : extends s (append_group g (append_segment seg s)).
Proof.
  unfold extends. cbn. split_and!; [by apply prefix_app_r|by apply prefix_app_r|].
  rewrite !length_app. cbn. lia.
Qed.

Lemma StronglySorted_snoc {A : Type} (R : A → A → Prop) (l : list A) (x : A) :
  StronglySorted R l → Forall (λ y, R y x) l → StronglySorted R (l ++ [x]).
Proof.
  induction 1 as [|y l Hl IH Hy]; intros Hx; cbn.
  - repeat constructor.
  - apply Forall_cons in Hx as [Hyx Hx]. constructor; [by apply IH|].
    apply Forall_app. split; [done|]. by constructor.
Qed.

Lemma growing_save st0 tr (m : State) x :
  StronglySorted extends (st0 :: saved_states tr) →
  Forall (λ s, extends s m) (st0 :: saved_states tr) →
  event x = Saved m →
  StronglySorted extends (st0 :: saved_states (tr ++ [x])) ∧
  Forall (λ s, extends s m) (st0 :: saved_states (tr ++ [x])).
Proof.
  intros Hs Hall Hx. destruct x as [xm xfs xe]. cbn in Hx. subst xe.
  rewrite saved_states_snoc, app_comm_cons. split.
  - by apply StronglySorted_snoc.
  - apply Forall_app. split; [done|]. constructor; [apply extends_refl|constructor].
Qed.

Lemma growing_other tr x :
  (∀ s, event x ≠ Saved s) →
  saved_states (tr ++ [x]) = saved_states tr.
Proof.
  intros Hx. destruct x as [xm xfs xe]. rewrite saved_states_snoc.
  cbn in Hx. destruct xe; rewrite ?app_nil_r; try done. by destruct (Hx st).
Qed.

Ltac growth :=
  unfold growing, growing_saved in *; cbn [mem disk trace] in *;
  repeat first
    [ rewrite growing_other by (intros ?; discriminate)
    | assumption
    | match goal with
      | |- StronglySorted _ (_ :: saved_states (_ ++ [_])) ∧ _ =>
          apply growing_save; [| |reflexivity]
      | |- StronglySorted _ (_ :: saved_states (_ ++ [_])) =>
          eapply proj1; apply growing_save; [| |reflexivity]
      | |- _ ∧ _ => split
      | H : Forall (λ s, extends s ?m) ?l |- Forall (λ s, extends s ?m') ?l =>
          apply (Forall_impl _ _ _ H); intros ? ?; eapply extends_trans; [eassumption|]
      | |- extends ?s (set_step _ ?s) => apply extends_set_step
      | |- extends ?s (set_total_groups _ (set_total_pages _ ?s)) => apply extends_set_totals
      | |- extends ?s (append_group _ (append_segment _ ?s)) => apply extends_append
      | |- extends ?s ?s => apply extends_refl
      end ].

Section Growth.
Context (env : Collaborators) (self : ResilientPageIndexer) (st0 : State).

Lemma count_step_growing :
  triple (growing st0) (count_step env self) (λ _, growing st0) (growing_saved st0).
Proof.
  intros w [HS HA]. run_ops.
  repeat case_match; simplify_eq/=; growth.
Qed.

Lemma init_step_growing :
  triple (growing st0) (init_step env self) (λ _, growing st0) (growing_saved st0).
Proof.
  intros w [HS HA]. run_ops.
  repeat case_match; simplify_eq/=; growth.
Qed.

Lemma extract_group_growing i :
  triple (growing st0) (extract_group env self i) (λ _, growing st0) (growing_saved st0).
Proof.
  intros w [HS HA]. run_ops.
  repeat case_match; simplify_eq/=; growth.
Qed.

Lemma extract_step_growing :
  triple (growing st0) (extract_step env self) (λ _, growing st0) (growing_saved st0).
Proof.
  unfold extract_step. eapply triple_bind; [apply triple_get_state|].
  intros st. case_decide; [|apply (triple_ret tt (λ _, growing st0))].
  eapply triple_bind.
  { apply (triple_for_each _ (λ _, growing st0)). intros. apply extract_group_growing. }
  intros u w [HS HA]. run_ops.
  repeat case_match; simplify_eq/=; growth.
Qed.

Lemma verify_step_growing :
  triple (growing st0) (verify_step env self) (λ _, growing st0) (growing_saved st0).
Proof.
  intros w [HS HA]. run_ops.
  repeat case_match; simplify_eq/=; growth.
Qed.

Lemma run_growing :
  triple (growing st0) (run env self) (λ _, growing st0) (growing_saved st0).
Proof.
  unfold run.
  eapply triple_bind; [apply count_step_growing|intros ?].
  eapply triple_bind; [apply init_step_growing|intros ?].
  eapply triple_bind; [apply extract_step_growing|intros ?].
  apply verify_step_growing.
Qed.

End Growth.

Lemma run_saved_sorted env self st fs :
  StronglySorted extends
    (st :: saved_states (trace (run env self (mkWorld st fs [])).2)).
Proof.
  pose proof (run_growing env self st (mkWorld st fs [])) as H.
  assert (growing st (mkWorld st fs [])) as H0.
  { split; cbn; repeat constructor; apply extends_refl. }
  specialize (H H0).
  destruct (run env self (mkWorld st fs [])) as [[r|err] w']; [by destruct H|done].
Qed.

(** C9.  The states [run] writes, in the order it writes them and starting
    from the state it loaded, only grow: each holds the segments and the
    completed groups of every earlier one as an initial part, nothing
    replaced or dropped, with as many segments added as groups.  So when the
    loaded state has as many segments as completed groups, every written
    state has. *)
Theorem run_progress_grows env self st fs :
  let saved := saved_states (trace (run env self (mkWorld st fs [])).2) in
  StronglySorted extends (st :: saved) ∧
  (balanced st → Forall balanced saved).
Proof.
  intros saved.
  pose proof (run_saved_sorted env self st fs) as Hs. fold saved in Hs.
  split; [done|]. intros Hb.
  apply StronglySorted_inv in Hs as [_ Hall].
  apply (Forall_impl _ _ _ Hall). intros s (_ & _ & Hlen).
  unfold balanced in *. lia.
Qed.

(** ** What the steps leave alone *)

Lemma always_saved_snoc φ tr x :
  Forall φ (saved_states tr) →
  (∀ s, event x = Saved s → φ s) →
  Forall φ (saved_states (tr ++ [x])).
Proof.
  intros Htr Hx. destruct x as [xm xfs xe]. rewrite saved_states_snoc.
  apply Forall_app. split; [done|]. destruct xe; try constructor; auto.
Qed.

Ltac always_facts :=
  unfold always, always_saved in *; cbn [mem disk trace] in *;
  repeat first
    [ assumption
    | match goal with
      | |- _ ∧ _ => split
      | |- Forall _ (saved_states (_ ++ [_])) =>
          apply always_saved_snoc; [|cbn [event]; intros ? [= <-]]
      | |- Forall _ (saved_states (_ ++ [_])) =>
          apply always_saved_snoc; [|cbn [event]; intros ? [=]]
      end ].

Section Always.
Context (env : Collaborators) (self : ResilientPageIndexer).
Context (φ : State → Prop).
Context (φ_step : ∀ s v, v = "EXTRACT_NODES" ∨ v = "VERIFY" → φ s → φ (set_step v s)).
Context (φ_append : ∀ s seg g, φ s → φ (append_group g (append_segment seg s))).

Lemma init_step_always :
  triple (always φ) (init_step env self) (λ _, always φ) (always_saved φ).
Proof.
  intros w [Hm Hs]. run_ops.
  repeat case_match; simplify_eq/=; always_facts; auto.
Qed.

Lemma extract_group_always i :
  triple (always φ) (extract_group env self i) (λ _, always φ) (always_saved φ).
Proof.
  intros w [Hm Hs]. run_ops.
  repeat case_match; simplify_eq/=; always_facts; auto.
Qed.

Lemma extract_step_always :
  triple (always φ) (extract_step env self) (λ _, always φ) (always_saved φ).
Proof.
  unfold extract_step. eapply triple_bind; [apply triple_get_state|].
  intros st. case_decide; [|apply (triple_ret tt (λ _, always φ))].
  eapply triple_bind.
  { apply (triple_for_each _ (λ _, always φ)). intros. apply extract_group_always. }
  intros u w [Hm Hs]. run_ops.
  repeat case_match; simplify_eq/=; always_facts; auto.
Qed.

Lemma verify_step_always :
  triple (always φ) (verify_step env self) (λ _, always φ) (always_saved φ).
Proof.
  intros w [Hm Hs]. run_ops.
  repeat case_match; simplify_eq/=; always_facts; auto.
Qed.

Lemma after_count_always :
  triple (always φ) (init_step env self;; extract_step env self;; verify_step env self)
         (λ _, always φ) (always_saved φ).
Proof.
  eapply triple_bind; [apply init_step_always|intros ?].
  eapply triple_bind; [apply extract_step_always|intros ?].
  apply verify_step_always.
Qed.

Context (φ_totals : ∀ s p g, φ s → φ (set_total_groups g (set_total_pages p s))).

Lemma count_step_always :
  triple (always φ) (count_step env self) (λ _, always φ) (always_saved φ).
Proof.
  intros w [Hm Hs]. run_ops.
  repeat case_match; simplify_eq/=; always_facts; auto.
Qed.

Lemma run_always :
  triple (always φ) (run env self) (λ _, always φ) (always_saved φ).
Proof.
  eapply triple_bind; [apply count_step_always|intros ?].
  apply after_count_always.
Qed.

End Always.

(** ** The phase written after verification *)

(** [run] never writes the phase [COMPLETED]: a written state has it only
    if the loaded state had it already. *)
Lemma run_never_writes_completed env self st fs s :
  s ∈ saved_states (trace (run env self (mkWorld st fs [])).2) →
  step s = "COMPLETED" → step st = "COMPLETED".
Proof.
  set (φ := λ s : State, step s = "COMPLETED" → step st = "COMPLETED").
  pose proof (run_always env self φ) as H.
  assert (always_saved φ (run env self (mkWorld st fs [])).2) as Hall.
  { assert (∀ s v, v = "EXTRACT_NODES" ∨ v = "VERIFY" → φ s → φ (set_step v s)) as H1
      by (intros s0 v [-> | ->] _ Hc; cbn in Hc; discriminate).
    assert (∀ s seg g, φ s → φ (append_group g (append_segment seg s))) as H2
      by (intros s0 seg g H0; exact H0).
    assert (∀ s p g, φ s → φ (set_total_groups g (set_total_pages p s))) as H3
      by (intros s0 p g H0; exact H0).
    assert (always φ (mkWorld st fs [])) as H0
      by (split; [unfold φ; tauto|constructor]).
    specialize (H H1 H2 H3 (mkWorld st fs []) H0).
    destruct (run env self (mkWorld st fs [])) as [[r|err] w'];
      [exact (proj2 H)|exact H]. }
  intros Hin. unfold always_saved in Hall. rewrite Forall_forall in Hall.
  by apply Hall.
Qed.

(** C1.  Entering the verification phase with a successful verification,
    [run] returns the final structure, and it leaves [self.state] and the
    disk exactly as they were: the phase written in the checkpoint is still
    [VERIFY]. *)
Theorem verify_success_keeps_phase env self st fs final :
  step st = "VERIFY" → total_pages st ≠ 0%Z →
  verify_toc env (toc_segments st) (opt self) = Ok final →
  run env self (mkWorld st fs []) =
  (Ok (Some final),
   mkWorld st fs [mkEntry st fs (CallVerify (toc_segments st) (opt self))]).
Proof.
  intros Hstep Hpages Hverify. unfold run.
  unfold bind at 1. rewrite count_step_skip by done.
  unfold bind at 1. rewrite init_step_skip by (cbn; by rewrite Hstep).
  run_ops. rewrite decide_False by (by rewrite Hstep).
  rewrite decide_True by done. cbn [mem disk trace]. by rewrite Hverify.
Qed.

(** ** The totals *)

Lemma count_step_counts env self w p G :
  total_pages (mem w) = 0%Z →
  get_number_of_pages env (pdf_path self) = Ok p →
  ceil_of_quotient p (max_page_num_each_node (opt self)) = Ok G →
  count_step env self w =
  _save_state env self
    (mkWorld (set_total_groups G (set_total_pages p (mem w))) (disk w)
             (trace w ++ [mkEntry (mem w) (disk w) (CountPages (pdf_path self))])).
Proof.
  intros Hz Hp HG. unfold count_step. unfold perform.
  unfold bind, emit, lift, modify, get_state. cbn [mem disk trace].
  rewrite decide_True by done. by rewrite Hp, HG.
Qed.

Lemma _save_state_mem env self w :
  mem (_save_state env self w).2 = mem w.
Proof. run_ops. by repeat case_match. Qed.

Lemma _save_state_saved env self w :
  saved_states (trace (_save_state env self w).2) =
  saved_states (trace w) ++
  match (_save_state env self w).1 with Ok _ => [mem w] | Raise _ => [] end.
Proof.
  run_ops. repeat case_match; simplify_eq/=; by rewrite saved_states_snoc.
Qed.

(** Once the totals are set, every state written carries them. *)
Lemma run_totals env self st fs p G :
  total_pages st = 0%Z →
  get_number_of_pages env (pdf_path self) = Ok p →
  ceil_of_quotient p (max_page_num_each_node (opt self)) = Ok G →
  mem (count_step env self (mkWorld st fs [])).2
  = set_total_groups G (set_total_pages p st) ∧
  Forall (λ s, total_pages s = p ∧ total_groups s = G)
         (saved_states (trace (run env self (mkWorld st fs [])).2)).
Proof.
  intros Hz Hp HG.
  pose proof (count_step_counts env self (mkWorld st fs []) p G Hz Hp HG) as Hc.
  cbn [mem disk trace app] in Hc. split.
  { by rewrite Hc, _save_state_mem. }
  set (φ := λ s : State, total_pages s = p ∧ total_groups s = G).
  assert (always_saved φ (count_step env self (mkWorld st fs [])).2 ∧
          (∀ u w1, count_step env self (mkWorld st fs []) = (Ok u, w1) → always φ w1))
    as [Hsaved Hok].
  { rewrite Hc. split.
    - unfold always_saved. rewrite _save_state_saved. cbn.
      case_match; repeat constructor.
    - intros u w1 Heq. split.
      + pose proof (_save_state_mem env self
          (mkWorld (set_total_groups G (set_total_pages p st)) fs
             [mkEntry st fs (CountPages (pdf_path self))])) as Hm.
        rewrite Heq in Hm. cbn in Hm. rewrite Hm. by split.
      + pose proof (_save_state_saved env self
          (mkWorld (set_total_groups G (set_total_pages p st)) fs
             [mkEntry st fs (CountPages (pdf_path self))])) as Hs.
        rewrite Heq in Hs. cbn in Hs. rewrite Hs. repeat constructor. }
  unfold run. unfold bind at 1.
  destruct (count_step env self (mkWorld st fs [])) as [[u|err] w1]; [|exact Hsaved].
  pose proof (after_count_always env self φ) as H.
  assert (∀ s v, v = "EXTRACT_NODES" ∨ v = "VERIFY" → φ s → φ (set_step v s)) as H1
    by (intros s0 v _ H0; exact H0).
  assert (∀ s seg g, φ s → φ (append_group g (append_segment seg s))) as H2
    by (intros s0 seg g H0; exact H0).
  specialize (H H1 H2 w1 (Hok u w1 eq_refl)).
  destruct ((init_step env self;; extract_step env self;; verify_step env self) w1)
    as [[r|err] w']; [exact (proj2 H)|exact H].
Qed.

(** C2.  When [run] counts the pages of a document with [p] pages,
    [0 < p <= 2^53], and the configured group size [g] satisfies
    [0 < g < 2^1075], the [total_groups] it sets is the ceiling of [p / g],
    and every state it writes carries [total_pages = p] and that
    [total_groups]. *)
Theorem run_group_count env self st fs p :
  total_pages st = 0%Z →
  get_number_of_pages env (pdf_path self) = Ok p →
  (0 < p <= 2 ^ 53)%Z →
  (0 < max_page_num_each_node (opt self) < 2 ^ 1075)%Z →
  let groups := spec_ceil_div p (max_page_num_each_node (opt self)) in
  total_groups (mem (count_step env self (mkWorld st fs [])).2) = groups ∧
  Forall (λ s, total_pages s = p ∧ total_groups s = groups)
         (saved_states (trace (run env self (mkWorld st fs [])).2)).
Proof.
  intros Hz Hp Hpr Hgr groups.
  pose proof (ceil_of_quotient_exact p _ Hpr Hgr) as HG.
  destruct (run_totals env self st fs p groups Hz Hp HG) as [Hm Hs].
  split; [by rewrite Hm|done].
Qed.

Lemma ceil_of_quotient_zero g : g ≠ 0%Z → ceil_of_quotient 0 g = Ok 0%Z.
Proof.
  intros Hg. unfold ceil_of_quotient, PyFloat.int_true_divide.
  apply Z.eqb_neq in Hg. by rewrite Hg.
Qed.

(** ** A document without pages *)

Lemma verify_calls_count_step env self w :
  verify_calls (trace (count_step env self w).2) = verify_calls (trace w).
Proof.
  run_ops. repeat case_match; simplify_eq/=;
    rewrite ?verify_calls_snoc, ?app_nil_r; done.
Qed.

Lemma extract_step_skip env self w :
  step (mem w) ≠ "EXTRACT_NODES" → extract_step env self w = (Ok tt, w).
Proof. intros H. run_ops. by rewrite decide_False. Qed.

(** With no group to process, the steps after the count call no extraction. *)
Lemma after_count_no_groups env self w :
  total_groups (mem w) = 0%Z → extract_calls (trace w) = [] →
  extract_calls
    (trace ((init_step env self;; extract_step env self;; verify_step env self) w).2) = [].
Proof.
  intros Hg Hc. run_ops. rewrite ?Hg.
  repeat (case_match; simplify_eq/=; rewrite ?Hg in *; cbn [for_each seqZ] in *;
          unfold ret in *; simplify_eq/=);
    rewrite ?extract_calls_snoc, ?app_nil_r; done.
Qed.

Lemma _save_state_ok env self w :
  disk_fault env (saves_done (trace w)) = NoFault →
  _save_state env self w = (Ok tt, written (state_path self) w).
Proof. intros H. unfold _save_state, write_checkpoint. by rewrite H. Qed.

Lemma init_step_calls env self w v :
  step (mem w) = "INITIALIZE" →
  generate_toc_init env (pdf_path self) (opt self) = Ok v →
  init_step env self w =
  _save_state env self
    (mkWorld (set_step "EXTRACT_NODES" (mem w)) (disk w)
       (trace w ++ [mkEntry (mem w) (disk w) (CallInit (pdf_path self) (opt self))])).
Proof.
  intros Hs Hi. unfold init_step. unfold perform.
  unfold bind, emit, lift, modify, get_state. cbn [mem disk trace].
  rewrite decide_True by done. by rewrite Hi.
Qed.

Lemma extract_step_empty env self w :
  step (mem w) = "EXTRACT_NODES" → total_groups (mem w) = 0%Z →
  extract_step env self w =
  _save_state env self (mkWorld (set_step "VERIFY" (mem w)) (disk w) (trace w)).
Proof.
  intros Hs Hg. unfold extract_step.
  unfold bind, modify, get_state. rewrite decide_True by done.
  rewrite Hg. cbn [seqZ for_each]. unfold ret. by destruct w.
Qed.

Lemma verify_step_keeps env self w :
  mem (verify_step env self w).2 = mem w ∧
  saved_states (trace (verify_step env self w).2) = saved_states (trace w).
Proof.
  run_ops. repeat case_match; simplify_eq/=;
    rewrite ?saved_states_snoc, ?app_nil_r; done.
Qed.

(** C6.  For a document of zero pages (and a group size other than zero),
    [run] sets [total_groups] to 0 and calls no extraction.  From a fresh
    state, when the initial analysis and the writes succeed, the states
    written are the one with the totals, the one in the extraction phase and
    the one in the verification phase, in that order. *)
Theorem run_empty_document env self st fs :
  total_pages st = 0%Z →
  get_number_of_pages env (pdf_path self) = Ok 0%Z →
  max_page_num_each_node (opt self) ≠ 0%Z →
  let w' := (run env self (mkWorld st fs [])).2 in
  let s0 := set_total_groups 0 (set_total_pages 0 st) in
  extract_calls (trace w') = [] ∧
  Forall (λ s, total_pages s = 0%Z ∧ total_groups s = 0%Z) (saved_states (trace w')) ∧
  (step st = "INITIALIZE" →
   is_ok (generate_toc_init env (pdf_path self) (opt self)) →
   (∀ k, disk_fault env k = NoFault) →
   saved_states (trace w') =
     [s0; set_step "EXTRACT_NODES" s0; set_step "VERIFY" (set_step "EXTRACT_NODES" s0)] ∧
   step (mem w') = "VERIFY" ∧
   total_groups (mem w') = 0%Z).
Proof.
  intros Hz Hp Hg w' s0.
  pose proof (ceil_of_quotient_zero _ Hg) as HG.
  destruct (run_totals env self st fs 0 0 Hz Hp HG) as [Hm Hs].
  split_and!; [|exact Hs|].
  - unfold w', run. unfold bind at 1.
    pose proof (extract_calls_count_step env self (mkWorld st fs [])) as Hc.
    destruct (count_step env self (mkWorld st fs [])) as [[u|err] w1]; [|exact Hc].
    apply after_count_no_groups; [|exact Hc]. cbn in Hm. by rewrite Hm.
  - intros Hstep Hinit Hdisk.
    destruct (generate_toc_init env (pdf_path self) (opt self)) as [v|err] eqn:Hi;
      [|done].
    assert (∃ W, run env self (mkWorld st fs []) = verify_step env self W ∧
                 saved_states (trace W) =
                   [s0; set_step "EXTRACT_NODES" s0;
                    set_step "VERIFY" (set_step "EXTRACT_NODES" s0)] ∧
                 mem W = set_step "VERIFY" (set_step "EXTRACT_NODES" s0))
      as (W & Hrun & HWs & HWm).
    { eexists. split.
      - unfold run. unfold bind at 1.
        rewrite (count_step_counts env self (mkWorld st fs []) 0 0 Hz Hp HG).
        rewrite _save_state_ok by apply Hdisk. cbv beta iota.
        unfold bind at 1. rewrite (init_step_calls _ _ _ v) by done.
        rewrite _save_state_ok by apply Hdisk. cbv beta iota.
        unfold bind at 1. rewrite extract_step_empty by done.
        rewrite _save_state_ok by apply Hdisk. cbv beta iota.
        reflexivity.
      - unfold written. cbn [mem disk trace].
        rewrite !saved_states_snoc. done. }
    unfold w'. rewrite Hrun.
    destruct (verify_step_keeps env self W) as [Hvm Hvs].
    rewrite Hvm, Hvs, HWm. done.
Qed.

(** ** A finished checkpoint *)

Lemma verify_step_at env self w :
  step (mem w) = "VERIFY" ∨ step (mem w) = "COMPLETED" →
  verify_step env self w =
  (returned (verify_toc env (toc_segments (mem w)) (opt self)),
   mkWorld (mem w) (disk w)
     (trace w ++ [mkEntry (mem w) (disk w) (CallVerify (toc_segments (mem w)) (opt self))])).
Proof.
  intros Hs. run_ops.
  destruct Hs as [Hs|Hs].
  - rewrite decide_True by done. by destruct (verify_toc env _ _).
  - rewrite decide_False by (by rewrite Hs). rewrite decide_True by done.
    by destruct (verify_toc env _ _).
Qed.

Lemma count_step_ok_world env self w :
  is_ok (count_step env self w).1 → ∃ w1, count_step env self w = (Ok tt, w1).
Proof.
  destruct (count_step env self w) as [[[]|err] w1]; cbn; [eauto|done].
Qed.

(** C8.  From a checkpoint whose phase is [COMPLETED] (the page count being
    known, or its recount going through), [run] calls no extraction and
    calls the verification exactly once, on the stored segments, and returns
    what that call returns: the same value as a run entering the
    verification phase with the same segments. *)
Theorem run_completed env self st fs :
  step st = "COMPLETED" →
  is_ok (count_step env self (mkWorld st fs [])).1 →
  let out := run env self (mkWorld st fs []) in
  extract_calls (trace out.2) = [] ∧
  verify_calls (trace out.2) = [toc_segments st] ∧
  out.1 = returned (verify_toc env (toc_segments st) (opt self)) ∧
  (∀ st' fs', step st' = "VERIFY" → total_pages st' ≠ 0%Z →
              toc_segments st' = toc_segments st →
              (run env self (mkWorld st' fs' [])).1 = out.1).
Proof.
  intros Hstep Hcount out.
  destruct (count_step_ok_world _ _ _ Hcount) as [w1 Hw1].
  pose proof (count_step_keeps env self (mkWorld st fs [])) as (Hk1 & Hk2 & _).
  pose proof (extract_calls_count_step env self (mkWorld st fs [])) as Hk3.
  pose proof (verify_calls_count_step env self (mkWorld st fs [])) as Hk4.
  rewrite Hw1 in Hk1, Hk2, Hk3, Hk4. cbn in Hk1, Hk2, Hk3, Hk4.
  assert (out = (returned (verify_toc env (toc_segments st) (opt self)),
                 mkWorld (mem w1) (disk w1)
                   (trace w1 ++ [mkEntry (mem w1) (disk w1)
                                   (CallVerify (toc_segments st) (opt self))]))) as Hout.
  { unfold out, run. unfold bind at 1. rewrite Hw1.
    unfold bind at 1. rewrite init_step_skip by (by rewrite Hk1, Hstep).
    unfold bind at 1. rewrite extract_step_skip by (by rewrite Hk1, Hstep).
    rewrite verify_step_at by (right; by rewrite Hk1). by rewrite Hk2. }
  rewrite Hout. cbn [fst snd trace].
  rewrite extract_calls_snoc, verify_calls_snoc, Hk3, Hk4.
  split_and!; [done|done|done|].
  intros st' fs' Hs' Hp' Hsegs. unfold run.
  unfold bind at 1. rewrite count_step_skip by done.
  unfold bind at 1. rewrite init_step_skip by (cbn; by rewrite Hs').
  unfold bind at 1. rewrite extract_step_skip by (cbn; by rewrite Hs').
  rewrite verify_step_at by (by left). cbn. by rewrite Hsegs.
Qed.

(** ** Decoding what was encoded *)

Lemma sapp_cons (x : ascii) (a b : string) : String x a +:+ b = String x (a +:+ b).
Proof. reflexivity. Qed.

Lemma sapp_nil_l (b : string) : EmptyString +:+ b = b.
Proof. reflexivity. Qed.

Lemma sapp_assoc (a b c : string) : (a +:+ b) +:+ c = a +:+ (b +:+ c).
Proof. induction a as [|x a IH]; [done|]. by rewrite !sapp_cons, IH. Qed.

Lemma sapp_nil_r (a : string) : a +:+ EmptyString = a.
Proof. induction a as [|x a IH]; [done|]. by rewrite sapp_cons, IH. Qed.

Lemma slength_app (a b : string) :
  String.length (a +:+ b) = (String.length a + String.length b)%nat.
Proof. induction a as [|x a IH]; [done|]. rewrite sapp_cons. cbn. by rewrite IH. Qed.

Lemma parse_string_escape_char c t :
  Json.parse_string (Json.escape_char c +:+ t) = Json.push c (Json.parse_string t).
Proof. destruct c as [[] [] [] [] [] [] [] []]; reflexivity. Qed.

Lemma parse_string_escape s rest :
  Json.parse_string (Json.escape s +:+ String dquote rest) = Some (s, rest).
Proof.
  induction s as [|c s IH]; [done|].
  cbn [Json.escape]. rewrite sapp_assoc, parse_string_escape_char, IH. done.
Qed.

(** *** Numerals *)

Lemma pretty_N_go_app x s : pretty_N_go x s = digits x +:+ s.
Proof.
  revert s. induction (N.lt_wf_0 x) as [x _ IH]. intros s.
  destruct (decide (x = 0)%N) as [->|Hx].
  { unfold digits. by rewrite !pretty_N_go_0. }
  assert (x `div` 10 < x)%N as Hlt by (apply N.div_lt; lia).
  unfold digits. rewrite !(pretty_N_go_step x) by lia.
  rewrite (IH _ Hlt (String _ s)), (IH _ Hlt (String _ EmptyString)).
  by rewrite sapp_assoc.
Qed.

Lemma digits_0 : digits 0 = EmptyString.
Proof. unfold digits. by rewrite pretty_N_go_0. Qed.

Lemma digits_step x :
  (0 < x)%N →
  digits x = digits (x `div` 10) +:+ String (pretty_N_char (x `mod` 10)) EmptyString.
Proof.
  intros Hx. unfold digits at 1. rewrite pretty_N_go_step by done.
  apply pretty_N_go_app.
Qed.

Lemma small_cases (x : N) :
  (x < 10)%N →
  x = 0%N ∨ x = 1%N ∨ x = 2%N ∨ x = 3%N ∨ x = 4%N ∨
  x = 5%N ∨ x = 6%N ∨ x = 7%N ∨ x = 8%N ∨ x = 9%N.
Proof. lia. Qed.

Lemma pretty_N_char_digit x :
  (x < 10)%N →
  Json.is_digit (pretty_N_char x) = true ∧
  Z.of_nat (nat_of_ascii (pretty_N_char x) - 48) = Z.of_N x ∧
  (x ≠ 0%N → pretty_N_char x ≠ "0"%char).
Proof.
  intros Hx. destruct (small_cases x Hx) as [->|[->|[->|[->|[->|[->|[->|[->|[->| ->]]]]]]]]];
    by vm_compute.
Qed.

Lemma all_digits_app a b : all_digits (a +:+ b) = all_digits a && all_digits b.
Proof.
  induction a as [|c a IH]; [done|]. rewrite sapp_cons. cbn. by rewrite IH, andb_assoc.
Qed.

Lemma digits_all x : all_digits (digits x) = true.
Proof.
  induction (N.lt_wf_0 x) as [x _ IH].
  destruct (decide (x = 0)%N) as [->|Hx]; [by rewrite digits_0|].
  rewrite digits_step, all_digits_app by lia.
  rewrite IH by (apply N.div_lt; lia). cbn.
  destruct (pretty_N_char_digit (x `mod` 10)) as [-> _]; [|done].
  apply N.mod_lt. lia.
Qed.

Lemma digits_value_app acc a c :
  Json.digits_value acc (a +:+ String c EmptyString)
  = (10 * Json.digits_value acc a + Z.of_nat (nat_of_ascii c - 48))%Z.
Proof.
  revert acc. induction a as [|x a IH]; intros acc; [done|].
  rewrite sapp_cons. cbn [Json.digits_value]. apply IH.
Qed.

Lemma digits_value_digits x : Json.digits_value 0 (digits x) = Z.of_N x.
Proof.
  induction (N.lt_wf_0 x) as [x _ IH].
  destruct (decide (x = 0)%N) as [->|Hx]; [by rewrite digits_0|].
  rewrite digits_step, digits_value_app by lia.
  rewrite IH by (apply N.div_lt; lia).
  destruct (pretty_N_char_digit (x `mod` 10)) as (_ & -> & _);
    [apply N.mod_lt; lia|].
  pose proof (N.div_mod x 10 ltac:(lia)). lia.
Qed.

Lemma digits_head x :
  (0 < x)%N →
  ∃ c r, digits x = String c r ∧ Json.is_digit c = true ∧ c ≠ "0"%char.
Proof.
  induction (N.lt_wf_0 x) as [x _ IH]. intros Hx.
  rewrite digits_step by done.
  destruct (decide (x `div` 10 = 0)%N) as [Hz|Hnz].
  - rewrite Hz, digits_0, sapp_nil_l.
    assert (x `mod` 10 = x)%N as Hm.
    { pose proof (N.div_mod x 10 ltac:(lia)). lia. }
    destruct (pretty_N_char_digit (x `mod` 10)) as (Hd & _ & Hne);
      [apply N.mod_lt; lia|].
    eexists _, _. split_and!; [done|done|]. apply Hne. lia.
  - assert (x `div` 10 < x)%N as Hlt by (apply N.div_lt; [done|reflexivity]).
    assert (0 < x `div` 10)%N as Hpos by (apply N.neq_0_lt_0; done).
    destruct (IH _ Hlt Hpos) as (c & r & Hr & Hd & Hne).
    rewrite Hr, sapp_cons. eauto.
Qed.

Lemma take_digits_app d rest :
  all_digits d = true → delimited rest →
  Json.take_digits (d +:+ rest) = (d, rest).
Proof.
  intros Hd Hrest. induction d as [|c d IH].
  - rewrite sapp_nil_l. destruct rest as [|c r]; [done|].
    cbn in Hrest. by destruct Hrest as [-> | ->].
  - cbn in Hd. apply andb_prop in Hd as [Hc Hd].
    rewrite sapp_cons. cbn [Json.take_digits]. by rewrite Hc, IH.
Qed.

Lemma parse_tail_delimited rest :
  delimited rest →
  Json.parse_fraction rest = (EmptyString, rest) ∧
  Json.parse_exponent rest = (EmptyString, rest).
Proof.
  destruct rest as [|c r]; [done|]. cbn. by intros [-> | ->].
Qed.

Lemma digit_not_minus c : Json.is_digit c = true → Ascii.eqb c "-" = false.
Proof. destruct c as [[] [] [] [] [] [] [] []]; by vm_compute. Qed.

Lemma nonzero_digit c : c ≠ "0"%char → Ascii.eqb c "0" = false.
Proof. intros H. by apply Ascii.eqb_neq. Qed.

(** The numeral of a positive number reads back as the number. *)
Lemma parse_digits x rest (neg : bool) :
  (0 < x)%N → delimited rest →
  Json.parse_number ((if neg then "-" else EmptyString) +:+ digits x +:+ rest)
  = Some (JInt (if neg then (- Z.of_N x)%Z else Z.of_N x), rest).
Proof.
  intros Hx Hrest.
  destruct (digits_head x Hx) as (c & r & Hr & Hc & Hne).
  pose proof (digits_all x) as Hall. pose proof (digits_value_digits x) as Hval.
  rewrite Hr in Hall, Hval. cbn [all_digits] in Hall.
  apply andb_prop in Hall as [_ Hall].
  destruct (parse_tail_delimited rest Hrest) as [Hf He].
  assert (Json.parse_number (digits x +:+ rest) = Some (JInt (Z.of_N x), rest) ∧
          Json.parse_number ("-" +:+ digits x +:+ rest)
          = Some (JInt (- Z.of_N x), rest)) as [Hpos Hneg].
  { rewrite Hr, !sapp_cons, sapp_nil_l. unfold Json.parse_number.
    change (Ascii.eqb "-" "-") with true. cbv iota.
    rewrite (digit_not_minus c Hc), Hc, (nonzero_digit c Hne).
    rewrite take_digits_app by done. rewrite Hf, He. cbn [Json.is_empty andb].
    by rewrite Hval. }
  destruct neg; [exact Hneg|by rewrite sapp_nil_l].
Qed.

Lemma pretty_Z_cases (n : Z) :
  (n = 0%Z ∧ pretty n = "0") ∨
  (∃ x, (0 < x)%N ∧ n = Z.of_N x ∧ pretty n = digits x) ∨
  (∃ x, (0 < x)%N ∧ n = (- Z.of_N x)%Z ∧ pretty n = "-" +:+ digits x).
Proof.
  destruct n as [|p|p].
  - by left.
  - right. left. exists (Npos p). split_and!; [lia|done|].
    unfold pretty, pretty_Z, pretty, pretty_positive, pretty, pretty_N.
    by rewrite decide_False.
  - right. right. exists (Npos p). split_and!; [lia|done|].
    unfold pretty, pretty_Z, pretty, pretty_positive, pretty, pretty_N.
    by rewrite decide_False.
Qed.

Lemma parse_number_pretty n rest :
  delimited rest →
  Json.parse_number (pretty n +:+ rest) = Some (JInt n, rest).
Proof.
  intros Hrest.
  destruct (pretty_Z_cases n) as [[-> ->]|[(x & Hx & -> & ->)|(x & Hx & -> & ->)]].
  - destruct (parse_tail_delimited rest Hrest) as [Hf He].
    rewrite sapp_cons, sapp_nil_l. unfold Json.parse_number.
    change (Ascii.eqb "0" "-") with false. cbv iota.
    change (Json.is_digit "0") with true. change (Ascii.eqb "0" "0") with true.
    cbv iota. by rewrite Hf, He.
  - apply (parse_digits x rest false Hx Hrest).
  - rewrite sapp_assoc. apply (parse_digits x rest true Hx Hrest).
Qed.

(** *** Values *)

Lemma json_induction (P : json → Prop) :
  P JNull → (∀ b, P (JBool b)) → (∀ n, P (JInt n)) → (∀ l, P (JFloat l)) →
  (∀ s, P (JStr s)) →
  (∀ items, Forall P items → P (JArr items)) →
  (∀ members, Forall (λ kv, P kv.2) members → P (JObj members)) →
  ∀ j, P j.
Proof.
  intros Hnull Hbool Hint Hfloat Hstr Harr Hobj.
  fix IH 1. intros [|b|n|l|s|items|members];
    [exact Hnull|apply Hbool|apply Hint|apply Hfloat|apply Hstr| |].
  - apply Harr. induction items as [|x xs IHxs]; constructor; [apply IH|exact IHxs].
  - apply Hobj. induction members as [|[k v] ms IHms]; constructor; [apply IH|exact IHms].
Qed.

Lemma need_arr items : need (JArr items) = S (items_need items).
Proof. reflexivity. Qed.

Lemma need_obj members : need (JObj members) = S (members_need members).
Proof. reflexivity. Qed.

Lemma encode_arr level x xs :
  Json.encode level (JArr (x :: xs)) =
  "[" +:+ encode_items level (x :: xs) EmptyString
  +:+ Json.newline_indent level +:+ "]".
Proof. reflexivity. Qed.

Lemma encode_obj level kx ms :
  Json.encode level (JObj (kx :: ms)) =
  "{" +:+ encode_members level (kx :: ms) EmptyString
  +:+ Json.newline_indent level +:+ "}".
Proof. reflexivity. Qed.

Lemma skip_ws_solid s : solid s → Json.skip_ws s = s.
Proof. destruct s as [|c r]; [done|]. cbn. by intros [-> _]. Qed.

Lemma skip_ws_spaces k t : Json.skip_ws (Json.spaces k +:+ t) = Json.skip_ws t.
Proof. induction k as [|k IH]; [done|]. cbn [Json.spaces]. by rewrite sapp_cons. Qed.

Lemma skip_ws_newline_indent level t :
  Json.skip_ws (Json.newline_indent level +:+ t) = Json.skip_ws t.
Proof.
  unfold Json.newline_indent, Json.newline.
  rewrite sapp_assoc, sapp_cons, sapp_nil_l. cbn [Json.skip_ws].
  change (Json.is_ws (ascii_of_nat 10)) with true. cbv iota.
  apply skip_ws_spaces.
Qed.

Lemma delimited_newline_indent level t : delimited (Json.newline_indent level +:+ t).
Proof. unfold Json.newline_indent, Json.newline. rewrite sapp_assoc, sapp_cons. by right. Qed.

Lemma digit_solid c : Json.is_digit c = true → solid (String c EmptyString).
Proof. destruct c as [[] [] [] [] [] [] [] []]; by vm_compute. Qed.

Lemma solid_app s t : solid s → solid (s +:+ t).
Proof. destruct s as [|c r]; [done|]. by rewrite sapp_cons. Qed.

Lemma solid_pretty (n : Z) : solid (pretty n).
Proof.
  destruct (pretty_Z_cases n) as [[_ ->]|[(x & Hx & _ & ->)|(x & Hx & _ & ->)]].
  - by vm_compute.
  - destruct (digits_head x Hx) as (c & r & -> & Hc & _).
    apply (solid_app (String c EmptyString) r). by apply digit_solid.
  - by vm_compute.
Qed.

Lemma solid_encode level j : wf_json j → solid (Json.encode level j).
Proof.
  destruct 1 as [|[]|n|s|items _|members _ _]; try by vm_compute.
  - apply solid_pretty.
  - destruct items; by vm_compute.
  - destruct members; by vm_compute.
Qed.

Lemma digit_not_opener c :
  Json.is_digit c = true →
  Ascii.eqb c "{" = false ∧ Ascii.eqb c "[" = false ∧ Ascii.eqb c dquote = false ∧
  Ascii.eqb "n" c = false ∧ Ascii.eqb "t" c = false ∧ Ascii.eqb "f" c = false.
Proof. destruct c as [[] [] [] [] [] [] [] []]; by vm_compute. Qed.

Lemma parse_value_int fuel n rest :
  delimited rest →
  Json.parse_value (S fuel) (pretty n +:+ rest) = Some (JInt n, rest).
Proof.
  intros Hrest. rewrite <- (parse_number_pretty n rest Hrest).
  destruct (pretty_Z_cases n) as [[_ ->]|[(x & Hx & _ & ->)|(x & Hx & _ & ->)]].
  - reflexivity.
  - destruct (digits_head x Hx) as (c & r & -> & Hc & _).
    destruct (digit_not_opener c Hc) as (H1 & H2 & H3 & H4 & H5 & H6).
    rewrite !sapp_cons. cbn [Json.parse_value]. rewrite H1, H2, H3.
    unfold Json.parse_atom. cbn [Json.strip_prefix]. by rewrite H4, H5, H6.
  - reflexivity.
Qed.

Lemma parse_items_encode level rest xs :
  ∀ x acc fuel,
    Forall reads_back (x :: xs) → Forall wf_json (x :: xs) →
    items_need (x :: xs) ≤ fuel →
    Json.parse_items fuel
      (Json.encode (S level) x +:+ encode_items level xs ","
       +:+ Json.newline_indent level +:+ "]" +:+ rest) acc
    = Some (JArr (rev acc ++ x :: xs), rest).
Proof.
  induction xs as [|y ys IH]; intros x acc fuel Hrb Hwf Hfuel.
  - apply Forall_cons in Hrb as [Hx _].
    destruct fuel as [|fuel]; [cbn in Hfuel; lia|].
    cbn [Json.parse_items encode_items]. rewrite sapp_nil_l.
    rewrite Hx by (cbn in Hfuel; lia || apply delimited_newline_indent).
    rewrite skip_ws_newline_indent. reflexivity.
  - apply Forall_cons in Hrb as [Hx Hrb]. apply Forall_cons in Hwf as [_ Hwf].
    destruct fuel as [|fuel]; [cbn in Hfuel; lia|].
    cbn [Json.parse_items encode_items].
    rewrite !sapp_assoc, !sapp_cons, sapp_nil_l.
    rewrite Hx; [|cbn in Hfuel; lia|by left].
    cbn [Json.skip_ws]. change (Json.is_ws ",") with false. cbv iota.
    change (Ascii.eqb "," ",") with true. cbv iota.
    rewrite skip_ws_newline_indent, skip_ws_solid.
    2:{ apply solid_app, solid_encode. by apply Forall_cons in Hwf as [? _]. }
    rewrite IH; [|done|done|cbn in Hfuel |- *; lia].
    cbn [rev]. by rewrite <- app_assoc.
Qed.

Lemma dict_set_fresh k v acc :
  k ∉ acc.*1 → Json.dict_set k v acc = acc ++ [(k, v)].
Proof.
  induction acc as [|[k' v'] acc IH]; intros Hk; [done|].
  cbn [Json.dict_set]. rewrite fmap_cons, not_elem_of_cons in Hk.
  destruct Hk as [Hne Hk]. cbn in Hne.
  destruct (String.eqb_spec k k') as [?|_]; [done|]. by rewrite IH.
Qed.

Ltac flat := repeat (rewrite sapp_assoc || rewrite sapp_cons || rewrite sapp_nil_l).

Lemma parse_members_encode level rest ms :
  ∀ k x acc fuel,
    Forall (λ kv, reads_back kv.2) ((k, x) :: ms) →
    Forall (λ kv, wf_json kv.2) ((k, x) :: ms) →
    NoDup (acc.*1 ++ ((k, x) :: ms).*1) →
    members_need ((k, x) :: ms) ≤ fuel →
    Json.parse_members fuel
      (Json.quote k +:+ ": " +:+ Json.encode (S level) x
       +:+ encode_members level ms "," +:+ Json.newline_indent level +:+ "}" +:+ rest) acc
    = Some (JObj (acc ++ (k, x) :: ms), rest).
Proof.
  induction ms as [|[k' y] ms IH]; intros k x acc fuel Hrb Hwf Hnd Hfuel.
  all: apply Forall_cons in Hrb as [Hx Hrb]; cbn [snd] in Hx.
  all: apply Forall_cons in Hwf as [Hwx Hwf]; cbn [snd] in Hwx.
  all: destruct fuel as [|fuel]; [cbn in Hfuel; lia|].
  all: assert (k ∉ acc.*1) as Hk
    by (apply NoDup_app in Hnd as (_ & Hnd & _); intros Hin; apply (Hnd k Hin); left).
  all: cbn [Json.parse_members encode_members].
  all: unfold Json.quote at 1; flat.
  all: change (Ascii.eqb dquote dquote) with true; cbv iota.
  all: rewrite parse_string_escape.
  all: cbn [Json.skip_ws]; change (Json.is_ws ":") with false; cbv iota.
  all: change (Ascii.eqb ":" ":") with true; cbv iota.
  all: cbn [Json.skip_ws]; change (Json.is_ws " ") with true; cbv iota.
  all: rewrite skip_ws_solid by (by apply solid_app, solid_encode).
  - rewrite Hx by (cbn in Hfuel; lia || apply delimited_newline_indent).
    rewrite skip_ws_newline_indent. rewrite dict_set_fresh by done. reflexivity.
  - rewrite Hx; [|cbn in Hfuel; lia|by left].
    cbn [Json.skip_ws]. change (Json.is_ws ",") with false. cbv iota.
    change (Ascii.eqb "," ",") with true. cbv iota.
    rewrite skip_ws_newline_indent, skip_ws_solid by (by vm_compute).
    rewrite dict_set_fresh by done.
    pose proof (IH k' y (acc ++ [(k, x)]) fuel Hrb Hwf) as IH'.
    revert IH'. flat. intros IH'.
    rewrite IH'; [by rewrite <- app_assoc| |cbn in Hfuel |- *; lia].
    rewrite fmap_app, <- app_assoc. exact Hnd.
Qed.

Lemma reads_back_wf j : wf_json j → reads_back j.
Proof.
  induction j as [|b|n|l|s|items IH|members IH] using json_induction;
    intros Hwf level rest fuel Hfuel Hrest.
  - destruct fuel; [cbn in Hfuel; lia|]. reflexivity.
  - destruct fuel; [cbn in Hfuel; lia|]. by destruct b.
  - destruct fuel; [cbn in Hfuel; lia|]. by apply parse_value_int.
  - inversion Hwf.
  - destruct fuel; [cbn in Hfuel; lia|].
    cbn [Json.encode]. unfold Json.quote. flat. cbn [Json.parse_value].
    change (Ascii.eqb dquote "{") with false. change (Ascii.eqb dquote "[") with false.
    change (Ascii.eqb dquote dquote) with true. cbv iota.
    by rewrite parse_string_escape.
  - inversion Hwf as [| | | |items' Hitems|]; subst.
    rewrite need_arr in Hfuel.
    destruct fuel as [|fuel]; [lia|].
    destruct items as [|x xs]; [reflexivity|].
    rewrite encode_arr. cbn [encode_items]. flat. cbn [Json.parse_value].
    change (Ascii.eqb "[" "{") with false. change (Ascii.eqb "[" "[") with true.
    cbv iota. rewrite skip_ws_newline_indent.
    assert (solid (Json.encode (S level) x)) as Hsolid
      by (apply solid_encode; by apply Forall_cons in Hitems as [? _]).
    rewrite skip_ws_solid by (by apply solid_app).
    destruct (Json.encode (S level) x) as [|c r] eqn:Henc; [done|].
    destruct Hsolid as (_ & Hc & _). rewrite sapp_cons, Hc, <- sapp_cons, <- Henc.
    pose proof (parse_items_encode level rest xs x [] fuel) as H.
    revert H. flat. intros H. apply H; [|done|lia].
    apply Forall_forall. intros y Hy. rewrite Forall_forall in IH, Hitems.
    apply IH; [done|]. by apply Hitems.
  - inversion Hwf as [| | | | |members' Hnd Hmembers]; subst.
    rewrite need_obj in Hfuel.
    destruct fuel as [|fuel]; [lia|].
    destruct members as [|[k x] ms]; [reflexivity|].
    rewrite encode_obj. cbn [encode_members]. flat. cbn [Json.parse_value].
    change (Ascii.eqb "{" "{") with true. cbv iota.
    rewrite skip_ws_newline_indent.
    rewrite skip_ws_solid by (by vm_compute).
    unfold Json.quote at 1. flat.
    change (Ascii.eqb dquote "}") with false. cbv iota.
    pose proof (parse_members_encode level rest ms k x [] fuel) as H.
    revert H. unfold Json.quote at 1. flat. intros H. apply H; [|done|done|lia].
    apply Forall_forall. intros y Hy. rewrite Forall_forall in IH, Hmembers.
    apply IH; [done|]. by apply Hmembers.
Qed.

Lemma length_newline_indent level : 1 ≤ String.length (Json.newline_indent level).
Proof. unfold Json.newline_indent, Json.newline. rewrite sapp_cons. cbn. lia. Qed.

Lemma solid_length s : solid s → 1 ≤ String.length s.
Proof. destruct s; [done|]. cbn. lia. Qed.

Lemma need_le_length j :
  wf_json j → ∀ level, need j ≤ 2 * String.length (Json.encode level j).
Proof.
  induction j as [|b|n|l|s|items IH|members IH] using json_induction;
    intros Hwf level.
  1-3, 5: pose proof (solid_length _ (solid_encode level _ Hwf)); cbn [need]; lia.
  - inversion Hwf.
  - inversion Hwf as [| | | |items' Hitems|]; subst.
    destruct items as [|x xs]; [cbn; lia|].
    rewrite need_arr, encode_arr, !slength_app.
    assert (∀ l sep, Forall wf_json l →
              Forall (λ j, wf_json j → ∀ level, need j ≤ 2 * String.length (Json.encode level j)) l →
              items_need l ≤ 2 * String.length (encode_items level l sep)) as Hsum.
    { induction l as [|y l IHl]; intros sep Hw Hl; [cbn; lia|].
      apply Forall_cons in Hw as [Hwy Hw]. apply Forall_cons in Hl as [Hy Hl].
      cbn [items_need encode_items]. rewrite !slength_app.
      specialize (IHl "," Hw Hl). specialize (Hy Hwy (S level)).
      pose proof (length_newline_indent (S level)). lia. }
    specialize (Hsum (x :: xs) EmptyString Hitems IH).
    change (String.length "[") with 1. lia.
  - inversion Hwf as [| | | | |members' Hnd Hmembers]; subst.
    destruct members as [|kx ms]; [cbn; lia|].
    rewrite need_obj, encode_obj, !slength_app.
    assert (∀ l sep, Forall (λ kv, wf_json kv.2) l →
              Forall (λ kv, wf_json kv.2 → ∀ level, need kv.2 ≤ 2 * String.length (Json.encode level kv.2)) l →
              members_need l ≤ 2 * String.length (encode_members level l sep)) as Hsum.
    { induction l as [|[k y] l IHl]; intros sep Hw Hl; [cbn; lia|].
      apply Forall_cons in Hw as [Hwy Hw]. apply Forall_cons in Hl as [Hy Hl].
      cbn [members_need encode_members]. rewrite !slength_app.
      specialize (IHl "," Hw Hl). specialize (Hy Hwy (S level)). cbn [snd] in Hy.
      pose proof (length_newline_indent (S level)). lia. }
    specialize (Hsum (kx :: ms) EmptyString Hmembers IH).
    change (String.length "{") with 1. lia.
Qed.

(** Decoding the text of a value gives the value back. *)
Lemma has_float_wf j : wf_json j → Json.has_float j = false.
Proof.
  induction j as [|b|n|l|s|items IH|members IH] using json_induction; intros Hwf;
    try reflexivity.
  - inversion Hwf.
  - inversion Hwf as [| | | |items' Hitems|]; subst. cbn [Json.has_float].
    induction items as [|x xs IHxs]; [done|].
    apply Forall_cons in IH as [Hx IH]. apply Forall_cons in Hitems as [Hwx Hitems].
    rewrite (Hx Hwx). cbn [orb]. apply IHxs; [done|by constructor|done].
  - inversion Hwf as [| | | | |members' Hnd Hmembers]; subst. cbn [Json.has_float].
    clear Hnd Hwf. induction members as [|[k x] ms IHms]; [done|].
    apply Forall_cons in IH as [Hx IH]. apply Forall_cons in Hmembers as [Hwx Hmembers].
    cbn [snd] in Hx, Hwx. rewrite (Hx Hwx). cbn [orb]. by apply IHms.
Qed.

(** Decoding the text of a value gives the value back. *)
Lemma decode_dumps j : wf_json j → Json.decode (Json.dumps j) = Json.Value j.
Proof.
  intros Hwf. unfold Json.decode, Json.dumps.
  rewrite skip_ws_solid by (by apply solid_encode).
  pose proof (reads_back_wf j Hwf 0 EmptyString
                (2 * String.length (Json.encode 0 j) + 2)) as H.
  rewrite sapp_nil_r in H. rewrite H; [|pose proof (need_le_length j Hwf 0); lia|done].
  cbn [Json.skip_ws Json.is_empty]. by rewrite has_float_wf.
Qed.

Lemma loads_dumps j : wf_json j → Json.loads (Json.dumps j) = Some j.
Proof. intros Hwf. unfold Json.loads. by rewrite decode_dumps. Qed.

Lemma as_strings_strings (l : list string) : as_strings (JStr <$> l) = Some l.
Proof. induction l as [|s l IH]; [done|]. cbn. by rewrite IH. Qed.

(** The dictionary of a state stands for that state, and for no other. *)
Lemma as_state_to_json st : as_state (state_to_json st) = Some st.
Proof.
  destruct st as [s cg segs tg tp]. unfold as_state, state_to_json.
  cbn [step completed_groups toc_segments total_groups total_pages].
  repeat (match goal with |- context [String.eqb ?a ?b] =>
            let r := eval vm_compute in (String.eqb a b) in
            change (String.eqb a b) with r end; cbv iota).
  cbn [andb]. by rewrite as_strings_strings.
Qed.

Lemma as_strings_inv l cg : as_strings l = Some cg → l = JStr <$> cg.
Proof.
  revert cg. induction l as [|x l IH]; intros cg H; [by injection H as <-|].
  destruct x; try discriminate. cbn in H.
  destruct (as_strings l) as [r|]; [|discriminate]. injection H as <-.
  cbn. by rewrite (IH r).
Qed.

Lemma as_state_inv j st : as_state j = Some st → j = state_to_json st.
Proof.
  unfold as_state. intros H.
  repeat (match type of H with
          | (if ?b then _ else _) = _ => destruct b eqn:?; try discriminate
          | (let (_, _) := ?x in _) = _ => destruct x
          | match ?x with _ => _ end = _ => destruct x; try discriminate
          end).
  repeat match goal with
         | Hb : _ && _ = true |- _ => apply andb_true_iff in Hb as [? ?]
         | Hb : String.eqb _ _ = true |- _ => apply String.eqb_eq in Hb; subst
         end.
  match type of H with
  | option_map _ (as_strings ?l) = _ => destruct (as_strings l) as [cg|] eqn:Hcg
  end; [|discriminate].
  injection H as <-. apply as_strings_inv in Hcg as ->. reflexivity.
Qed.

Lemma subscript_step st : subscript (state_to_json st) "step" = Ok (JStr (step st)).
Proof. reflexivity. Qed.

Lemma wf_state_to_json st : wf_state st → wf_json (state_to_json st).
Proof.
  intros Hwf. constructor.
  - change (NoDup ["step"; "completed_groups"; "toc_segments"; "total_groups"; "total_pages"]).
    refine (bool_decide_unpack _ _). by vm_compute.
  - repeat constructor; cbn [snd].
    + apply Forall_fmap, Forall_forall. intros s _. constructor.
    + exact Hwf.
Qed.

(** What [_save_state] wrote, [_load_state] reads. *)
Lemma load_saved env path st fs :
  wf_state st → read_fault env path = None →
  _load_state env path (<[path := checkpoint_text st]> fs) = Ok (state_to_json st).
Proof.
  intros Hwf Hread. unfold _load_state, json_load, checkpoint_text.
  rewrite Hread, lookup_insert_eq, decode_dumps by (by apply wf_state_to_json).
  by rewrite subscript_step.
Qed.

(** ** The checkpoint file *)

(** C7.  When the checkpoint cannot be found and read, [_load_state] raises
    what that raises.  Otherwise: with no file it returns the dictionary of
    the default state (phase [INITIALIZE], no completed group, no segment,
    totals 0); with a file it returns what [json.load] returns for its
    text, as it is, or raises what [json.load] raises or what the read of
    the key [step] raises, and nothing else, so never a default in the
    place of what the file holds; for a file written by [_save_state]
    that is the dictionary of the state that was written; and for a text
    that does not decode it raises [JSONDecodeError]. *)
Theorem load_state_cases env path fs :
  (∀ e, read_fault env path = Some e → _load_state env path fs = Raise e) ∧
  (read_fault env path = None →
   (fs !! path = None → _load_state env path fs = Ok (state_to_json default_state)) ∧
   (∀ st, wf_state st → fs !! path = Some (checkpoint_text st) →
          _load_state env path fs = Ok (state_to_json st)) ∧
   (∀ self w, state_path self = path → wf_state (mem w) →
              is_ok (_save_state env self w).1 →
              _load_state env path (disk (_save_state env self w).2)
              = Ok (state_to_json (mem w))) ∧
   (∀ text, fs !! path = Some text →
            match _load_state env path fs with
            | Ok state => json_load env text = Ok state ∧ is_ok (subscript state "step")
            | Raise e =>
                json_load env text = Raise e ∨
                ∃ state, json_load env text = Ok state ∧ subscript state "step" = Raise e
            end) ∧
   (∀ text, fs !! path = Some text → Json.decode text = Json.Invalid →
            _load_state env path fs = Raise JSONDecodeError)) ∧
  as_state (state_to_json default_state) = Some (mkState "INITIALIZE" [] [] 0 0).
Proof.
  split_and!; [| |reflexivity].
  { intros e He. unfold _load_state. by rewrite He. }
  intros Hread. split_and!.
  - intros Hnone. unfold _load_state. by rewrite Hread, Hnone.
  - intros st Hwf Hfile. rewrite <- (insert_id fs path _ Hfile). by apply load_saved.
  - intros self w <- Hwf. unfold _save_state, write_checkpoint.
    destruct (disk_fault env _); cbn [fst snd disk]; [|done|done].
    intros _. by apply load_saved.
  - intros text Hfile. unfold _load_state. rewrite Hread, Hfile.
    destruct (json_load env text) as [state|e]; [|by left].
    destruct (subscript state "step") as [v|e] eqn:Hstep.
    + split; [done|]. by rewrite Hstep.
    + right. by exists state.
  - intros text Hfile Hbad. unfold _load_state, json_load.
    by rewrite Hread, Hfile, Hbad.
Qed.

(** What a write leaves on the disk. *)
Lemma write_checkpoint_effect path fault st fs :
  match write_checkpoint path fault st fs with
  | (Ok _, fs') => fault = NoFault ∧ fs' = <[path := checkpoint_text st]> fs
  | (Raise _, fs') =>
      (fault = OpenFails ∧ fs' = fs) ∨
      (∃ n, fault = WriteFailsAfter n ∧
            fs' = <[path := str_take n (checkpoint_text st)]> fs)
  end.
Proof. destruct fault; cbn; eauto. Qed.

(** C5, as the code has it.  A write that completes replaces the whole
    file by the text of [self.state].  A write that fails either fails when
    the file is opened, and then the disk is unchanged, or fails later, and
    then the file holds the first [n] characters of the new text and nothing
    of what it held before.  No other file changes and [self.state] does
    not. *)
Theorem save_state_effect env self w :
  let out := _save_state env self w in
  let path := state_path self in
  let text := checkpoint_text (mem w) in
  mem out.2 = mem w ∧
  (∀ q, q ≠ path → disk out.2 !! q = disk w !! q) ∧
  (is_ok out.1 → disk out.2 !! path = Some text) ∧
  (¬ is_ok out.1 →
   disk out.2 = disk w ∨ ∃ n, disk out.2 !! path = Some (str_take n text)).
Proof.
  intros out path text. unfold out, _save_state.
  pose proof (write_checkpoint_effect path (disk_fault env (saves_done (trace w)))
                (mem w) (disk w)) as H.
  fold path.
  destruct (write_checkpoint path _ (mem w) (disk w)) as [[u|e] fs']; cbn.
  - destruct H as [_ ->]. split_and!; [done| |by rewrite lookup_insert_eq|done].
    intros q Hq. by rewrite lookup_insert_ne.
  - destruct H as [[_ ->]|(n & _ & ->)]; (split_and!; [done| |done|]).
    + done.
    + intros _. by left.
    + intros q Hq. by rewrite lookup_insert_ne.
    + intros _. right. exists n. by rewrite lookup_insert_eq.
Qed.

(** ** The path of the checkpoint *)

Lemma rfind_slash_basename p : rfind_slash (basename p) = None.
Proof.
  unfold basename. induction p as [|c r IH]; [done|].
  cbn [rfind_slash]. destruct (rfind_slash r) as [i|] eqn:Hr.
  - cbn [str_drop]. exact IH.
  - destruct (Ascii.eqb c "/") eqn:Hc; cbn [str_drop].
    + exact Hr.
    + cbn [rfind_slash]. by rewrite Hr, Hc.
Qed.

Lemma no_slash_not_absolute b s :
  rfind_slash b = None → starts_with_slash s = false →
  starts_with_slash (b +:+ s) = false.
Proof.
  destruct b as [|c r]; intros Hb Hs; [exact Hs|].
  cbn [rfind_slash] in Hb.
  change (starts_with_slash (String c r +:+ s)) with (Ascii.eqb c "/").
  destruct (rfind_slash r); [done|]. by destruct (Ascii.eqb c "/").
Qed.

Lemma state_file_relative pdf :
  starts_with_slash (basename pdf +:+ "_state.json") = false.
Proof. apply no_slash_not_absolute; [apply rfind_slash_basename|done]. Qed.

Lemma _save_state_other_files env self w q :
  q ≠ state_path self → disk (_save_state env self w).2 !! q = disk w !! q.
Proof.
  intros Hq. unfold _save_state, write_checkpoint.
  destruct (disk_fault env _); cbn; by rewrite ?lookup_insert_ne.
Qed.

Section OtherFiles.
Context (env : Collaborators) (self : ResilientPageIndexer) (fs0 : FS).

Let Elsewhere := same_elsewhere self fs0.

Ltac elsewhere :=
  subst Elsewhere; unfold same_elsewhere in *; cbn [mem disk trace] in *;
  try (intros q Hq; rewrite ?lookup_insert_ne by done; auto).

Lemma count_step_elsewhere :
  triple Elsewhere (count_step env self) (λ _, Elsewhere) Elsewhere.
Proof. intros w H. run_ops. repeat case_match; simplify_eq/=; elsewhere. Qed.

Lemma init_step_elsewhere :
  triple Elsewhere (init_step env self) (λ _, Elsewhere) Elsewhere.
Proof. intros w H. run_ops. repeat case_match; simplify_eq/=; elsewhere. Qed.

Lemma extract_group_elsewhere i :
  triple Elsewhere (extract_group env self i) (λ _, Elsewhere) Elsewhere.
Proof. intros w H. run_ops. repeat case_match; simplify_eq/=; elsewhere. Qed.

Lemma extract_step_elsewhere :
  triple Elsewhere (extract_step env self) (λ _, Elsewhere) Elsewhere.
Proof.
  unfold extract_step. eapply triple_bind; [apply triple_get_state|].
  intros st. case_decide; [|apply (triple_ret tt (λ _, Elsewhere))].
  eapply triple_bind.
  { apply (triple_for_each _ (λ _, Elsewhere)). intros. apply extract_group_elsewhere. }
  intros u w Hw. run_ops. repeat case_match; simplify_eq/=; elsewhere.
Qed.

Lemma verify_step_elsewhere :
  triple Elsewhere (verify_step env self) (λ _, Elsewhere) Elsewhere.
Proof. intros w H. run_ops. repeat case_match; simplify_eq/=; elsewhere. Qed.

Lemma run_elsewhere :
  triple Elsewhere (run env self) (λ _, Elsewhere) Elsewhere.
Proof.
  unfold run.
  eapply triple_bind; [apply count_step_elsewhere|intros ?].
  eapply triple_bind; [apply init_step_elsewhere|intros ?].
  eapply triple_bind; [apply extract_step_elsewhere|intros ?].
  apply verify_step_elsewhere.
Qed.

End OtherFiles.

(** ** Resuming *)

Lemma stored_load env path fs s :
  stored path fs s → read_fault env path = None →
  _load_state env path fs = Ok (state_to_json s).
Proof.
  intros [[Hnone ->]|[Hsome Hwf]] Hread.
  - unfold _load_state. by rewrite Hread, Hnone.
  - rewrite <- (insert_id fs path _ Hsome). by apply load_saved.
Qed.

(** [_load_state] looks at the file of the checkpoint only. *)
Lemma _load_state_same env path fs fs' :
  fs' !! path = fs !! path → _load_state env path fs' = _load_state env path fs.
Proof. intros H. unfold _load_state. by rewrite H. Qed.

Lemma makedirs_same env work_dir fs fs' :
  fs' !! work_dir = fs !! work_dir → makedirs env work_dir fs' = makedirs env work_dir fs.
Proof. intros H. unfold makedirs. by rewrite H. Qed.

Lemma makedirs_not_empty env work_dir fs :
  makedirs env work_dir fs = Ok tt → Json.is_empty work_dir = false.
Proof. unfold makedirs. by destruct (Json.is_empty work_dir). Qed.

Lemma wf_state_set_step v s : wf_state s → wf_state (set_step v s).
Proof. done. Qed.

Lemma wf_state_set_totals p g s :
  wf_state s → wf_state (set_total_groups g (set_total_pages p s)).
Proof. done. Qed.

Lemma wf_state_append seg g s :
  wf_json seg → wf_state s → wf_state (append_group g (append_segment seg s)).
Proof.
  intros Hseg Hs. unfold wf_state. cbn. apply Forall_app. split; [done|].
  by constructor.
Qed.

Section Stored.
Context (env : Collaborators) (self : ResilientPageIndexer) (st0 : State).
Context (Horderly : orderly env).

Let Keeps := keeps_stored (state_path self) st0.

Ltac stored_facts :=
  subst Keeps; unfold keeps_stored in *; cbn [mem disk trace] in *;
  repeat first
    [ assumption
    | match goal with
      | H : disk_fault env _ = WriteFailsAfter _ |- _ =>
          by destruct (proj2 Horderly _ _ H)
      | |- _ ∧ _ => split
      | |- stored _ _ (last_saved _ (_ ++ [mkEntry _ _ (Saved _)])) =>
          rewrite last_saved_snoc_saved; right; split; [apply lookup_insert_eq|]
      | |- stored _ _ (last_saved _ (_ ++ [_])) =>
          rewrite last_saved_snoc_other by (intros ?; discriminate)
      | |- wf_state (set_step _ _) => apply wf_state_set_step
      | |- wf_state (set_total_groups _ (set_total_pages _ _)) => apply wf_state_set_totals
      | H : generate_toc_continue env _ _ _ = Ok ?seg
        |- wf_state (append_group _ (append_segment ?seg _)) =>
          apply wf_state_append; [exact (proj1 Horderly _ _ _ _ H)|]
      end ].

Lemma count_step_stored : triple Keeps (count_step env self) (λ _, Keeps) Keeps.
Proof. intros w [HS HW]. run_ops. repeat case_match; simplify_eq/=; stored_facts. Qed.

Lemma init_step_stored : triple Keeps (init_step env self) (λ _, Keeps) Keeps.
Proof. intros w [HS HW]. run_ops. repeat case_match; simplify_eq/=; stored_facts. Qed.

Lemma extract_group_stored i :
  triple Keeps (extract_group env self i) (λ _, Keeps) Keeps.
Proof. intros w [HS HW]. run_ops. repeat case_match; simplify_eq/=; stored_facts. Qed.

Lemma extract_step_stored : triple Keeps (extract_step env self) (λ _, Keeps) Keeps.
Proof.
  unfold extract_step. eapply triple_bind; [apply triple_get_state|].
  intros st. case_decide; [|apply (triple_ret tt (λ _, Keeps))].
  eapply triple_bind.
  { apply (triple_for_each _ (λ _, Keeps)). intros. apply extract_group_stored. }
  intros u w [HS HW]. run_ops. repeat case_match; simplify_eq/=; stored_facts.
Qed.

Lemma verify_step_stored : triple Keeps (verify_step env self) (λ _, Keeps) Keeps.
Proof. intros w [HS HW]. run_ops. repeat case_match; simplify_eq/=; stored_facts. Qed.

Lemma run_stored : triple Keeps (run env self) (λ _, Keeps) Keeps.
Proof.
  unfold run.
  eapply triple_bind; [apply count_step_stored|intros ?].
  eapply triple_bind; [apply init_step_stored|intros ?].
  eapply triple_bind; [apply extract_step_stored|intros ?].
  apply verify_step_stored.
Qed.

End Stored.

Lemma stored_wf path fs s : stored path fs s → wf_state s.
Proof. intros [[_ ->]|[_ H]]; [constructor|done]. Qed.

(** An orderly run leaves on the disk the state it wrote last. *)
Lemma run_leaves_stored env self st fs :
  orderly env → stored (state_path self) fs st →
  stored (state_path self) (disk (run env self (mkWorld st fs [])).2)
         (last_saved st (trace (run env self (mkWorld st fs [])).2)).
Proof.
  intros Hord Hst.
  pose proof (run_stored env self st Hord (mkWorld st fs [])) as H. cbv zeta in H.
  assert (keeps_stored (state_path self) st (mkWorld st fs [])) as H0
    by (split; [done|by eapply stored_wf]).
  specialize (H H0).
  destruct (run env self (mkWorld st fs [])) as [[r|err] w']; by destruct H.
Qed.

Lemma last_saved_of st tr s : last (saved_states tr) = Some s → last_saved st tr = s.
Proof. unfold last_saved. by intros ->. Qed.

Lemma last_saved_none st tr : last (saved_states tr) = None → last_saved st tr = st.
Proof. unfold last_saved. by intros ->. Qed.

Section Left.
Context (env : Collaborators) (self : ResilientPageIndexer) (fs0 : FS).
Context (Horderly : orderly env).

Let Leaves := left_on_disk (state_path self) fs0.

Ltac left_facts :=
  subst Leaves; unfold left_on_disk in *; cbn [mem disk trace] in *;
  rewrite ?saved_states_snoc; cbn [event]; rewrite ?app_nil_r, ?last_snoc;
  repeat first
    [ assumption
    | match goal with
      | H : disk_fault env _ = WriteFailsAfter _ |- _ =>
          by destruct (proj2 Horderly _ _ H)
      | H : last (saved_states ?t) = _ |- context [last (saved_states ?t)] => rewrite H
      | |- _ ∧ _ => split
      | |- <[_ := _]> _ !! _ = Some _ => apply lookup_insert_eq
      | |- wf_state (set_step _ _) => apply wf_state_set_step
      | |- wf_state (set_total_groups _ (set_total_pages _ _)) => apply wf_state_set_totals
      | H : generate_toc_continue env _ _ _ = Ok ?seg
        |- wf_state (append_group _ (append_segment ?seg _)) =>
          apply wf_state_append; [exact (proj1 Horderly _ _ _ _ H)|]
      end ].

Lemma count_step_left : triple Leaves (count_step env self) (λ _, Leaves) Leaves.
Proof. intros w [HS HW]. run_ops. repeat case_match; simplify_eq/=; left_facts. Qed.

Lemma init_step_left : triple Leaves (init_step env self) (λ _, Leaves) Leaves.
Proof. intros w [HS HW]. run_ops. repeat case_match; simplify_eq/=; left_facts. Qed.

Lemma extract_group_left i :
  triple Leaves (extract_group env self i) (λ _, Leaves) Leaves.
Proof. intros w [HS HW]. run_ops. repeat case_match; simplify_eq/=; left_facts. Qed.

Lemma extract_step_left : triple Leaves (extract_step env self) (λ _, Leaves) Leaves.
Proof.
  unfold extract_step. eapply triple_bind; [apply triple_get_state|].
  intros st. case_decide; [|apply (triple_ret tt (λ _, Leaves))].
  eapply triple_bind.
  { apply (triple_for_each _ (λ _, Leaves)). intros. apply extract_group_left. }
  intros u w [HS HW]. run_ops. repeat case_match; simplify_eq/=; left_facts.
Qed.

Lemma verify_step_left : triple Leaves (verify_step env self) (λ _, Leaves) Leaves.
Proof. intros w [HS HW]. run_ops. repeat case_match; simplify_eq/=; left_facts. Qed.

Lemma run_left : triple Leaves (run env self) (λ _, Leaves) Leaves.
Proof.
  unfold run.
  eapply triple_bind; [apply count_step_left|intros ?].
  eapply triple_bind; [apply init_step_left|intros ?].
  eapply triple_bind; [apply extract_step_left|intros ?].
  apply verify_step_left.
Qed.

End Left.

(** An orderly run leaves in the checkpoint file the text of the state it
    wrote last, and the file as it was when it wrote nothing. *)
Lemma run_leaves_last env self st fs :
  orderly env → wf_state st →
  left_on_disk (state_path self) fs (run env self (mkWorld st fs [])).2.
Proof.
  intros Hord Hwf.
  pose proof (run_left env self fs Hord (mkWorld st fs [])) as H.
  assert (left_on_disk (state_path self) fs (mkWorld st fs [])) as H0 by (by split).
  specialize (H H0).
  by destruct (run env self (mkWorld st fs [])) as [[r|err] w'].
Qed.

Lemma run_other_files env self st fs q :
  q ≠ state_path self → disk (run env self (mkWorld st fs [])).2 !! q = fs !! q.
Proof.
  intros Hq.
  pose proof (run_elsewhere env self fs (mkWorld st fs [])) as H. cbv zeta in H.
  assert (same_elsewhere self fs (mkWorld st fs [])) as H0 by (by intros ? ?).
  specialize (H H0).
  destruct (run env self (mkWorld st fs [])) as [[r|err] w']; by apply H.
Qed.

(** C10.  An indexer that could be made names the document by the base
    name of [pdf_path] and keeps its checkpoint at
    [os.path.join(work_dir, name + "_state.json")], which is
    [work_dir/name_state.json] for a directory written without a final
    slash; its state is what [_load_state] gives for that file.  A run of
    it changes no other file, and leaves in that file the state it wrote
    last (no write breaking off half way).  An indexer then made in the
    same directory for any path with the same base name has the same
    checkpoint path and starts from that state: from the state the run
    wrote last, or, when it wrote none, from what the file held before.
    In particular what one of them saves is what the other then loads. *)
Theorem init_checkpoint_path env pdf o work_dir fs self state :
  __init__ env pdf o work_dir fs = Ok (self, state) →
  doc_name self = basename pdf ∧
  state_path self = path_join work_dir (basename pdf +:+ "_state.json") ∧
  (ends_with_slash work_dir = false →
   state_path self = work_dir +:+ "/" +:+ basename pdf +:+ "_state.json") ∧
  _load_state env (state_path self) fs = Ok state ∧
  (∀ st env1,
     as_state state = Some st → wf_state st → orderly env1 →
     let out := run env1 self (mkWorld st fs []) in
     (∀ q, q ≠ state_path self → disk out.2 !! q = fs !! q) ∧
     (∀ s, last (saved_states (trace out.2)) = Some s →
           disk out.2 !! state_path self = Some (checkpoint_text s)) ∧
     (∀ env2 pdf' o' self' state',
        basename pdf' = basename pdf →
        __init__ env2 pdf' o' work_dir (disk out.2) = Ok (self', state') →
        state_path self' = state_path self ∧
        (∀ s, last (saved_states (trace out.2)) = Some s → state' = state_to_json s) ∧
        (saved_states (trace out.2) = [] →
         _load_state env2 (state_path self) fs = Ok state'))) ∧
  (∀ env1 w env2 pdf' o' self' state',
     wf_state (mem w) → is_ok (_save_state env1 self w).1 →
     basename pdf' = basename pdf →
     __init__ env2 pdf' o' work_dir (disk (_save_state env1 self w).2)
     = Ok (self', state') →
     state_path self' = state_path self ∧ state' = state_to_json (mem w)).
Proof.
  unfold __init__. intros Hinit.
  destruct (makedirs env work_dir fs) as [[]|err] eqn:Hmade; [|done].
  destruct (_load_state env (path_join work_dir (basename pdf +:+ "_state.json")) fs)
    as [state0|err] eqn:Hload; [|done].
  injection Hinit as <- <-. cbn [doc_name state_path].
  set (path := path_join work_dir (basename pdf +:+ "_state.json")) in *.
  split_and!; [done|done| |done| |].
  - intros Hslash. unfold path, path_join.
    rewrite state_file_relative, Hslash, (makedirs_not_empty _ _ _ Hmade). done.
  - intros st env1 Hst Hwf Hord.
    set (out := run env1 (mkIndexer pdf o (basename pdf) path) (mkWorld st fs [])).
    pose proof (run_leaves_last env1
      (mkIndexer pdf o (basename pdf) path) st fs Hord Hwf) as [Hleft _].
    fold out in Hleft. cbn [state_path] in Hleft.
    split_and!.
    + intros q Hq. by apply (run_other_files env1 (mkIndexer pdf o (basename pdf) path)).
    + intros s Hs. rewrite Hs in Hleft. by destruct Hleft.
    + intros env2 pdf' o' self' state' Hbase Hinit'. rewrite Hbase in Hinit'.
      fold path in Hinit'.
      destruct (makedirs env2 work_dir (disk out.2)) as [[]|err]; [|done].
      destruct (_load_state env2 path (disk out.2)) as [state1|err] eqn:Hload'; [|done].
      injection Hinit' as <- <-. cbn [state_path].
      split_and!; [done| |].
      * intros s Hs. rewrite Hs in Hleft. destruct Hleft as [Hfile Hwfs].
        rewrite <- (insert_id (disk out.2) path _ Hfile) in Hload'.
        unfold _load_state in Hload'.
        destruct (read_fault env2 path) as [e|] eqn:Hread; [done|].
        assert (_load_state env2 path (<[path := checkpoint_text s]> (disk out.2))
                = Ok (state_to_json s)) as Hsaved by (by apply load_saved).
        unfold _load_state in Hsaved. rewrite Hread in Hsaved.
        rewrite Hsaved in Hload'. by injection Hload' as <-.
      * intros Hnone. rewrite Hnone in Hleft. cbn [last] in Hleft.
        by rewrite <- (_load_state_same env2 path fs (disk out.2) Hleft).
  - intros env1 w env2 pdf' o' self' state' Hwf Hsaved Hbase Hinit'.
    rewrite Hbase in Hinit'. fold path in Hinit'.
    destruct (makedirs env2 work_dir _) as [[]|err]; [|done].
    destruct (_load_state env2 path _) as [state1|err] eqn:Hload'; [|done].
    injection Hinit' as <- <-. cbn [state_path]. split; [done|].
    revert Hsaved Hload'. unfold _save_state, write_checkpoint. cbn [state_path].
    destruct (disk_fault env1 _); cbn [fst snd disk]; [|done|done].
    intros _ Hload'.
    destruct (read_fault env2 path) as [e|] eqn:Hread.
    { unfold _load_state in Hload'. by rewrite Hread in Hload'. }
    rewrite (load_saved env2 path (mem w) (disk w) Hwf Hread) in Hload'.
    by injection Hload' as <-.
Qed.

Lemma last_saved_cases st tr :
  last_saved st tr = st ∧ saved_states tr = [] ∨ last_saved st tr ∈ saved_states tr.
Proof.
  unfold last_saved. destruct (saved_states tr) as [|s l] using rev_ind; [by left|].
  right. rewrite last_snoc. cbn. apply elem_of_app. right. by left.
Qed.

Lemma sorted_join (s : State) (saved later : list State) :
  StronglySorted extends (s :: saved) →
  StronglySorted extends (default s (last saved) :: later) →
  StronglySorted extends (s :: saved ++ later).
Proof.
  revert s. induction saved as [|a saved IH]; intros s Hs Hl; [done|].
  apply StronglySorted_inv in Hs as [Hs Ha].
  assert (default s (last (a :: saved)) = default a (last saved)) as Hlast
    by (rewrite last_cons; by destruct (last saved)).
  rewrite Hlast in Hl. specialize (IH a Hs Hl).
  cbn [app]. constructor; [done|].
  apply Forall_cons in Ha as [Hsa Ha]. constructor; [done|].
  apply Forall_app. split; [done|].
  apply StronglySorted_inv in IH as [_ IHa].
  apply Forall_app in IHa as [_ IHa].
  eapply Forall_impl; [exact IHa|]. intros x Hx. by eapply extends_trans.
Qed.

(** Over a lifetime of orderly invocations the written states grow one
    into the next, and none has the phase [COMPLETED] unless the state on
    the disk at the start had it. *)
(** An invocation on a disk that holds [s] runs from [s], unless the
    indexer cannot be made. *)
Lemma invoke_stored env pdf o work_dir fs s :
  stored (path_join work_dir (basename pdf +:+ "_state.json")) fs s →
  (∃ e, invoke env pdf o work_dir fs = (Raise e, fs, [])) ∨
  invoke env pdf o work_dir fs =
  (let '(r, w') :=
     run env (mkIndexer pdf o (basename pdf)
                (path_join work_dir (basename pdf +:+ "_state.json")))
       (mkWorld s fs []) in
   (r, disk w', trace w')).
Proof.
  intros Hst. unfold invoke, __init__.
  destruct (makedirs env work_dir fs) as [[]|err]; [|left; by eexists].
  destruct (read_fault env (path_join work_dir (basename pdf +:+ "_state.json")))
    as [e|] eqn:Hread.
  - left. exists e. unfold _load_state. by rewrite Hread.
  - right. rewrite (stored_load _ _ _ _ Hst Hread).
    unfold run_loaded. by rewrite as_state_to_json.
Qed.

(** Over a lifetime of orderly invocations the written states grow one
    into the next, and none has the phase [COMPLETED] unless the state on
    the disk at the start had it. *)
Lemma lifetime_from envs pdf o work_dir :
  ∀ fs s,
    Forall orderly envs →
    stored (path_join work_dir (basename pdf +:+ "_state.json")) fs s →
    step s ≠ "COMPLETED" →
    StronglySorted extends (s :: (lifetime envs pdf o work_dir fs).1) ∧
    Forall (λ x, step x ≠ "COMPLETED") (lifetime envs pdf o work_dir fs).1.
Proof.
  induction envs as [|env envs IH]; intros fs s Hord Hst Hstep.
  { cbn. split; repeat constructor. }
  apply Forall_cons in Hord as [Henv Hord].
  cbn [lifetime].
  destruct (invoke_stored env pdf o work_dir fs s Hst) as [[e ->]| ->].
  { specialize (IH fs s Hord Hst Hstep).
    destruct (lifetime envs pdf o work_dir fs) as [later fs'']. exact IH. }
  set (self := mkIndexer pdf o (basename pdf)
                 (path_join work_dir (basename pdf +:+ "_state.json"))).
  pose proof (run_leaves_stored env self s fs Henv Hst) as Hleft.
  pose proof (run_saved_sorted env self s fs) as Hsorted.
  assert (Forall (λ x, step x ≠ "COMPLETED")
            (saved_states (trace (run env self (mkWorld s fs [])).2))) as Hnot.
  { apply Forall_forall. intros x Hx Hc.
    by apply Hstep, (run_never_writes_completed env self s fs x). }
  destruct (run env self (mkWorld s fs [])) as [r w']. cbn [snd] in *.
  assert (step (last_saved s (trace w')) ≠ "COMPLETED") as Hstep'.
  { destruct (last_saved_cases s (trace w')) as [[-> _]|Hin]; [done|].
    rewrite Forall_forall in Hnot. by apply Hnot. }
  specialize (IH (disk w') (last_saved s (trace w')) Hord Hleft Hstep').
  destruct (lifetime envs pdf o work_dir (disk w')) as [later fs''].
  cbn [fst] in *. destruct IH as [IHs IHn]. split.
  - by apply sorted_join.
  - apply Forall_app. by split.
Qed.

(** X2.  Resuming keeps the progress: from no checkpoint, over any number of
    orderly invocations for a document, every written state extends the
    ones written before, in this invocation or an earlier one; each has as
    many segments as completed groups; none has the phase [COMPLETED]. *)
Lemma lifetime_grows envs pdf o work_dir :
  Forall orderly envs →
  let saved := (lifetime envs pdf o work_dir ∅).1 in
  StronglySorted extends (default_state :: saved) ∧
  Forall balanced saved ∧
  Forall (λ s, step s ≠ "COMPLETED") saved.
Proof.
  intros Hord saved.
  destruct (lifetime_from envs pdf o work_dir ∅ default_state Hord) as [Hs Hn];
    [by left|done|].
  fold saved in Hs, Hn. split_and!; [done| |done].
  apply StronglySorted_inv in Hs as [_ Hall].
  eapply Forall_impl; [exact Hall|]. intros s (_ & _ & Hlen).
  unfold balanced. cbn in Hlen. lia.
Qed.

(** ** Invariants of the recorded progress *)

Section Kept.
Context (env : Collaborators) (self : ResilientPageIndexer).
Context (φ : State → Prop).
Context (φ_step : ∀ s v, φ s → φ (set_step v s)).
Context (φ_totals : ∀ s p g, φ s → φ (set_total_groups g (set_total_pages p s))).
Context (φ_append : ∀ s seg i,
  generate_toc_continue env (pdf_path self) (str i) (opt self) = Ok seg →
  str i ∉ completed_groups s →
  φ s → φ (append_group (str i) (append_segment seg s))).

Lemma count_step_kept :
  triple (always φ) (count_step env self) (λ _, always φ) (always_saved φ).
Proof.
  intros w [Hm Hs]. run_ops.
  repeat case_match; simplify_eq/=; always_facts; auto.
Qed.

Lemma init_step_kept :
  triple (always φ) (init_step env self) (λ _, always φ) (always_saved φ).
Proof.
  intros w [Hm Hs]. run_ops.
  repeat case_match; simplify_eq/=; always_facts; auto.
Qed.

Lemma extract_group_kept i :
  triple (always φ) (extract_group env self i) (λ _, always φ) (always_saved φ).
Proof.
  intros w [Hm Hs]. run_ops.
  repeat case_match; simplify_eq/=; always_facts; auto.
Qed.

Lemma extract_step_kept :
  triple (always φ) (extract_step env self) (λ _, always φ) (always_saved φ).
Proof.
  unfold extract_step. eapply triple_bind; [apply triple_get_state|].
  intros st. case_decide; [|apply (triple_ret tt (λ _, always φ))].
  eapply triple_bind.
  { apply (triple_for_each _ (λ _, always φ)). intros. apply extract_group_kept. }
  intros u w [Hm Hs]. run_ops.
  repeat case_match; simplify_eq/=; always_facts; auto.
Qed.

Lemma verify_step_kept :
  triple (always φ) (verify_step env self) (λ _, always φ) (always_saved φ).
Proof.
  intros w [Hm Hs]. run_ops.
  repeat case_match; simplify_eq/=; always_facts; auto.
Qed.

Lemma run_kept :
  triple (always φ) (run env self) (λ _, always φ) (always_saved φ).
Proof.
  unfold run.
  eapply triple_bind; [apply count_step_kept|intros ?].
  eapply triple_bind; [apply init_step_kept|intros ?].
  eapply triple_bind; [apply extract_step_kept|intros ?].
  apply verify_step_kept.
Qed.

(** What holds of the loaded state and is kept by every update holds of
    every state written and of [self.state] when [run] returns. *)
Lemma run_keeps st fs :
  φ st →
  Forall φ (saved_states (trace (run env self (mkWorld st fs [])).2)) ∧
  (is_ok (run env self (mkWorld st fs [])).1 →
   φ (mem (run env self (mkWorld st fs [])).2)).
Proof.
  intros Hst.
  pose proof (run_kept (mkWorld st fs [])) as H.
  assert (always φ (mkWorld st fs [])) as H0 by (split; [done|constructor]).
  specialize (H H0).
  destruct (run env self (mkWorld st fs [])) as [[r|err] w']; cbn.
  - destruct H as [Hm Hs]. by split.
  - by split.
Qed.

End Kept.

Lemma answered_refl env self st : answered env self st st.
Proof. exists [], []. rewrite !app_nil_r. split_and!; [done|done|constructor]. Qed.

(** X4.  In every state [run] writes, the groups added since the loaded
    state and the segments added since then correspond position by
    position: each added segment is what the extraction returned for the
    group at the same place. *)
Theorem run_pairs_segments_with_groups env self st fs :
  Forall (answered env self st)
         (saved_states (trace (run env self (mkWorld st fs [])).2)).
Proof.
  apply (run_keeps env self (answered env self st)); [done|done| |apply answered_refl].
  intros s seg i Hcall _ (new & ans & Hcg & Hsegs & Hall).
  exists (new ++ [str i]), (ans ++ [seg]). cbn. rewrite Hcg, Hsegs, !app_assoc.
  split_and!; [done|done|]. apply Forall2_app; [done|]. by repeat constructor.
Qed.

(** X5.  [run] records no group twice: when the completed groups of the
    loaded state are distinct, those of every written state are. *)
Theorem run_records_groups_once env self st fs :
  NoDup (completed_groups st) →
  Forall (λ s, NoDup (completed_groups s))
         (saved_states (trace (run env self (mkWorld st fs [])).2)).
Proof.
  intros Hnd.
  apply (run_keeps env self (λ s, NoDup (completed_groups s))); [done|done| |done].
  intros s seg i _ Hfresh Hs. cbn. apply NoDup_app. split_and!; [done| |apply NoDup_singleton].
  intros g Hg Hin. apply list_elem_of_singleton in Hin as ->. done.
Qed.

(** X6.  Once the page count is known ([total_pages] not 0), [run] leaves
    [total_pages] and [total_groups] as they are: every state it writes
    carries the loaded values. *)
Theorem run_keeps_totals env self st fs :
  total_pages st ≠ 0%Z →
  Forall (λ s, total_pages s = total_pages st ∧ total_groups s = total_groups st)
         (saved_states (trace (run env self (mkWorld st fs [])).2)).
Proof.
  intros Hp. unfold run. unfold bind at 1. rewrite count_step_skip by done.
  pose proof (after_count_always env self
    (λ s, total_pages s = total_pages st ∧ total_groups s = total_groups st)) as H.
  specialize (H ltac:(by intros) ltac:(by intros) (mkWorld st fs [])).
  assert (always (λ s, total_pages s = total_pages st ∧ total_groups s = total_groups st)
            (mkWorld st fs [])) as H0 by (split; [done|constructor]).
  specialize (H H0).
  destruct ((init_step env self;; extract_step env self;; verify_step env self)
              (mkWorld st fs [])) as [[r|err] w']; [exact (proj2 H)|exact H].
Qed.

(** ** The order of the calls *)

Lemma adds_bind {A B : Type} (S1 S2 : list Event → Prop) (m : M A) (k : A → M B) :
  adds S1 m → (∀ a, adds S2 (k a)) → S2 [] → adds (then_ S1 S2) (bind m k).
Proof.
  intros Hm Hk Hnil w. unfold bind.
  destruct (Hm w) as (d1 & H1 & HS1).
  destruct (m w) as [[a|e] w1]; cbn [snd] in *.
  - destruct (Hk a w1) as (d2 & H2 & HS2).
    exists (d1 ++ d2). split; [by rewrite H2, H1, app_assoc|]. by exists d1, d2.
  - exists d1. split; [done|]. exists d1, []. by rewrite app_nil_r.
Qed.

Lemma events_snoc tr m fs e : events (tr ++ [mkEntry m fs e]) = events tr ++ [e].
Proof. unfold events. by rewrite fmap_app. Qed.

Ltac added := repeat rewrite events_snoc; rewrite <- ?app_assoc; cbn [app].

Ltac extraction_events :=
  repeat match goal with
    | |- Forall _ [] => apply Forall_nil
    | |- Forall _ (_ :: _) => apply Forall_cons_2
    | |- True => exact I
    | |- _ ∨ _ => first [ by (left; exact I) | by (right; left) | by (right; right; eexists) ]
    end.

Lemma count_step_adds env self :
  adds (call_then_writes (CountPages (pdf_path self))) (count_step env self).
Proof.
  intros w. run_ops.
  repeat case_match; simplify_eq/=; cbn [snd trace];
    first [ exists []; split; [by rewrite app_nil_r|by left]
          | eexists; split; [added; reflexivity|right; eexists; split; [reflexivity|]];
            repeat constructor ].
Qed.

Lemma init_step_adds env self :
  adds (call_then_writes (CallInit (pdf_path self) (opt self))) (init_step env self).
Proof.
  intros w. run_ops.
  repeat case_match; simplify_eq/=; cbn [snd trace];
    first [ exists []; split; [by rewrite app_nil_r|by left]
          | eexists; split; [added; reflexivity|right; eexists; split; [reflexivity|]];
            repeat constructor ].
Qed.

Lemma verify_step_adds env self : adds (one_verify self) (verify_step env self).
Proof.
  intros w. run_ops.
  repeat case_match; simplify_eq/=; cbn [snd trace];
    first [ exists []; split; [by rewrite app_nil_r|by left]
          | eexists; split; [added; reflexivity|right; by eexists] ].
Qed.

Lemma extract_group_adds env self i :
  adds (Forall (extraction_event self)) (extract_group env self i).
Proof.
  intros w. run_ops. unfold extraction_event.
  repeat case_match; simplify_eq/=; cbn [snd trace];
    first [ exists []; split; [by rewrite app_nil_r|constructor]
          | eexists; split; [added; reflexivity|]; extraction_events ].
Qed.

Lemma for_each_adds (S : Event → Prop) (body : Z → M unit) l :
  (∀ i, adds (Forall S) (body i)) → adds (Forall S) (for_each l body).
Proof.
  intros Hbody. induction l as [|i l IH]; intros w.
  - exists []. split; [by rewrite app_nil_r|constructor].
  - cbn [for_each]. unfold bind.
    destruct (Hbody i w) as (d1 & H1 & HS1).
    destruct (body i w) as [[u|e] w1]; cbn [snd] in *; [|by exists d1].
    destruct (IH w1) as (d2 & H2 & HS2).
    exists (d1 ++ d2). split; [by rewrite H2, H1, app_assoc|].
    apply Forall_app. by split.
Qed.

Lemma extract_step_adds env self :
  adds (Forall (extraction_event self)) (extract_step env self).
Proof.
  intros w. unfold extract_step. unfold bind at 1. unfold get_state.
  case_decide; [|exists []; split; [by rewrite app_nil_r|constructor]].
  unfold bind at 1.
  destruct (for_each_adds (extraction_event self) (extract_group env self)
              (seqZ 1 (total_groups (mem w))) (extract_group_adds env self) w)
    as (d1 & H1 & HS1).
  destruct (for_each _ _ w) as [[u|e] w1]; cbn [snd] in *; [|by exists d1].
  run_ops. unfold extraction_event.
  repeat case_match; simplify_eq/=; cbn [snd trace];
    (eexists; split; [rewrite events_snoc, H1, <- app_assoc; reflexivity|]);
    (apply Forall_app; split; [done|]); extraction_events.
Qed.

(** X10.  In any run the events come in this order: at most one page
    count, followed by writes only; at most one call of the initial
    analysis, followed by writes only; then extractions, writes and pauses;
    then at most one verification call, after which nothing happens. *)
Theorem run_call_order env self w :
  ∃ d0 d1 d2 d3,
    events (trace (run env self w).2) = events (trace w) ++ d0 ++ d1 ++ d2 ++ d3 ∧
    call_then_writes (CountPages (pdf_path self)) d0 ∧
    call_then_writes (CallInit (pdf_path self) (opt self)) d1 ∧
    Forall (extraction_event self) d2 ∧
    one_verify self d3.
Proof.
  assert (adds (then_ (call_then_writes (CountPages (pdf_path self)))
                 (then_ (call_then_writes (CallInit (pdf_path self) (opt self)))
                    (then_ (Forall (extraction_event self)) (one_verify self))))
            (run env self)) as H.
  { unfold run.
    apply adds_bind; [apply count_step_adds| |].
    - intros _. apply adds_bind; [apply init_step_adds| |].
      + intros _. apply adds_bind; [apply extract_step_adds| |by left].
        intros _. apply verify_step_adds.
      + exists [], []. split_and!; [done|constructor|by left].
    - exists [], []. split_and!; [done|by left|].
      exists [], []. split_and!; [done|constructor|by left]. }
  destruct (H w) as (d & Hd & d0 & r0 & -> & H0 & d1 & r1 & -> & H1 & d2 & d3 & -> & H2 & H3).
  by exists d0, d1, d2, d3.
Qed.

(** X11.  A run resumed from a checkpoint past the initial analysis, with
    the page count known, repeats neither: all it does is extract, write,
    pause, and verify. *)
Theorem resumed_run_skips_setup env self st fs :
  total_pages st ≠ 0%Z → step st ≠ "INITIALIZE" →
  Forall (λ e, extraction_event self e ∨ ∃ segs, e = CallVerify segs (opt self))
         (events (trace (run env self (mkWorld st fs [])).2)).
Proof.
  intros Hp Hs. unfold run.
  unfold bind at 1. rewrite count_step_skip by done.
  unfold bind at 1. rewrite init_step_skip by done.
  pose proof (adds_bind _ _ _ _ (extract_step_adds env self)
                (λ _, verify_step_adds env self)
                (or_introl eq_refl : one_verify self []) (mkWorld st fs [])) as H.
  destruct H as (d & Hd & d2 & d3 & -> & H2 & H3). cbn in Hd. rewrite Hd.
  apply Forall_app. split.
  - apply (Forall_impl _ _ _ H2). intros e He. by left.
  - destruct H3 as [->|[segs ->]]; [constructor|].
    apply Forall_cons_2; [right; by exists segs|constructor].
Qed.

(** ** The phases, one step at a time *)

Lemma Sorted_snoc {A : Type} (R : A → A → Prop) (a : A) (l : list A) (x : A) :
  Sorted R (a :: l) → R (default a (last l)) x → Sorted R (a :: l ++ [x]).
Proof.
  revert a. induction l as [|b l IH]; intros a Hs Hx.
  - cbn in *. repeat constructor. done.
  - apply Sorted_inv in Hs as [Hs Hab].
    assert (default a (last (b :: l)) = default b (last l)) as Hlast
      by (rewrite last_cons; by destruct (last l)).
    rewrite Hlast in Hx. cbn [app]. constructor; [by apply IH|].
    inversion Hab; subst. by constructor.
Qed.

Lemma advancing_write st0 tr m fs (s : State) :
  Sorted phase_moves (st0 :: saved_states tr) →
  phase_step (step (last_saved st0 tr)) (step s) →
  Sorted phase_moves (st0 :: saved_states (tr ++ [mkEntry m fs (Saved s)])).
Proof.
  intros Hs Hstep. rewrite saved_states_snoc. by apply Sorted_snoc.
Qed.

Ltac phases :=
  unfold advancing, advancing_saved in *; cbn [mem disk trace] in *;
  repeat first
    [ assumption
    | rewrite growing_other by (intros ?; discriminate)
    | rewrite last_saved_snoc_saved
    | rewrite last_saved_snoc_other by (intros ?; discriminate)
    | match goal with
      | |- _ ∧ _ => split
      | |- Sorted _ (_ :: saved_states (_ ++ [mkEntry _ _ (Saved _)])) =>
          apply advancing_write; [|unfold phase_step; cbn [step set_step set_total_groups
            set_total_pages append_group append_segment]]
      | H : step ?m = step (last_saved _ _) |- context [step (last_saved _ _)] =>
          rewrite <- H
      | |- ?a = ?a ∨ _ => left; reflexivity
      | H : step ?m = ?v |- step ?m = _ ∨ _ => rewrite H
      | |- _ ∨ _ => by (right; left; split)
      | |- _ ∨ _ => by (right; right; split)
      | |- step _ = step _ => reflexivity
      end ].

Section Phases.
Context (env : Collaborators) (self : ResilientPageIndexer) (st0 : State).

Lemma count_step_advancing :
  triple (advancing st0) (count_step env self) (λ _, advancing st0) (advancing_saved st0).
Proof. intros w [HS HM]. run_ops. repeat case_match; simplify_eq/=; phases. Qed.

Lemma init_step_advancing :
  triple (advancing st0) (init_step env self) (λ _, advancing st0) (advancing_saved st0).
Proof. intros w [HS HM]. run_ops. repeat case_match; simplify_eq/=; phases. Qed.

Lemma extract_group_advancing i :
  triple (λ w, advancing st0 w ∧ step (mem w) = "EXTRACT_NODES")
         (extract_group env self i)
         (λ _ w, advancing st0 w ∧ step (mem w) = "EXTRACT_NODES")
         (advancing_saved st0).
Proof. intros w [[HS HM] HE]. run_ops. repeat case_match; simplify_eq/=; phases. Qed.

Lemma extract_step_advancing :
  triple (advancing st0) (extract_step env self) (λ _, advancing st0) (advancing_saved st0).
Proof.
  unfold extract_step. intros w Hw. unfold bind at 1. unfold get_state.
  case_decide as Hstep; [|exact Hw].
  eapply (triple_bind _ _ (λ w, advancing st0 w ∧ step (mem w) = "EXTRACT_NODES"));
    [| |by split].
  { apply (triple_for_each _
             (λ _ w, advancing st0 w ∧ step (mem w) = "EXTRACT_NODES")).
    intros. apply extract_group_advancing. }
  intros u w1 [[HS HM] HE]. run_ops. repeat case_match; simplify_eq/=; phases.
Qed.

Lemma verify_step_advancing :
  triple (advancing st0) (verify_step env self) (λ _, advancing st0) (advancing_saved st0).
Proof. intros w [HS HM]. run_ops. repeat case_match; simplify_eq/=; phases. Qed.

End Phases.

(** X3.  The phases [run] writes never go back and never skip: from the
    loaded state on, each written state is in the phase of the one before
    or one step further along [INITIALIZE], [EXTRACT_NODES], [VERIFY]. *)
Theorem run_phases_step_forward env self st fs :
  Sorted phase_moves
    (st :: saved_states (trace (run env self (mkWorld st fs [])).2)).
Proof.
  assert (triple (advancing st) (run env self) (λ _, advancing st) (advancing_saved st)) as H.
  { unfold run.
    eapply triple_bind; [apply count_step_advancing|intros ?].
    eapply triple_bind; [apply init_step_advancing|intros ?].
    eapply triple_bind; [apply extract_step_advancing|intros ?].
    apply verify_step_advancing. }
  assert (advancing st (mkWorld st fs [])) as H0 by (split; [repeat constructor|done]).
  specialize (H _ H0).
  destruct (run env self (mkWorld st fs [])) as [[r|err] w']; [by destruct H|done].
Qed.

(** ** Leaving the extraction phase *)

Lemma triple_conj {A : Type} (m : M A) (P1 P2 : World → Prop)
    (Q1 Q2 : A → World → Prop) (E1 E2 : World → Prop) :
  triple P1 m Q1 E1 → triple P2 m Q2 E2 →
  triple (λ w, P1 w ∧ P2 w) m (λ a w, Q1 a w ∧ Q2 a w) (λ w, E1 w ∧ E2 w).
Proof.
  intros H1 H2 w [Hw1 Hw2]. specialize (H1 w Hw1). specialize (H2 w Hw2).
  by destruct (m w) as [[a|e] w1].
Qed.

Lemma complete_todo (s : State) cg0 :
  completed_groups s = cg0 ++ todo cg0 (seqZ 1 (total_groups s)) → complete s.
Proof.
  intros Hcg i Hi. rewrite Hcg, elem_of_app.
  destruct (decide (str i ∈ cg0)) as [?|Hni]; [by left|right].
  unfold todo. apply list_elem_of_filter. split; [done|].
  apply list_elem_of_fmap. exists i. split; [done|]. apply elem_of_seqZ. lia.
Qed.

Section Complete.
Context (env : Collaborators) (self : ResilientPageIndexer).

Let Before (w : World) : Prop :=
  always verify_means_complete w ∧ step (mem w) ≠ "VERIFY".

Let Saved := always_saved verify_means_complete.

Ltac vacuous :=
  subst Before Saved; unfold verify_means_complete in *; always_facts;
  try (cbn; congruence).

Lemma count_step_before : triple Before (count_step env self) (λ _, Before) Saved.
Proof. intros w [[Hm Hs] Hn]. run_ops. repeat case_match; simplify_eq/=; vacuous. Qed.

Lemma init_step_before : triple Before (init_step env self) (λ _, Before) Saved.
Proof. intros w [[Hm Hs] Hn]. run_ops. repeat case_match; simplify_eq/=; vacuous. Qed.

Lemma extract_group_extracting i n :
  triple (λ w, always verify_means_complete w ∧
               step (mem w) = "EXTRACT_NODES" ∧ total_groups (mem w) = n)
         (extract_group env self i)
         (λ _ w, always verify_means_complete w ∧
                 step (mem w) = "EXTRACT_NODES" ∧ total_groups (mem w) = n)
         Saved.
Proof.
  intros w ([Hm Hs] & He & Hn). run_ops. repeat case_match; simplify_eq/=; vacuous.
Qed.

Lemma extract_step_complete :
  triple (always verify_means_complete) (extract_step env self)
         (λ _, always verify_means_complete) Saved.
Proof.
  intros w Hw. unfold extract_step. unfold bind at 1. unfold get_state.
  case_decide as Hstep; [|exact Hw].
  set (n := total_groups (mem w)). set (cg0 := completed_groups (mem w)).
  pose proof (triple_conj _ _ _ _ _ _ _
    (triple_for_each _ (λ _ w, always verify_means_complete w ∧
                               step (mem w) = "EXTRACT_NODES" ∧ total_groups (mem w) = n)
       Saved (seqZ 1 n) (λ _ i _ _, extract_group_extracting i n))
    (for_each_calls env self cg0 (extract_calls (trace w)) (seqZ 1 n) (NoDup_seqZ 1 n))
    w) as Hloop.
  cbv beta in Hloop. unfold bind at 1.
  destruct (for_each (seqZ 1 n) (extract_group env self) w) as [[u|err] w1].
  2:{ apply Hloop. split; [by split_and!|]. split; unfold todo; cbn; by rewrite app_nil_r. }
  destruct Hloop as [([Hm Hs] & He & Hn) [Hcg _]].
  { split; [by split_and!|]. split; unfold todo; cbn; by rewrite app_nil_r. }
  assert (complete (set_step "VERIFY" (mem w1))) as Hc.
  { apply (complete_todo _ cg0). cbn. by rewrite Hn. }
  run_ops. repeat case_match; simplify_eq/=; subst Saved; always_facts; by intros _.
Qed.

Lemma verify_step_complete :
  triple (always verify_means_complete) (verify_step env self)
         (λ _, always verify_means_complete) Saved.
Proof.
  intros w [Hm Hs]. run_ops. repeat case_match; simplify_eq/=; subst Saved; always_facts.
Qed.

Lemma run_complete :
  triple Before (run env self) (λ _, always verify_means_complete) Saved.
Proof.
  unfold run.
  eapply triple_bind; [apply count_step_before|intros ?].
  eapply triple_bind; [apply init_step_before|intros ?].
  eapply triple_bind.
  { eapply triple_weaken; [apply extract_step_complete|by intros ? [? _]|done|done]. }
  intros ?. apply verify_step_complete.
Qed.

End Complete.

(** X7.  [run] enters the phase [VERIFY] only with every group done: in a
    run that starts before that phase, every written state with the phase
    [VERIFY] has each group of [1..total_groups] among its completed
    groups. *)
Theorem run_verifies_only_when_complete env self st fs :
  step st ≠ "VERIFY" →
  Forall verify_means_complete
         (saved_states (trace (run env self (mkWorld st fs [])).2)).
Proof.
  intros Hstep.
  pose proof (run_complete env self (mkWorld st fs [])) as H. cbv zeta in H.
  assert (always verify_means_complete (mkWorld st fs []) ∧ step st ≠ "VERIFY") as H0.
  { split; [|done]. split; [by intros ?|constructor]. }
  specialize (H H0).
  destruct (run env self (mkWorld st fs [])) as [[r|err] w']; [exact (proj2 H)|exact H].
Qed.

(** ** A run in which nothing fails *)

Lemma answers_app env self a b :
  answers env self (a ++ b) = answers env self a ++ answers env self b.
Proof. unfold answers. by rewrite omap_app. Qed.

Lemma answers_length env self gs :
  (∀ g, g ∈ gs → is_ok (generate_toc_continue env (pdf_path self) g (opt self))) →
  length (answers env self gs) = length gs.
Proof.
  induction gs as [|g gs IH]; intros Hok; [done|].
  change (g :: gs) with ([g] ++ gs) at 1. rewrite answers_app, length_app, IH.
  - cbn. specialize (Hok g ltac:(left)).
    by destruct (generate_toc_continue env (pdf_path self) g (opt self)).
  - intros g' Hg'. apply Hok. by right.
Qed.

Section Smooth.
Context (env : Collaborators) (self : ResilientPageIndexer) (st0 : State).
Context (l : list Z).

Lemma extract_group_done done i rest :
  NoDup l → l = done ++ i :: rest →
  triple (loop_done env self st0 done) (extract_group env self i)
         (λ _, loop_done env self st0 (done ++ [i]))
         (λ _, ¬ smooth env self (completed_groups st0) l).
Proof.
  intros Hnd Hl w Hw. unfold loop_done in *.
  set (cg0 := completed_groups st0) in *.
  assert (i ∉ done) as Hfresh.
  { rewrite Hl in Hnd. apply NoDup_app in Hnd as (_ & Hnd & _).
    intros Hin. apply (Hnd i Hin). left. }
  assert (str i ∈ completed_groups (mem w) ↔ str i ∈ cg0) as Hmem.
  { rewrite Hw. cbn. rewrite elem_of_app. split; [|by left].
    intros [?|Hin]; [done|].
    apply todo_elem in Hin as (_ & j & Hj & Heq).
    apply str_inj in Heq as ->. done. }
  assert (str i ∉ cg0 → str i ∈ todo cg0 l) as Hin.
  { intros Hni. rewrite Hl, todo_split, decide_False by done.
    rewrite !elem_of_app. right. left. apply list_elem_of_singleton. done. }
  run_ops.
  destruct (decide (str i ∈ completed_groups (mem w))) as [Hd|Hd]; cbn [mem trace].
  { rewrite todo_snoc, decide_True by tauto. by rewrite app_nil_r. }
  rewrite Hmem in Hd.
  destruct (generate_toc_continue env (pdf_path self) (str i) (opt self)) as [seg|err] eqn:Hcall;
    cbn [mem trace disk].
  2:{ intros [Hs _]. specialize (Hs _ (Hin Hd)). by rewrite Hcall in Hs. }
  destruct (disk_fault env _) eqn:Hfault; cbn [mem trace disk].
  - rewrite Hw. unfold append_group, append_segment. cbn.
    rewrite todo_snoc, decide_False by done.
    rewrite answers_app, !app_assoc. do 2 f_equal.
    unfold answers. cbn. by rewrite Hcall.
  - intros [_ Hs]. by rewrite Hs in Hfault.
  - intros [_ Hs]. by rewrite Hs in Hfault.
Qed.

Lemma for_each_done :
  NoDup l →
  triple (loop_done env self st0 []) (for_each l (extract_group env self))
         (λ _, loop_done env self st0 l)
         (λ _, ¬ smooth env self (completed_groups st0) l).
Proof.
  intros Hnd. apply (triple_for_each _ (loop_done env self st0)).
  intros. by eapply extract_group_done.
Qed.

End Smooth.

(** A run from the extraction phase in which nothing fails: the loop is
    gone through, the phase [VERIFY] is written, and the verification is
    what remains. *)
Lemma run_smooth_loop env self st fs :
  step st = "EXTRACT_NODES" → total_pages st ≠ 0%Z →
  smooth env self (completed_groups st) (seqZ 1 (total_groups st)) →
  ∃ w1, run env self (mkWorld st fs []) =
        verify_step env self
          (written (state_path self)
             (mkWorld (set_step "VERIFY" (mem w1)) (disk w1) (trace w1))) ∧
        loop_done env self st (seqZ 1 (total_groups st)) w1.
Proof.
  intros Hstep Hpages Hsmooth.
  unfold run. unfold bind at 1. rewrite count_step_skip by done.
  unfold bind at 1. rewrite init_step_skip by (cbn; by rewrite Hstep).
  unfold bind at 1. unfold extract_step. unfold bind at 1. unfold get_state.
  cbn [mem]. rewrite decide_True by done.
  pose proof (for_each_done env self st (seqZ 1 (total_groups st))
                (NoDup_seqZ 1 _) (mkWorld st fs [])) as Hloop.
  unfold bind at 1.
  destruct (for_each _ _ (mkWorld st fs [])) as [[u|err] w1].
  2:{ exfalso. apply Hloop; [|done]. unfold loop_done, todo. cbn.
      rewrite !app_nil_r. by destruct st. }
  exists w1. split.
  - unfold bind at 1. unfold modify. cbv beta iota.
    rewrite _save_state_ok by apply Hsmooth. reflexivity.
  - apply Hloop. unfold loop_done, todo. cbn. rewrite !app_nil_r. by destruct st.
Qed.

(** X8.  From a checkpoint in the extraction phase, when every pending
    extraction succeeds and every write completes, [run] leaves
    [self.state] and the checkpoint file with the phase [VERIFY], the
    completed groups followed by the pending ones in ascending order, and
    the segments followed by the segments returned for them in the same
    order, one per group; it returns what the verification returns on those
    segments. *)
Theorem run_finishes_extraction env self st fs :
  step st = "EXTRACT_NODES" → total_pages st ≠ 0%Z →
  smooth env self (completed_groups st) (seqZ 1 (total_groups st)) →
  let out := run env self (mkWorld st fs []) in
  let pending := todo (completed_groups st) (seqZ 1 (total_groups st)) in
  let segments := toc_segments st ++ answers env self pending in
  mem out.2 =
    mkState "VERIFY" (completed_groups st ++ pending) segments
      (total_groups st) (total_pages st) ∧
  length (answers env self pending) = length pending ∧
  disk out.2 !! state_path self = Some (checkpoint_text (mem out.2)) ∧
  out.1 = returned (verify_toc env segments (opt self)).
Proof.
  intros Hstep Hpages Hsmooth out pending segments.
  destruct (run_smooth_loop env self st fs Hstep Hpages Hsmooth) as (w1 & Hout & Hw1).
  fold out in Hout.
  unfold loop_done in Hw1. fold pending in Hw1.
  rewrite Hout, verify_step_at by (by left).
  cbn [fst snd mem disk written]. rewrite Hw1. cbn [set_step toc_segments step
    completed_groups total_groups total_pages].
  split_and!; [done| |by rewrite lookup_insert_eq|done].
  apply answers_length. apply Hsmooth.
Qed.

Lemma todo_nil l : todo [] l = str <$> l.
Proof.
  unfold todo. induction l as [|i l IH]; [done|].
  rewrite fmap_cons, filter_cons_True by apply not_elem_of_nil. by rewrite IH.
Qed.

(** X9.  A first run in which nothing fails: for a document of [p] pages
    giving [n] groups, [run] ends with the phase [VERIFY], the groups
    [1..n] in ascending order, one segment per group in the same order and
    the totals, all written to the checkpoint file; it returns what the
    verification returns on those segments. *)
Theorem first_run_end_to_end env self fs p n :
  get_number_of_pages env (pdf_path self) = Ok p →
  ceil_of_quotient p (max_page_num_each_node (opt self)) = Ok n →
  p ≠ 0%Z →
  is_ok (generate_toc_init env (pdf_path self) (opt self)) →
  (∀ i, (1 ≤ i ≤ n)%Z →
        is_ok (generate_toc_continue env (pdf_path self) (str i) (opt self))) →
  (∀ k, disk_fault env k = NoFault) →
  let out := run env self (mkWorld default_state fs []) in
  let groups := str <$> seqZ 1 n in
  mem out.2 = mkState "VERIFY" groups (answers env self groups) n p ∧
  length (answers env self groups) = length groups ∧
  disk out.2 !! state_path self = Some (checkpoint_text (mem out.2)) ∧
  out.1 = returned (verify_toc env (answers env self groups) (opt self)).
Proof.
  intros Hp Hn Hp0 Hinit Hext Hdisk out groups.
  destruct (generate_toc_init env (pdf_path self) (opt self)) as [v|err] eqn:Hi; [|done].
  set (st1 := mkState "EXTRACT_NODES" [] [] n p).
  assert (smooth env self (completed_groups st1) (seqZ 1 (total_groups st1))) as Hsmooth.
  { split; [|done]. intros g Hg. apply todo_elem in Hg as (_ & i & Hi' & ->).
    apply Hext. apply elem_of_seqZ in Hi'. cbn in Hi'. lia. }
  assert (∃ W, mem W = st1 ∧
               out = (extract_step env self;; verify_step env self) W) as (W & HW & Hout).
  { eexists. split; [|unfold out, run].
    2:{ unfold bind at 1.
        rewrite (count_step_counts env self (mkWorld default_state fs []) p n eq_refl Hp Hn).
        rewrite _save_state_ok by apply Hdisk. cbv beta iota.
        unfold bind at 1. rewrite (init_step_calls _ _ _ v) by done.
        rewrite _save_state_ok by apply Hdisk. cbv beta iota. reflexivity. }
    reflexivity. }
  (* the rest of the run is the run of a checkpoint in the extraction phase *)
  assert (∀ w, mem w = st1 →
               ∃ w1, (extract_step env self;; verify_step env self) w =
                     verify_step env self
                       (written (state_path self)
                          (mkWorld (set_step "VERIFY" (mem w1)) (disk w1) (trace w1))) ∧
                     loop_done env self st1 (seqZ 1 n) w1) as Hrest.
  { intros w Hw. unfold bind at 1. unfold extract_step. unfold bind at 1.
    unfold get_state. rewrite Hw. cbn [step st1 total_groups].
    rewrite decide_True by done.
    pose proof (for_each_done env self st1 (seqZ 1 n) (NoDup_seqZ 1 _) w) as Hloop.
    unfold bind at 1.
    destruct (for_each _ _ w) as [[u|err] w1].
    2:{ exfalso. apply Hloop; [|done]. unfold loop_done, todo. cbn. by rewrite Hw. }
    exists w1. split.
    - unfold bind at 1. unfold modify. cbv beta iota.
      rewrite _save_state_ok by apply Hdisk. reflexivity.
    - apply Hloop. unfold loop_done, todo. cbn. by rewrite Hw. }
  destruct (Hrest W HW) as (w1 & Hrun & Hw1).
  unfold loop_done in Hw1. cbn [st1 completed_groups toc_segments step total_groups
    total_pages app] in Hw1. rewrite todo_nil in Hw1. fold groups in Hw1.
  rewrite Hout, Hrun, verify_step_at by (by left).
  cbn [fst snd mem disk written]. rewrite Hw1.
  cbn [set_step toc_segments step completed_groups total_groups total_pages].
  split_and!; [done| |by rewrite lookup_insert_eq|done].
  apply answers_length. intros g Hg. apply list_elem_of_fmap in Hg as (i & -> & Hi').
  apply Hext. apply elem_of_seqZ in Hi'. lia.
Qed.

(** ** One checkpoint per base name *)

Lemma sapp_inj_l (p a b : string) : p +:+ a = p +:+ b → a = b.
Proof.
  induction p as [|c p IH]; [by rewrite !sapp_nil_l|].
  rewrite !sapp_cons. intros H. injection H as H. by apply IH.
Qed.

Lemma sapp_inj_r (s a b : string) : a +:+ s = b +:+ s → a = b.
Proof.
  revert b. induction a as [|c a IH]; intros [|d b] H.
  - done.
  - apply (f_equal String.length) in H. rewrite sapp_nil_l, slength_app in H.
    cbn in H. lia.
  - apply (f_equal String.length) in H. rewrite sapp_nil_l, slength_app in H.
    cbn in H. lia.
  - rewrite !sapp_cons in H. injection H as -> H. f_equal. by apply IH.
Qed.

Lemma path_join_relative work_dir name :
  starts_with_slash name = false →
  path_join work_dir name = join_prefix work_dir +:+ name.
Proof.
  intros H. unfold path_join, join_prefix. rewrite H.
  destruct (Json.is_empty work_dir || ends_with_slash work_dir); [done|].
  by rewrite sapp_assoc.
Qed.

(** X13.  Two indexers working in the same directory share their
    checkpoint file exactly when their documents have the same base name. *)
Theorem checkpoint_shared_iff env pdf o fs self state env' pdf' o' fs' self' state'
    work_dir :
  __init__ env pdf o work_dir fs = Ok (self, state) →
  __init__ env' pdf' o' work_dir fs' = Ok (self', state') →
  state_path self = state_path self' ↔ basename pdf = basename pdf'.
Proof.
  unfold __init__. intros H H'.
  destruct (makedirs env work_dir fs) as [[]|?]; [|done].
  destruct (_load_state env (path_join work_dir (basename pdf +:+ "_state.json")) fs);
    [|done].
  destruct (makedirs env' work_dir fs') as [[]|?]; [|done].
  destruct (_load_state env' (path_join work_dir (basename pdf' +:+ "_state.json")) fs');
    [|done].
  injection H as <- _. injection H' as <- _. cbn [state_path].
  rewrite !path_join_relative by apply state_file_relative.
  split; [|by intros ->].
  intros Heq. by apply sapp_inj_l, sapp_inj_r in Heq.
Qed.

(** ** Resuming from what was written last *)

(** The checkpoint is a file in the directory, never the directory. *)
Lemma work_dir_not_checkpoint work_dir pdf :
  work_dir ≠ path_join work_dir (basename pdf +:+ "_state.json").
Proof.
  rewrite path_join_relative by apply state_file_relative.
  intros Heq. apply (f_equal String.length) in Heq.
  rewrite !slength_app in Heq. unfold join_prefix in Heq.
  destruct (Json.is_empty work_dir || ends_with_slash work_dir);
    rewrite ?slength_app in Heq; cbn in Heq; lia.
Qed.

(** X1.  After a run in which no write breaks off half way, however it
    ends, the next indexer made for a document of the same base name, where
    the host lets it be made (the directory can be made, the checkpoint
    read), starts from the state written last (from the state the run
    started from when it wrote nothing), on the disk the run left. *)
Theorem next_invocation_resumes env env' pdf o work_dir fs st pdf' o' :
  orderly env →
  stored (path_join work_dir (basename pdf +:+ "_state.json")) fs st →
  basename pdf' = basename pdf →
  makedirs env work_dir fs = Ok tt →
  read_fault env (path_join work_dir (basename pdf +:+ "_state.json")) = None →
  makedirs env' work_dir fs = Ok tt →
  read_fault env' (path_join work_dir (basename pdf +:+ "_state.json")) = None →
  ∃ self, __init__ env pdf o work_dir fs = Ok (self, state_to_json st) ∧
    let out := run env self (mkWorld st fs []) in
    ∃ self', __init__ env' pdf' o' work_dir (disk out.2)
             = Ok (self', state_to_json (last_saved st (trace out.2))) ∧
             state_path self' = state_path self.
Proof.
  intros Hord Hst Hbase Hmade Hread Hmade' Hread'.
  set (path := path_join work_dir (basename pdf +:+ "_state.json")) in *.
  exists (mkIndexer pdf o (basename pdf) path). split.
  { unfold __init__. fold path. by rewrite Hmade, (stored_load _ _ _ _ Hst Hread). }
  intros out.
  pose proof (run_leaves_stored env (mkIndexer pdf o (basename pdf) path) st fs Hord Hst)
    as Hleft. fold out in Hleft. cbn [state_path] in Hleft.
  exists (mkIndexer pdf' o' (basename pdf') path). split; [|done].
  unfold __init__. rewrite Hbase. fold path.
  rewrite (makedirs_same env' work_dir fs (disk out.2)), Hmade'.
  - by rewrite (stored_load _ _ _ _ Hleft Hread').
  - apply (run_other_files env (mkIndexer pdf o (basename pdf) path)).
    apply work_dir_not_checkpoint.
Qed.

(** ** A group size of zero *)

Lemma count_step_zero_group_size env self w p :
  total_pages (mem w) = 0%Z →
  get_number_of_pages env (pdf_path self) = Ok p →
  max_page_num_each_node (opt self) = 0%Z →
  count_step env self w =
  (Raise ZeroDivisionError,
   mkWorld (set_total_pages p (mem w)) (disk w)
     (trace w ++ [mkEntry (mem w) (disk w) (CountPages (pdf_path self))])).
Proof.
  intros Hst Hp Hmax. unfold count_step.
  unfold bind at 1. unfold get_state at 1. cbv beta iota.
  rewrite decide_True by done.
  unfold perform, emit, lift, modify, bind. rewrite Hp, Hmax.
  reflexivity.
Qed.

(** X12.  With [max_page_num_each_node] 0, a run that has the pages still
    to count raises [ZeroDivisionError] right after counting them: the page
    count is its only call, nothing is written, and the disk is left as it
    was. *)
Theorem run_zero_group_size env self st fs p :
  total_pages st = 0%Z →
  get_number_of_pages env (pdf_path self) = Ok p →
  max_page_num_each_node (opt self) = 0%Z →
  let out := run env self (mkWorld st fs []) in
  out.1 = Raise ZeroDivisionError ∧
  event <$> trace out.2 = [CountPages (pdf_path self)] ∧
  disk out.2 = fs ∧
  mem out.2 = set_total_pages p st.
Proof.
  intros Hst Hp Hmax out.
  assert (out = (Raise ZeroDivisionError,
                 mkWorld (set_total_pages p st) fs
                   [mkEntry st fs (CountPages (pdf_path self))])) as ->.
  { unfold out, run. unfold bind at 1.
    by rewrite (count_step_zero_group_size env self (mkWorld st fs []) p Hst Hp Hmax). }
  by split_and!.
Qed.

(** ** The command line *)

(** With indent 4 this is the encoder of the checkpoint. *)
Lemma encode_indent_4 level j : encode_indent 4 level j = Json.encode level j.
Proof. reflexivity. Qed.

Lemma checkpoint_of_prefix pdf :
  checkpoint_of pdf = "./tmp/" +:+ basename pdf +:+ "_state.json".
Proof.
  unfold checkpoint_of. by rewrite path_join_relative by apply state_file_relative.
Qed.

Lemma output_file_not_checkpoint pdf pdf' : output_file pdf ≠ checkpoint_of pdf'.
Proof.
  rewrite checkpoint_of_prefix. unfold output_file. flat. discriminate.
Qed.

Lemma work_dir_not_checkpoint_of pdf : default_work_dir ≠ checkpoint_of pdf.
Proof. apply work_dir_not_checkpoint. Qed.

Lemma work_dir_not_output pdf : default_work_dir ≠ output_file pdf.
Proof. unfold output_file, default_work_dir. flat. discriminate. Qed.

Lemma init_made env pdf o fs state :
  makedirs env default_work_dir fs = Ok tt →
  _load_state env (checkpoint_of pdf) fs = Ok state →
  __init__ env pdf o default_work_dir fs
  = Ok (mkIndexer pdf o (basename pdf) (checkpoint_of pdf), state).
Proof. intros Hm Hl. unfold __init__. fold (checkpoint_of pdf). by rewrite Hm, Hl. Qed.

Lemma init_cases env pdf o fs :
  (∃ e, __init__ env pdf o default_work_dir fs = Raise e) ∨
  (∃ state, __init__ env pdf o default_work_dir fs
            = Ok (mkIndexer pdf o (basename pdf) (checkpoint_of pdf), state)).
Proof.
  unfold __init__. fold (checkpoint_of pdf).
  destruct (makedirs env default_work_dir fs) as [[]|e]; [|left; by eexists].
  destruct (_load_state env (checkpoint_of pdf) fs) as [state|e];
    [right|left]; by eexists.
Qed.

Lemma run_loaded_state env self st fs :
  run_loaded env self (state_to_json st) fs =
  (let '(r, w') := run env self (mkWorld st fs []) in (r, disk w', trace w')).
Proof. unfold run_loaded. by rewrite as_state_to_json. Qed.

Lemma write_text_raises path fault text fs e fs' :
  write_text path fault text fs = (Raise e, fs') → e = OSError.
Proof. unfold write_text. destruct fault; by intros [= <- _]. Qed.

Lemma stored_same path fs fs' s :
  fs' !! path = fs !! path → stored path fs s → stored path fs' s.
Proof. unfold stored. intros ->. done. Qed.

Lemma write_text_other path fault text fs q :
  q ≠ path → (write_text path fault text fs).2 !! q = fs !! q.
Proof.
  intros Hq. unfold write_text. destruct fault; cbn; by rewrite ?lookup_insert_ne.
Qed.

Lemma run_loaded_other_files env self state fs q :
  q ≠ state_path self → (run_loaded env self state fs).1.2 !! q = fs !! q.
Proof.
  intros Hq. unfold run_loaded. destruct (as_state state) as [st|].
  - pose proof (run_other_files env self st fs q Hq) as H.
    by destruct (run env self (mkWorld st fs [])) as [r w'].
  - destruct (foreign_run env self state fs) as [[r [t|]] tr]; cbn [fst snd]; [|done].
    by rewrite lookup_insert_ne.
Qed.

(** A run from a state in one of the last two phases, the pages counted:
    the verification is its only step. *)
Lemma run_at_verify env self st fs :
  step st = "VERIFY" ∨ step st = "COMPLETED" → total_pages st ≠ 0%Z →
  run env self (mkWorld st fs []) =
  (returned (verify_toc env (toc_segments st) (opt self)),
   mkWorld st fs [mkEntry st fs (CallVerify (toc_segments st) (opt self))]).
Proof.
  intros Hs Hp. unfold run.
  unfold bind at 1. rewrite count_step_skip by done.
  unfold bind at 1. rewrite init_step_skip by (cbn; destruct Hs as [-> | ->]; done).
  unfold bind at 1. rewrite extract_step_skip by (cbn; destruct Hs as [-> | ->]; done).
  by rewrite verify_step_at.
Qed.

Lemma triple_any {A : Type} (m : M A) (P : World → Prop) :
  triple P m (λ _ _, True) (λ _, True).
Proof. intros w _. by destruct (m w) as [[a|e] w']. Qed.

(** When [run] returns a structure, [self.state] is in one of the last two
    phases. *)
Lemma run_returns_at_verify env self :
  triple (λ _, True) (run env self)
    (λ r w, is_Some r → step (mem w) = "VERIFY" ∨ step (mem w) = "COMPLETED")
    (λ _, True).
Proof.
  unfold run.
  eapply triple_bind; [apply triple_any|intros ?].
  eapply triple_bind; [apply triple_any|intros ?].
  eapply triple_bind; [apply triple_any|intros ?].
  intros w _. run_ops.
  repeat case_match; simplify_eq/=; try done; try (intros _; tauto).
Qed.

(** When [run] returns, [self.state] is the state written last. *)
Lemma run_returns_saved env self st fs r w' :
  run env self (mkWorld st fs []) = (Ok r, w') → mem w' = last_saved st (trace w').
Proof.
  intros Hrun.
  pose proof (run_synced env self st fs (mkWorld st fs [])) as H.
  rewrite Hrun in H. apply H. split; [apply calls_ok_nil|].
  split; [done|by left].
Qed.

Lemma process_pdf_returned env fault args fs pdf st toc w' :
  Args.pdf_path args = Some pdf →
  makedirs env default_work_dir fs = Ok tt →
  _load_state env (checkpoint_of pdf) fs = Ok (state_to_json st) →
  run env (mkIndexer pdf (config args) (basename pdf) (checkpoint_of pdf))
    (mkWorld st fs []) = (Ok toc, w') →
  let wrote := write_text (output_file pdf) fault (results_text toc) (disk w') in
  process_pdf_robustly env fault args fs
  = (match wrote.1 with
     | Ok _ => Ok (Success (output_file pdf))
     | Raise e => Ok (ExecutionInterrupted e)
     end, wrote.2, trace w').
Proof.
  intros Hpdf Hmade Hload Hrun wrote. unfold process_pdf_robustly.
  rewrite Hpdf, (init_made _ _ _ _ _ Hmade Hload), run_loaded_state, Hrun.
  fold wrote. destruct wrote as [[u|err] fs'] eqn:Hw; [done|].
  apply write_text_raises in Hw as ->. done.
Qed.

Lemma process_pdf_raised env fault args fs pdf st e w' :
  Args.pdf_path args = Some pdf →
  makedirs env default_work_dir fs = Ok tt →
  _load_state env (checkpoint_of pdf) fs = Ok (state_to_json st) →
  run env (mkIndexer pdf (config args) (basename pdf) (checkpoint_of pdf))
    (mkWorld st fs []) = (Raise e, w') →
  process_pdf_robustly env fault args fs
  = (if is_exception e then Ok (ExecutionInterrupted e) else Raise e,
     disk w', trace w').
Proof.
  intros Hpdf Hmade Hload Hrun. unfold process_pdf_robustly.
  rewrite Hpdf, (init_made _ _ _ _ _ Hmade Hload), run_loaded_state, Hrun.
  by destruct (is_exception e).
Qed.

(** X14.  What leaves [process_pdf_robustly].  An exception that leaves
    it was raised while the indexer was made, which is before the [try] (no
    path given, the work directory cannot be made, the checkpoint cannot be
    loaded), or it is no [Exception] ([KeyboardInterrupt], [SystemExit],
    [CancelledError]).  What the making of the indexer raises does leave
    it, nothing having been called and no file changed; and what [run]
    raises leaves it exactly when it is no [Exception], being caught and
    reported otherwise. *)
Theorem process_pdf_uncaught env results_fault args fs e :
  ((process_pdf_robustly env results_fault args fs).1.1 = Raise e →
   match Args.pdf_path args with
   | Some pdf =>
       __init__ env pdf (config args) default_work_dir fs = Raise e ∨
       is_exception e = false
   | None => e = TypeError
   end) ∧
  (match Args.pdf_path args with
   | Some pdf => __init__ env pdf (config args) default_work_dir fs = Raise e
   | None => e = TypeError
   end →
   process_pdf_robustly env results_fault args fs = (Raise e, fs, [])) ∧
  (∀ pdf self state,
     Args.pdf_path args = Some pdf →
     __init__ env pdf (config args) default_work_dir fs = Ok (self, state) →
     (run_loaded env self state fs).1.1 = Raise e →
     (process_pdf_robustly env results_fault args fs).1.1
     = if is_exception e then Ok (ExecutionInterrupted e) else Raise e).
Proof.
  unfold process_pdf_robustly.
  destruct (Args.pdf_path args) as [pdf|].
  2:{ cbn. split_and!; [congruence|by intros ->|done]. }
  destruct (__init__ env pdf (config args) default_work_dir fs)
    as [[self state]|err] eqn:Hinit.
  2:{ cbn. split_and!; [intros [= ->]; by left|by intros [= ->]|].
      intros pdf' self state [= <-]. by rewrite Hinit. }
  destruct (run_loaded env self state fs) as [[r fs1] tr] eqn:Hrun.
  split_and!; [|done|].
  - destruct r as [toc|err].
    + destruct (write_text _ _ _ _) as [[u|err] fs'] eqn:Hw; [done|].
      apply write_text_raises in Hw as ->. done.
    + destruct (is_exception err) eqn:Hexc; cbn [fst snd]; [done|].
      intros [= ->]. by right.
  - intros pdf' self' state' [= <-]. rewrite Hinit. intros [= <- <-].
    rewrite Hrun. cbn [fst snd]. intros ->. by destruct (is_exception e).
Qed.

(** X15.  When [run] raises: if what it raises is an [Exception],
    [process_pdf_robustly] returns normally with the failure reported, and
    otherwise the exception leaves it.  Either way the results file is as
    it was; and, no write having broken off half way, the checkpoint file
    holds the state written last, from which the same command then starts
    where the host lets the indexer be made. *)
Theorem process_pdf_failure_resumes env results_fault args fs pdf st e :
  Args.pdf_path args = Some pdf →
  orderly env →
  stored (checkpoint_of pdf) fs st →
  makedirs env default_work_dir fs = Ok tt →
  read_fault env (checkpoint_of pdf) = None →
  let self := mkIndexer pdf (config args) (basename pdf) (checkpoint_of pdf) in
  let out := run env self (mkWorld st fs []) in
  out.1 = Raise e →
  process_pdf_robustly env results_fault args fs
  = (if is_exception e then Ok (ExecutionInterrupted e) else Raise e,
     disk out.2, trace out.2) ∧
  disk out.2 !! output_file pdf = fs !! output_file pdf ∧
  stored (checkpoint_of pdf) (disk out.2) (last_saved st (trace out.2)) ∧
  ∀ env' fault',
    makedirs env' default_work_dir fs = Ok tt →
    read_fault env' (checkpoint_of pdf) = None →
    (process_pdf_robustly env' fault' args (disk out.2)).2
    = trace (run env' self (mkWorld (last_saved st (trace out.2)) (disk out.2) [])).2.
Proof.
  intros Hpdf Hord Hst Hmade Hread self out Hout.
  pose proof (run_leaves_stored env self st fs Hord Hst) as Hleft.
  fold out in Hleft. cbn [state_path self] in Hleft.
  split_and!.
  - destruct out as [r w'] eqn:Hrun. cbn in Hout. subst r.
    exact (process_pdf_raised env results_fault args fs pdf st e w' Hpdf Hmade
             (stored_load _ _ _ _ Hst Hread) Hrun).
  - apply (run_other_files env self st fs), output_file_not_checkpoint.
  - done.
  - intros env' fault' Hmade' Hread'.
    assert (makedirs env' default_work_dir (disk out.2) = Ok tt) as Hmade2.
    { rewrite (makedirs_same env' default_work_dir fs); [done|].
      apply (run_other_files env self st fs), work_dir_not_checkpoint_of. }
    pose proof (stored_load env' _ _ _ Hleft Hread') as Hload2.
    destruct (run env' self (mkWorld (last_saved st (trace out.2)) (disk out.2) []))
      as [[toc|err] w''] eqn:Hrun2.
    + by rewrite (process_pdf_returned env' fault' args _ pdf _ toc w'' Hpdf Hmade2
                    Hload2 Hrun2).
    + by rewrite (process_pdf_raised env' fault' args _ pdf _ err w'' Hpdf Hmade2
                    Hload2 Hrun2).
Qed.

(** X16.  When the indexer is made, [run] returns and the results are
    written, [process_pdf_robustly] reports success; the results file
    [./results/<name without extension>_structure.json] holds the returned
    structure with indent 2 ([null] when [run] returned [None]); the
    checkpoint file is as [run] left it, and every other file is as it was
    before. *)
Theorem process_pdf_success env args fs pdf st toc :
  Args.pdf_path args = Some pdf →
  makedirs env default_work_dir fs = Ok tt →
  _load_state env (checkpoint_of pdf) fs = Ok (state_to_json st) →
  let self := mkIndexer pdf (config args) (basename pdf) (checkpoint_of pdf) in
  let out := run env self (mkWorld st fs []) in
  out.1 = Ok toc →
  let after := process_pdf_robustly env NoFault args fs in
  after.1.1 = Ok (Success (output_file pdf)) ∧
  after.2 = trace out.2 ∧
  after.1.2 !! output_file pdf = Some (results_text toc) ∧
  after.1.2 !! checkpoint_of pdf = disk out.2 !! checkpoint_of pdf ∧
  ∀ q, q ≠ output_file pdf → q ≠ checkpoint_of pdf → after.1.2 !! q = fs !! q.
Proof.
  intros Hpdf Hmade Hload self out Hout after.
  assert (after = (Ok (Success (output_file pdf)),
                   <[output_file pdf := results_text toc]> (disk out.2),
                   trace out.2)) as ->.
  { unfold after. destruct out as [r w'] eqn:Hrun. cbn in Hout. subst r.
    by rewrite (process_pdf_returned env NoFault args fs pdf st toc w' Hpdf Hmade
                  Hload Hrun). }
  cbn [fst snd]. split_and!; [done|done|by rewrite lookup_insert_eq| |].
  - rewrite lookup_insert_ne; [done|apply output_file_not_checkpoint].
  - intros q Hq1 Hq2. rewrite lookup_insert_ne by done.
    by apply (run_other_files env self st fs).
Qed.

(** X17.  Giving the same command again after a run that returned a
    structure (the pages counted), the indexer being made both times: the
    verification, on the segments of the checkpoint, is the only call; the
    checkpoint file stays as it is; and when the verification answers as
    before and both writings of the results complete, the disk is left
    exactly as the first command left it. *)
Theorem process_pdf_again_reverifies env fault args fs pdf st toc env' fault' :
  Args.pdf_path args = Some pdf →
  orderly env →
  stored (checkpoint_of pdf) fs st →
  makedirs env default_work_dir fs = Ok tt →
  read_fault env (checkpoint_of pdf) = None →
  makedirs env' default_work_dir fs = Ok tt →
  read_fault env' (checkpoint_of pdf) = None →
  let self := mkIndexer pdf (config args) (basename pdf) (checkpoint_of pdf) in
  let out := run env self (mkWorld st fs []) in
  out.1 = Ok (Some toc) →
  total_pages (mem out.2) ≠ 0%Z →
  let first := process_pdf_robustly env fault args fs in
  let second := process_pdf_robustly env' fault' args first.1.2 in
  event <$> second.2 = [CallVerify (toc_segments (mem out.2)) (config args)] ∧
  second.1.2 !! checkpoint_of pdf = first.1.2 !! checkpoint_of pdf ∧
  (fault = NoFault → fault' = NoFault →
   verify_toc env' (toc_segments (mem out.2)) (config args) = Ok toc →
   second.1.1 = Ok (Success (output_file pdf)) ∧ second.1.2 = first.1.2).
Proof.
  intros Hpdf Hord Hst Hmade Hread Hmade' Hread' self out Hout Hpages first second.
  pose proof (run_leaves_stored env self st fs Hord Hst) as Hleft.
  pose proof (run_returns_at_verify env self (mkWorld st fs []) I) as Hphase.
  fold out in Hleft, Hphase. cbn [state_path self] in Hleft.
  destruct out as [r w'] eqn:Hrun. cbn [fst snd] in *. subst r.
  specialize (Hphase ltac:(by eexists)).
  rewrite <- (run_returns_saved _ _ _ _ _ _ Hrun) in Hleft.
  assert (checkpoint_of pdf ≠ output_file pdf) as Hne
    by (intros H; by apply (output_file_not_checkpoint pdf pdf)).
  set (wrote := write_text (output_file pdf) fault (results_text (Some toc)) (disk w')).
  assert (first = (match wrote.1 with
                   | Ok _ => Ok (Success (output_file pdf))
                   | Raise e => Ok (ExecutionInterrupted e)
                   end, wrote.2, trace w')) as Hfirst
    by (apply (process_pdf_returned env fault args fs pdf st (Some toc) w' Hpdf
                 Hmade (stored_load _ _ _ _ Hst Hread) Hrun)).
  assert (stored (checkpoint_of pdf) wrote.2 (mem w')) as Hkept.
  { eapply stored_same; [|exact Hleft]. by apply write_text_other. }
  assert (makedirs env' default_work_dir wrote.2 = Ok tt) as Hmade2.
  { rewrite <- Hmade'. apply makedirs_same. unfold wrote.
    rewrite write_text_other by apply work_dir_not_output.
    replace w' with out.2 by (by rewrite Hrun).
    apply (run_other_files env self st fs), work_dir_not_checkpoint_of. }
  assert (run env' self (mkWorld (mem w') wrote.2 []) =
          (returned (verify_toc env' (toc_segments (mem w')) (config args)),
           mkWorld (mem w') wrote.2
             [mkEntry (mem w') wrote.2 (CallVerify (toc_segments (mem w')) (config args))]))
    as Hagain by (by apply run_at_verify).
  subst second. rewrite Hfirst. cbn [fst snd].
  destruct (verify_toc env' (toc_segments (mem w')) (config args)) as [toc'|err] eqn:Hv;
    cbn [returned] in Hagain.
  - rewrite (process_pdf_returned env' fault' args wrote.2 pdf (mem w') (Some toc') _ Hpdf
               Hmade2 (stored_load _ _ _ _ Hkept Hread') Hagain).
    cbn [fst snd trace disk fmap list_fmap event].
    split_and!; [done|by apply write_text_other|].
    intros -> -> [= ->]. subst wrote. cbn [write_text fst snd].
    split; [done|]. apply insert_insert_eq.
  - rewrite (process_pdf_raised env' fault' args wrote.2 pdf (mem w') err _ Hpdf
               Hmade2 (stored_load _ _ _ _ Hkept Hread') Hagain).
    cbn [fst snd trace disk fmap list_fmap event].
    destruct (is_exception err); by split_and!.
Qed.

Lemma given_some a s : given a = Some s → a = Some s.
Proof. by destruct a as [[|c r]|]; intros [= <-]. Qed.

Lemma process_pdf_disk_elsewhere env fault args fs pdf q :
  Args.pdf_path args = Some pdf →
  q ≠ checkpoint_of pdf → q ≠ output_file pdf →
  (process_pdf_robustly env fault args fs).1.2 !! q = fs !! q.
Proof.
  intros Hpdf Hq1 Hq2. unfold process_pdf_robustly. rewrite Hpdf.
  destruct (init_cases env pdf (config args) fs) as [[e ->]|[state ->]]; [done|].
  pose proof (run_loaded_other_files env
    (mkIndexer pdf (config args) (basename pdf) (checkpoint_of pdf)) state fs q Hq1) as Hrun.
  destruct (run_loaded env _ state fs) as [[[toc|e] fs1] tr]; cbn [fst snd] in Hrun.
  - pose proof (write_text_other (output_file pdf) fault (results_text toc) fs1 q Hq2)
      as Hw.
    destruct (write_text _ _ _ _) as [[u|e] fs'] eqn:Hwrote; cbn [fst snd] in *.
    + by rewrite Hw.
    + destruct (is_exception e); cbn [fst snd]; by rewrite Hw.
  - by destruct (is_exception e).
Qed.

(** X18.  Whatever the script is given, whatever fails: the only files it
    changes are the checkpoint and the results file of the PDF named.
    Without a PDF it changes no file and calls nothing, and with a Markdown
    file it always ends in an exception. *)
Theorem main_changes_two_files env fault load args fs :
  let out := main env fault load args fs in
  (∀ q, out.1.2 !! q ≠ fs !! q →
        ∃ pdf, Args.pdf_path args = Some pdf ∧
               (q = checkpoint_of pdf ∨ q = output_file pdf)) ∧
  (given (Args.pdf_path args) = None →
   out.1.2 = fs ∧ out.2 = [] ∧
   (out.1.1 = Finished None ↔ given (Args.md_path args) = None) ∧
   (given (Args.md_path args) ≠ None → ∃ e, out.1.1 = Traceback e)).
Proof.
  intros out. subst out. unfold main.
  destruct (given (Args.pdf_path args)) as [pdf|] eqn:Hgiven.
  - split; [|done]. apply given_some in Hgiven. intros q Hq. exists pdf.
    split; [done|].
    destruct (decide (q = checkpoint_of pdf)) as [?|Hq1]; [by left|].
    destruct (decide (q = output_file pdf)) as [?|Hq2]; [by right|].
    exfalso. apply Hq.
    rewrite <- (process_pdf_disk_elsewhere env fault args fs pdf q Hgiven Hq1 Hq2).
    by destruct (process_pdf_robustly env fault args fs) as [[[p|e] fs'] tr].
  - destruct (given (Args.md_path args)) as [md|]; cbn [fst snd].
    + split; [done|]. intros _. split_and!; [done|done| |].
      * split; [|done]. unfold markdown_mode. by repeat case_match.
      * intros _. unfold markdown_mode. repeat case_match; by eexists.
    + split; [done|]. intros _. by split_and!.
Qed.

(** ** Reading back the results *)

Section Width.
Variable width : nat.

Lemma encode_indent_arr level x xs :
  encode_indent width level (JArr (x :: xs)) =
  "[" +:+ encode_items_by width level (x :: xs) EmptyString
  +:+ newline_indent_by width level +:+ "]".
Proof. reflexivity. Qed.

Lemma encode_indent_obj level kx ms :
  encode_indent width level (JObj (kx :: ms)) =
  "{" +:+ encode_members_by width level (kx :: ms) EmptyString
  +:+ newline_indent_by width level +:+ "}".
Proof. reflexivity. Qed.

Lemma skip_ws_newline_indent_by level t :
  Json.skip_ws (newline_indent_by width level +:+ t) = Json.skip_ws t.
Proof.
  unfold newline_indent_by, Json.newline.
  rewrite sapp_assoc, sapp_cons, sapp_nil_l. cbn [Json.skip_ws].
  change (Json.is_ws (ascii_of_nat 10)) with true. cbv iota.
  apply skip_ws_spaces.
Qed.

Lemma delimited_newline_indent_by level t : delimited (newline_indent_by width level +:+ t).
Proof. unfold newline_indent_by, Json.newline. rewrite sapp_assoc, sapp_cons. by right. Qed.

Lemma solid_encode_indent level j : wf_json j → solid (encode_indent width level j).
Proof.
  destruct 1 as [|[]|n|s|items _|members _ _]; try by vm_compute.
  - apply solid_pretty.
  - destruct items; by vm_compute.
  - destruct members; by vm_compute.
Qed.

Lemma parse_items_encode_indent level rest xs :
  ∀ x acc fuel,
    Forall (reads_back_by width) (x :: xs) → Forall wf_json (x :: xs) →
    items_need (x :: xs) ≤ fuel →
    Json.parse_items fuel
      (encode_indent width (S level) x +:+ encode_items_by width level xs ","
       +:+ newline_indent_by width level +:+ "]" +:+ rest) acc
    = Some (JArr (rev acc ++ x :: xs), rest).
Proof.
  induction xs as [|y ys IH]; intros x acc fuel Hrb Hwf Hfuel.
  - apply Forall_cons in Hrb as [Hx _].
    destruct fuel as [|fuel]; [cbn in Hfuel; lia|].
    cbn [Json.parse_items encode_items_by]. rewrite sapp_nil_l.
    rewrite Hx by (cbn in Hfuel; lia || apply delimited_newline_indent_by).
    rewrite skip_ws_newline_indent_by. reflexivity.
  - apply Forall_cons in Hrb as [Hx Hrb]. apply Forall_cons in Hwf as [_ Hwf].
    destruct fuel as [|fuel]; [cbn in Hfuel; lia|].
    cbn [Json.parse_items encode_items_by].
    rewrite !sapp_assoc, !sapp_cons, sapp_nil_l.
    rewrite Hx; [|cbn in Hfuel; lia|by left].
    cbn [Json.skip_ws]. change (Json.is_ws ",") with false. cbv iota.
    change (Ascii.eqb "," ",") with true. cbv iota.
    rewrite skip_ws_newline_indent_by, skip_ws_solid.
    2:{ apply solid_app, solid_encode_indent. by apply Forall_cons in Hwf as [? _]. }
    rewrite IH; [|done|done|cbn in Hfuel |- *; lia].
    cbn [rev]. by rewrite <- app_assoc.
Qed.

Lemma parse_members_encode_indent level rest ms :
  ∀ k x acc fuel,
    Forall (λ kv, reads_back_by width kv.2) ((k, x) :: ms) →
    Forall (λ kv, wf_json kv.2) ((k, x) :: ms) →
    NoDup (acc.*1 ++ ((k, x) :: ms).*1) →
    members_need ((k, x) :: ms) ≤ fuel →
    Json.parse_members fuel
      (Json.quote k +:+ ": " +:+ encode_indent width (S level) x
       +:+ encode_members_by width level ms "," +:+ newline_indent_by width level +:+ "}" +:+ rest) acc
    = Some (JObj (acc ++ (k, x) :: ms), rest).
Proof.
  induction ms as [|[k' y] ms IH]; intros k x acc fuel Hrb Hwf Hnd Hfuel.
  all: apply Forall_cons in Hrb as [Hx Hrb]; cbn [snd] in Hx.
  all: apply Forall_cons in Hwf as [Hwx Hwf]; cbn [snd] in Hwx.
  all: destruct fuel as [|fuel]; [cbn in Hfuel; lia|].
  all: assert (k ∉ acc.*1) as Hk
    by (apply NoDup_app in Hnd as (_ & Hnd & _); intros Hin; apply (Hnd k Hin); left).
  all: cbn [Json.parse_members encode_members_by].
  all: unfold Json.quote at 1; flat.
  all: change (Ascii.eqb dquote dquote) with true; cbv iota.
  all: rewrite parse_string_escape.
  all: cbn [Json.skip_ws]; change (Json.is_ws ":") with false; cbv iota.
  all: change (Ascii.eqb ":" ":") with true; cbv iota.
  all: cbn [Json.skip_ws]; change (Json.is_ws " ") with true; cbv iota.
  all: rewrite skip_ws_solid by (by apply solid_app, solid_encode_indent).
  - rewrite Hx by (cbn in Hfuel; lia || apply delimited_newline_indent_by).
    rewrite skip_ws_newline_indent_by. rewrite dict_set_fresh by done. reflexivity.
  - rewrite Hx; [|cbn in Hfuel; lia|by left].
    cbn [Json.skip_ws]. change (Json.is_ws ",") with false. cbv iota.
    change (Ascii.eqb "," ",") with true. cbv iota.
    rewrite skip_ws_newline_indent_by, skip_ws_solid by (by vm_compute).
    rewrite dict_set_fresh by done.
    pose proof (IH k' y (acc ++ [(k, x)]) fuel Hrb Hwf) as IH'.
    revert IH'. flat. intros IH'.
    rewrite IH'; [by rewrite <- app_assoc| |cbn in Hfuel |- *; lia].
    rewrite fmap_app, <- app_assoc. exact Hnd.
Qed.

Lemma reads_back_by_wf j : wf_json j → reads_back_by width j.
Proof.
  induction j as [|b|n|l|s|items IH|members IH] using json_induction;
    intros Hwf level rest fuel Hfuel Hrest.
  - destruct fuel; [cbn in Hfuel; lia|]. reflexivity.
  - destruct fuel; [cbn in Hfuel; lia|]. by destruct b.
  - destruct fuel; [cbn in Hfuel; lia|]. by apply parse_value_int.
  - inversion Hwf.
  - destruct fuel; [cbn in Hfuel; lia|].
    cbn [encode_indent]. unfold Json.quote. flat. cbn [Json.parse_value].
    change (Ascii.eqb dquote "{") with false. change (Ascii.eqb dquote "[") with false.
    change (Ascii.eqb dquote dquote) with true. cbv iota.
    by rewrite parse_string_escape.
  - inversion Hwf as [| | | |items' Hitems|]; subst.
    rewrite need_arr in Hfuel.
    destruct fuel as [|fuel]; [lia|].
    destruct items as [|x xs]; [reflexivity|].
    rewrite encode_indent_arr. cbn [encode_items_by]. flat. cbn [Json.parse_value].
    change (Ascii.eqb "[" "{") with false. change (Ascii.eqb "[" "[") with true.
    cbv iota. rewrite skip_ws_newline_indent_by.
    assert (solid (encode_indent width (S level) x)) as Hsolid
      by (apply solid_encode_indent; by apply Forall_cons in Hitems as [? _]).
    rewrite skip_ws_solid by (by apply solid_app).
    destruct (encode_indent width (S level) x) as [|c r] eqn:Henc; [done|].
    destruct Hsolid as (_ & Hc & _). rewrite sapp_cons, Hc, <- sapp_cons, <- Henc.
    pose proof (parse_items_encode_indent level rest xs x [] fuel) as H.
    revert H. flat. intros H. apply H; [|done|lia].
    apply Forall_forall. intros y Hy. rewrite Forall_forall in IH, Hitems.
    apply IH; [done|]. by apply Hitems.
  - inversion Hwf as [| | | | |members' Hnd Hmembers]; subst.
    rewrite need_obj in Hfuel.
    destruct fuel as [|fuel]; [lia|].
    destruct members as [|[k x] ms]; [reflexivity|].
    rewrite encode_indent_obj. cbn [encode_members_by]. flat. cbn [Json.parse_value].
    change (Ascii.eqb "{" "{") with true. cbv iota.
    rewrite skip_ws_newline_indent_by.
    rewrite skip_ws_solid by (by vm_compute).
    unfold Json.quote at 1. flat.
    change (Ascii.eqb dquote "}") with false. cbv iota.
    pose proof (parse_members_encode_indent level rest ms k x [] fuel) as H.
    revert H. unfold Json.quote at 1. flat. intros H. apply H; [|done|done|lia].
    apply Forall_forall. intros y Hy. rewrite Forall_forall in IH, Hmembers.
    apply IH; [done|]. by apply Hmembers.
Qed.

Lemma length_newline_indent_by level : 1 ≤ String.length (newline_indent_by width level).
Proof. unfold newline_indent_by, Json.newline. rewrite sapp_cons. cbn. lia. Qed.

Lemma need_le_length_indent j :
  wf_json j → ∀ level, need j ≤ 2 * String.length (encode_indent width level j).
Proof.
  induction j as [|b|n|l|s|items IH|members IH] using json_induction;
    intros Hwf level.
  1-3, 5: pose proof (solid_length _ (solid_encode_indent level _ Hwf)); cbn [need]; lia.
  - inversion Hwf.
  - inversion Hwf as [| | | |items' Hitems|]; subst.
    destruct items as [|x xs]; [cbn; lia|].
    rewrite need_arr, encode_indent_arr, !slength_app.
    assert (∀ l sep, Forall wf_json l →
              Forall (λ j, wf_json j → ∀ level, need j ≤ 2 * String.length (encode_indent width level j)) l →
              items_need l ≤ 2 * String.length (encode_items_by width level l sep)) as Hsum.
    { induction l as [|y l IHl]; intros sep Hw Hl; [cbn; lia|].
      apply Forall_cons in Hw as [Hwy Hw]. apply Forall_cons in Hl as [Hy Hl].
      cbn [items_need encode_items_by]. rewrite !slength_app.
      specialize (IHl "," Hw Hl). specialize (Hy Hwy (S level)).
      pose proof (length_newline_indent_by (S level)). lia. }
    specialize (Hsum (x :: xs) EmptyString Hitems IH).
    change (String.length "[") with 1. lia.
  - inversion Hwf as [| | | | |members' Hnd Hmembers]; subst.
    destruct members as [|kx ms]; [cbn; lia|].
    rewrite need_obj, encode_indent_obj, !slength_app.
    assert (∀ l sep, Forall (λ kv, wf_json kv.2) l →
              Forall (λ kv, wf_json kv.2 → ∀ level, need kv.2 ≤ 2 * String.length (encode_indent width level kv.2)) l →
              members_need l ≤ 2 * String.length (encode_members_by width level l sep)) as Hsum.
    { induction l as [|[k y] l IHl]; intros sep Hw Hl; [cbn; lia|].
      apply Forall_cons in Hw as [Hwy Hw]. apply Forall_cons in Hl as [Hy Hl].
      cbn [members_need encode_members_by]. rewrite !slength_app.
      specialize (IHl "," Hw Hl). specialize (Hy Hwy (S level)). cbn [snd] in Hy.
      pose proof (length_newline_indent_by (S level)). lia. }
    specialize (Hsum (kx :: ms) EmptyString Hmembers IH).
    change (String.length "{") with 1. lia.
Qed.

Lemma loads_encode_indent j : wf_json j → Json.loads (encode_indent width 0 j) = Some j.
Proof.
  intros Hwf. unfold Json.loads, Json.decode.
  rewrite skip_ws_solid by (by apply solid_encode_indent).
  pose proof (reads_back_by_wf j Hwf 0 EmptyString
                (2 * String.length (encode_indent width 0 j) + 2)) as H.
  rewrite sapp_nil_r in H.
  rewrite H; [|pose proof (need_le_length_indent j Hwf 0); lia|done].
  cbn [Json.skip_ws Json.is_empty]. by rewrite has_float_wf.
Qed.

End Width.

(** X19.  The results file can be read back: when the indexer is made,
    [run] returns and the results are written, decoding the results file
    gives the structure [run] returned ([null] for [None]). *)
Theorem results_file_decodes env args fs pdf st toc :
  Args.pdf_path args = Some pdf →
  makedirs env default_work_dir fs = Ok tt →
  _load_state env (checkpoint_of pdf) fs = Ok (state_to_json st) →
  (run env (mkIndexer pdf (config args) (basename pdf) (checkpoint_of pdf))
     (mkWorld st fs [])).1 = Ok toc →
  wf_json (default JNull toc) →
  (process_pdf_robustly env NoFault args fs).1.2 !! output_file pdf ≫= Json.loads
  = Some (default JNull toc).
Proof.
  intros Hpdf Hmade Hload Hrun Hwf.
  destruct (run env _ (mkWorld st fs [])) as [r w'] eqn:Hr. cbn in Hrun. subst r.
  rewrite (process_pdf_returned _ _ _ _ _ _ _ _ Hpdf Hmade Hload Hr).
  cbn [write_text fst snd]. rewrite lookup_insert_eq. cbn [mbind option_bind].
  unfold results_text. by apply loads_encode_indent.
Qed.

(** ** Resuming an interrupted extraction *)

Lemma loop_done_start env self st fs tr : loop_done env self st [] (mkWorld st fs tr).
Proof. unfold loop_done, todo. cbn. rewrite !app_nil_r. by destruct st. Qed.

Lemma stopped_at_loop_done env self st0 l done rest w :
  l = done ++ rest → loop_done env self st0 done w →
  all_ok env self (todo (completed_groups st0) done) →
  stopped_at env self st0 l (mem w).
Proof.
  intros Hl Hw Hok. exists done, rest. unfold loop_done in Hw. rewrite Hw. cbn.
  split_and!; try done. by left.
Qed.

Section Stops.
Context (env : Collaborators) (self : ResilientPageIndexer) (st0 : State).
Context (l : list Z).
Hypothesis Hord : orderly env.
Hypothesis Hnd : NoDup l.

Let Stopped (w : World) : Prop :=
  stopped_at env self st0 l (last_saved st0 (trace w)).

Lemma extract_group_stops done i rest :
  l = done ++ i :: rest →
  triple (loop_saved env self st0 done) (extract_group env self i)
         (λ _, loop_saved env self st0 (done ++ [i])) Stopped.
Proof.
  intros Hl w (Hw & Hok & Hlast).
  pose proof (extract_group_done env self st0 l done i rest Hnd Hl w Hw) as Hstep.
  assert (Stopped w) as Hstopped.
  { unfold Stopped. rewrite Hlast. by eapply stopped_at_loop_done. }
  destruct Hord as [_ Hwrites].
  revert Hstep. run_ops.
  destruct (decide (str i ∈ completed_groups (mem w))) as [Hd|Hd]; cbn [mem trace].
  { intros Hstep. split_and!; [done| |done].
    rewrite todo_snoc. case_decide; [by rewrite app_nil_r|].
    exfalso. unfold loop_done in Hw, Hstep. rewrite Hw in Hstep.
    injection Hstep as Hcg _.
    apply app_inv_head in Hcg. rewrite todo_snoc, decide_False in Hcg by done.
    apply (f_equal length) in Hcg. rewrite length_app in Hcg.
    cbn in Hcg. lia. }
  destruct (generate_toc_continue env (pdf_path self) (str i) (opt self))
    as [seg|err] eqn:Hcall; cbn [mem trace disk].
  2:{ intros _. unfold Stopped. cbn [trace]. by rewrite last_saved_snoc_other. }
  destruct (disk_fault env _) eqn:Hfault; cbn [mem trace disk].
  - intros Hstep. split_and!; [done| |].
    + rewrite todo_snoc. apply Forall_app. split; [done|].
      case_decide; [constructor|]. apply Forall_cons_2; [|constructor]. by rewrite Hcall.
    + cbn [trace mem]. rewrite last_saved_snoc_other by done.
      by rewrite last_saved_snoc_saved.
  - intros _. unfold Stopped. cbn [trace].
    by rewrite !last_saved_snoc_other.
  - by destruct (Hwrites _ _ Hfault).
Qed.

Lemma for_each_stops :
  triple (loop_saved env self st0 []) (for_each l (extract_group env self))
         (λ _, loop_saved env self st0 l) Stopped.
Proof.
  apply (triple_for_each _ (loop_saved env self st0)).
  intros. by eapply extract_group_stops.
Qed.

End Stops.

(** Where an orderly run from the extraction phase leaves the checkpoint,
    however it ends. *)
Lemma run_stops_at env self st fs :
  orderly env → step st = "EXTRACT_NODES" → total_pages st ≠ 0%Z →
  stopped_at env self st (seqZ 1 (total_groups st))
    (last_saved st (trace (run env self (mkWorld st fs [])).2)).
Proof.
  intros Hord Hstep Hpages.
  set (l := seqZ 1 (total_groups st)).
  unfold run. unfold bind at 1. rewrite count_step_skip by done.
  unfold bind at 1. rewrite init_step_skip by (cbn; by rewrite Hstep).
  unfold bind at 1. unfold extract_step. unfold bind at 1. unfold get_state.
  cbn [mem]. rewrite decide_True by done. fold l.
  pose proof (for_each_stops env self st l Hord (NoDup_seqZ 1 _) (mkWorld st fs [])) as Hloop.
  assert (loop_saved env self st [] (mkWorld st fs [])) as Hstart.
  { split_and!; [apply loop_done_start|constructor|done]. }
  specialize (Hloop Hstart).
  unfold bind at 1.
  destruct (for_each _ _ (mkWorld st fs [])) as [[u|err] w1]; [|exact Hloop].
  destruct Hloop as (Hw1 & Hok & Hlast).
  assert (stopped_at env self st l (mem w1)) as Hstopped
    by (apply (stopped_at_loop_done env self st l l [] w1); [by rewrite app_nil_r|done|done]).
  unfold bind at 1. unfold modify. cbv beta iota.
  unfold _save_state, write_checkpoint. cbn [mem disk trace].
  destruct Hord as [_ Hwrites].
  destruct (disk_fault env _) eqn:Hfault.
  - rewrite verify_step_at by (by left). cbn [snd trace mem].
    rewrite last_saved_snoc_other by done. rewrite last_saved_snoc_saved.
    exists l, []. unfold loop_done in Hw1. rewrite Hw1. cbn.
    split_and!; try done; [by rewrite app_nil_r|by right].
  - cbn [snd trace]. rewrite last_saved_snoc_other by done. by rewrite Hlast.
  - by destruct (Hwrites _ _ Hfault).
Qed.

(** What a run from the extraction phase ends with when nothing fails. *)
Lemma smooth_run_result env self st fs :
  step st = "EXTRACT_NODES" → total_pages st ≠ 0%Z →
  smooth env self (completed_groups st) (seqZ 1 (total_groups st)) →
  let pending := todo (completed_groups st) (seqZ 1 (total_groups st)) in
  let segments := toc_segments st ++ answers env self pending in
  let final := mkState "VERIFY" (completed_groups st ++ pending) segments
                 (total_groups st) (total_pages st) in
  ∃ fs' tr,
    run env self (mkWorld st fs []) =
    (returned (verify_toc env segments (opt self)), mkWorld final fs' tr) ∧
    fs' !! state_path self = Some (checkpoint_text final).
Proof.
  intros Hstep Hpages Hsmooth pending segments final.
  destruct (run_smooth_loop env self st fs Hstep Hpages Hsmooth) as (w1 & Hout & Hw1).
  unfold loop_done in Hw1. fold pending in Hw1.
  rewrite Hout, verify_step_at by (by left).
  cbn [fst snd mem disk written]. rewrite Hw1.
  cbn [set_step toc_segments step completed_groups total_groups total_pages].
  eexists _, _. split; [reflexivity|]. by rewrite lookup_insert_eq.
Qed.

Lemma todo_none cg l : (∀ i, i ∈ l → str i ∈ cg) → todo cg l = [].
Proof.
  induction l as [|i l IH]; intros Hin; [done|].
  change (i :: l) with ([i] ++ l). unfold todo in *.
  rewrite fmap_app, filter_app, IH by (intros j Hj; apply Hin; by right).
  change (str <$> [i]) with [str i].
  rewrite filter_cons, filter_nil, decide_False; [done|].
  intros Hn. apply Hn, Hin. by left.
Qed.

Lemma todo_same cg cg' l :
  (∀ i, i ∈ l → str i ∈ cg ↔ str i ∈ cg') → todo cg l = todo cg' l.
Proof.
  induction l as [|i l IH]; intros Hin; [done|].
  change (i :: l) with ([i] ++ l). unfold todo in *.
  rewrite !fmap_app, !filter_app, IH by (intros j Hj; apply Hin; by right).
  f_equal. change (str <$> [i]) with [str i].
  rewrite !filter_cons, !filter_nil.
  specialize (Hin i ltac:(by left)). repeat case_decide; tauto.
Qed.

(** The groups still pending after the turns [done] of the loop. *)
Lemma todo_after cg done rest :
  NoDup (done ++ rest) →
  todo (cg ++ todo cg done) (done ++ rest) = todo cg rest.
Proof.
  intros Hnd. unfold todo at 1. rewrite fmap_app, filter_app.
  fold (todo (cg ++ todo cg done) done). fold (todo (cg ++ todo cg done) rest).
  rewrite todo_none, app_nil_l.
  - apply todo_same. intros i Hi. rewrite elem_of_app. split; [|by left].
    intros [?|Hin]; [done|].
    apply todo_elem in Hin as (_ & j & Hj & Heq). apply str_inj in Heq as <-.
    apply NoDup_app in Hnd as (_ & Hnd & _). by destruct (Hnd i).
  - intros i Hi. rewrite elem_of_app.
    destruct (decide (str i ∈ cg)) as [?|Hn]; [by left|right].
    unfold todo. apply list_elem_of_filter. split; [done|].
    apply list_elem_of_fmap. by exists i.
Qed.

Lemma todo_app cg done rest : todo cg (done ++ rest) = todo cg done ++ todo cg rest.
Proof. unfold todo. by rewrite fmap_app, filter_app. Qed.

(** Where the first collaborators answered, the second answer the same. *)
Lemma answers_agree env1 env2 self groups :
  (∀ g seg, generate_toc_continue env1 (pdf_path self) g (opt self) = Ok seg →
            generate_toc_continue env2 (pdf_path self) g (opt self) = Ok seg) →
  all_ok env1 self groups →
  answers env1 self groups = answers env2 self groups.
Proof.
  intros Hsame Hok. induction Hok as [|g gs Hg _ IH]; [done|].
  unfold answers in *. cbn [omap list_omap]. rewrite IH.
  destruct (generate_toc_continue env1 (pdf_path self) g (opt self)) as [seg|err] eqn:H1;
    [|done].
  by rewrite (Hsame g seg H1).
Qed.

(** X20.  Resuming gives what an uninterrupted run gives.  From a
    checkpoint in the extraction phase, let a first run end anywhere (no
    write breaking off half way), and let a second run, whose extractions
    answer as those of the first did where they succeeded, start from the
    state written last and go through without failure.  Then the second run
    ends with the state, the checkpoint and the result that a single run
    from the original checkpoint has with the collaborators of the second. *)
Theorem resumed_extraction_same_result env1 env2 self st fs :
  step st = "EXTRACT_NODES" → total_pages st ≠ 0%Z →
  orderly env1 →
  stored (state_path self) fs st →
  (∀ g seg, generate_toc_continue env1 (pdf_path self) g (opt self) = Ok seg →
            generate_toc_continue env2 (pdf_path self) g (opt self) = Ok seg) →
  smooth env2 self (completed_groups st) (seqZ 1 (total_groups st)) →
  let first := run env1 self (mkWorld st fs []) in
  let second := run env2 self (mkWorld (last_saved st (trace first.2)) (disk first.2) []) in
  let direct := run env2 self (mkWorld st fs []) in
  mem second.2 = mem direct.2 ∧
  disk second.2 !! state_path self = disk direct.2 !! state_path self ∧
  second.1 = direct.1.
Proof.
  intros Hstep Hpages Hord Hst Hsame Hsmooth first second direct.
  pose proof (run_stops_at env1 self st fs Hord Hstep Hpages) as Hstop.
  pose proof (run_leaves_stored env1 self st fs Hord Hst) as Hleft.
  fold first in Hstop, Hleft.
  destruct (smooth_run_result env2 self st fs Hstep Hpages Hsmooth)
    as (fs2 & tr2 & Hdirect & Hdisk2).
  fold direct in Hdirect.
  set (s1 := last_saved st (trace first.2)) in *.
  destruct Hstop as (done & rest & Hl & Hok & Hcg & Hsegs & Htg & Htp & Hphase).
  set (cg0 := completed_groups st) in *.
  assert (NoDup (done ++ rest)) as Hnd by (rewrite <- Hl; apply NoDup_seqZ).
  assert (answers env1 self (todo cg0 done) = answers env2 self (todo cg0 done)) as Hans
    by (by apply answers_agree).
  destruct Hphase as [Hs1|[Hs1 ->]].
  - (* the first run stopped inside the extraction phase *)
    assert (smooth env2 self (completed_groups s1) (seqZ 1 (total_groups s1))) as Hsmooth1.
    { destruct Hsmooth as [Hcalls Hwrites]. split; [|done].
      intros g Hg. apply Hcalls. rewrite Htg, Hcg, Hl, todo_after in Hg by done.
      fold cg0. rewrite Hl, todo_app, elem_of_app. by right. }
    destruct (smooth_run_result env2 self s1 (disk first.2)
                ltac:(by rewrite Hs1) ltac:(by rewrite Htp) Hsmooth1)
      as (fs3 & tr3 & Hsecond & Hdisk3).
    fold second in Hsecond.
    assert (mem second.2 = mem direct.2) as Hmem.
    { rewrite Hsecond, Hdirect. cbn [snd mem].
      rewrite Htg, Htp, Hcg, Hsegs, Hl, todo_after, todo_app by done.
      fold cg0. by rewrite Hans, answers_app, !app_assoc. }
    split_and!; [done| |].
    + rewrite Hsecond, Hdirect in Hmem |- *. cbn [snd mem disk] in Hmem |- *.
      by rewrite Hdisk3, Hdisk2, Hmem.
    + rewrite Hsecond, Hdirect. cbn [fst].
      rewrite Hsegs, Htg, Hcg, Hl, todo_after, todo_app by done.
      fold cg0. by rewrite Hans, answers_app, !app_assoc.
  - (* the first run wrote the phase VERIFY *)
    rewrite app_nil_r in Hl. subst done.
    assert (s1 = mem direct.2) as Hmem.
    { rewrite Hdirect. cbn [snd mem]. fold cg0. rewrite <- Hans, <- Hcg, <- Hsegs.
      rewrite <- Hs1, <- Htg, <- Htp. by destruct s1. }
    assert (second = (returned (verify_toc env2 (toc_segments s1) (opt self)),
                      mkWorld s1 (disk first.2)
                        [mkEntry s1 (disk first.2)
                           (CallVerify (toc_segments s1) (opt self))])) as Hsecond.
    { apply run_at_verify; [by left|by rewrite Htp]. }
    rewrite Hsecond. cbn [fst snd mem disk]. split_and!; [done| |].
    + rewrite Hdirect. cbn [snd disk]. rewrite Hdisk2.
      rewrite Hdirect in Hmem. cbn [snd mem] in Hmem. rewrite <- Hmem.
      destruct Hleft as [[_ Hdef]|[Hfile _]]; [|done].
      rewrite Hdef in Hs1. discriminate.
    + rewrite Hdirect. cbn [fst]. fold cg0. by rewrite Hsegs, Hans.
Qed.

(** ** The properties at sample inputs *)

Import Samples.

(** A first run on 23 pages with every call answering: the structure is
    returned and the checkpoint ends in the phase [VERIFY]. *)
Example fresh_run_ends_in_verify :
  (run (answering 23) indexer fresh).1
  = Ok (Some (JObj [("structure", JArr [segment_of "1"; segment_of "2"; segment_of "3"])])) ∧
  _load_state (answering 23) (state_path indexer)
    (disk (run (answering 23) indexer fresh).2)
  = Ok (state_to_json all_extracted).
Proof. split; by vm_compute. Qed.

(** What [_load_state] asks of a checkpoint is that it decodes and has
    the key [step]: a dictionary with that key only is returned as it is, a
    dictionary without it raises [KeyError], a list raises [TypeError], and
    a text that breaks off raises [JSONDecodeError]. *)
Example load_state_reads_step_only :
  let holding text : FS := {[ state_path indexer := text ]} in
  let step_only := "{" +:+ Json.quote "step" +:+ ": " +:+ Json.quote "VERIFY" +:+ "}" in
  _load_state (answering 23) (state_path indexer) (holding step_only)
  = Ok (JObj [("step", JStr "VERIFY")]) ∧
  _load_state (answering 23) (state_path indexer) (holding "{}")
  = Raise (KeyError "step") ∧
  _load_state (answering 23) (state_path indexer) (holding "[1]")
  = Raise TypeError ∧
  _load_state (answering 23) (state_path indexer)
    (holding ("{" +:+ Json.quote "step" +:+ ": "))
  = Raise JSONDecodeError.
Proof. split_and!; by vm_compute. Qed.

(** Texts the decoder does not settle: an escape of a code point from 256
    on, [NaN], a number with a fraction.  For these [_load_state] returns
    what [load_beyond] tells. *)
Example decode_beyond :
  Json.decode (String dquote ("\u2013" +:+ String dquote EmptyString)) = Json.Beyond ∧
  Json.decode "NaN" = Json.Beyond ∧
  Json.decode "1.5" = Json.Beyond ∧
  Json.decode "nul" = Json.Invalid.
Proof. split_and!; by vm_compute. Qed.

Lemma verify_success_keeps_phase_witness :
  run (answering 23) indexer (mkWorld all_extracted (disk_with all_extracted) []) =
  (Ok (Some (JObj [("structure", JArr (toc_segments all_extracted))])),
   mkWorld all_extracted (disk_with all_extracted)
     [mkEntry all_extracted (disk_with all_extracted)
        (CallVerify (toc_segments all_extracted) (opt indexer))]).
Proof.
  apply verify_success_keeps_phase; [reflexivity|discriminate|reflexivity].
Defined.

(** C2 as stated fails: on [2^53 + 1] pages in groups of one page the code
    sets [total_groups] to [2^53], one less than the ceiling of the
    quotient.  (On the side of the group size: one page with a group size of
    [2^1075] gives 0 groups, see [ceil_underflow].) *)
Lemma group_count_counterexample :
  (0 < huge)%Z ∧ (0 < max_page_num_each_node (opt indexer_by_page))%Z ∧
  total_groups (mem (count_step (answering huge) indexer_by_page fresh).2) = (2 ^ 53)%Z ∧
  spec_ceil_div huge (max_page_num_each_node (opt indexer_by_page)) = (2 ^ 53 + 1)%Z ∧
  total_groups (mem (count_step (answering huge) indexer_by_page fresh).2)
  ≠ spec_ceil_div huge (max_page_num_each_node (opt indexer_by_page)).
Proof. split_and!; by vm_compute. Qed.

Lemma run_group_count_witness :
  total_groups (mem (count_step (answering 91) indexer fresh).2) = 10%Z ∧
  Forall (λ s, total_pages s = 91%Z ∧ total_groups s = 10%Z)
         (saved_states (trace (run (answering 91) indexer fresh).2)).
Proof.
  apply (run_group_count (answering 91) indexer default_state ∅ 91);
    [reflexivity|reflexivity|split; [reflexivity|by vm_compute]|split; reflexivity].
Defined.

Lemma run_extracts_pending_witness :
  extract_calls (trace (run (failing_at_3 23) indexer
                          (mkWorld two_of_three (disk_with two_of_three) [])).2) = ["3"] ∧
  extract_calls (trace (run (answering 23) indexer
                          (mkWorld never_counted (disk_with never_counted) [])).2)
  `prefix_of` ["1"; "2"; "3"].
Proof.
  split.
  - destruct (run_extracts_pending (failing_at_3 23) indexer two_of_three
                (disk_with two_of_three) eq_refl) as [H _].
    destruct (H ltac:(discriminate)) as (_ & _ & _ & H3).
    exact (H3 eq_refl eq_refl).
  - destruct (run_extracts_pending (answering 23) indexer never_counted
                (disk_with never_counted) eq_refl) as [_ H].
    destruct (H eq_refl) as (_ & _ & Hok).
    destruct (Hok ltac:(by vm_compute)) as (Hp & _).
    exact Hp.
Defined.

(** C3 as stated fails for a checkpoint whose page count is 0: [run]
    counts the pages again and sets [total_groups] before the loop.  From
    a checkpoint with no groups at all it then calls the extraction for
    groups 1, 2 and 3 of a 23-page document, and from a checkpoint with
    groups 1 and 2 recorded out of 3 it calls it for groups 3 to 10 of a
    91-page document. *)
Lemma extract_pending_counterexample :
  step never_counted = "EXTRACT_NODES" ∧
  todo (completed_groups never_counted) (seqZ 1 (total_groups never_counted)) = [] ∧
  extract_calls (trace (run (answering 23) indexer
                          (mkWorld never_counted (disk_with never_counted) [])).2)
  = ["1"; "2"; "3"] ∧
  step two_of_three_uncounted = "EXTRACT_NODES" ∧
  completed_groups two_of_three_uncounted = ["1"; "2"] ∧
  total_groups two_of_three_uncounted = 3%Z ∧
  extract_calls (trace (run (answering 91) indexer
                          (mkWorld two_of_three_uncounted
                             (disk_with two_of_three_uncounted) [])).2)
  = ["3"; "4"; "5"; "6"; "7"; "8"; "9"; "10"].
Proof. split_and!; by vm_compute. Qed.

Lemma run_saves_before_calls_witness :
  at_mem init_call = last_saved default_state (take 2 first_run_trace) ∧
  ((saved_states (take 2 first_run_trace) = [] ∧
    at_mem init_call = default_state ∧ at_disk init_call = ∅) ∨
   at_disk init_call !! state_path indexer = Some (checkpoint_text (at_mem init_call))).
Proof.
  apply (run_saves_before_calls (answering 23) indexer default_state ∅
           (take 2 first_run_trace) init_call (drop 3 first_run_trace));
    [by vm_compute|reflexivity].
Defined.

(** C5 as stated fails: a write that breaks off after 40 characters leaves
    a file that no longer decodes, where a valid checkpoint was. *)
Lemma save_failure_counterexample :
  _load_state (breaking_writes 23 40) (state_path indexer) (disk_with two_of_three)
  = Ok (state_to_json two_of_three) ∧
  (_save_state (breaking_writes 23 40) indexer
     (mkWorld all_extracted (disk_with two_of_three) [])).1 = Raise OSError ∧
  _load_state (breaking_writes 23 40) (state_path indexer)
    (disk (_save_state (breaking_writes 23 40) indexer
             (mkWorld all_extracted (disk_with two_of_three) [])).2)
  = Raise JSONDecodeError.
Proof. split_and!; by vm_compute. Qed.

Lemma run_empty_document_witness :
  extract_calls (trace (run (answering 0) indexer fresh).2) = [] ∧
  step (mem (run (answering 0) indexer fresh).2) = "VERIFY" ∧
  total_groups (mem (run (answering 0) indexer fresh).2) = 0%Z.
Proof.
  pose proof (run_empty_document (answering 0) indexer default_state ∅
                eq_refl eq_refl ltac:(discriminate)) as (H1 & _ & H3).
  split; [exact H1|].
  apply H3; [reflexivity|exact I|reflexivity].
Defined.

Lemma run_completed_witness :
  extract_calls (trace (run (answering 23) indexer
                          (mkWorld finished (disk_with finished) [])).2) = [] ∧
  verify_calls (trace (run (answering 23) indexer
                         (mkWorld finished (disk_with finished) [])).2)
  = [toc_segments finished].
Proof.
  pose proof (run_completed (answering 23) indexer finished (disk_with finished)
                eq_refl I) as (H1 & H2 & _).
  split; [exact H1|exact H2].
Defined.

(** The work directory has to be there or be made: with an empty name,
    or with a file of that name, the construction raises, and so does
    [process_pdf_robustly], leaving the disk as it was. *)
Example constructor_needs_directory :
  __init__ (answering 23) "/data/report.pdf" options EmptyString ∅ = Raise OSError ∧
  __init__ (answering 23) "/data/report.pdf" options default_work_dir
    {[ default_work_dir := "a file" ]} = Raise OSError.
Proof. split; by vm_compute. Qed.

(** An invocation for [/data/report.pdf] stops at group 3; one for
    [/archive/report.pdf] then picks up its checkpoint and extracts group 3
    only. *)
Example resume_across_directories :
  extract_calls
    (invoke (answering 23) "/archive/report.pdf" options default_work_dir
       (invoke (failing_at_3 23) "/data/report.pdf" options default_work_dir ∅).1.2).2
  = ["3"].
Proof. by vm_compute. Qed.

(** A lifetime of two invocations, the first stopping at group 3: six
    states are written, the last in the phase [VERIFY] with the three
    groups. *)
Example lifetime_of_two :
  length (lifetime [failing_at_3 23; answering 23] "/data/report.pdf" options
            default_work_dir ∅).1 = 6 ∧
  last (lifetime [failing_at_3 23; answering 23] "/data/report.pdf" options
          default_work_dir ∅).1 = Some all_extracted.
Proof. split; by vm_compute. Qed.

(** ** The further properties at sample inputs *)

Import CliSamples.

Lemma wf_segment_of g : wf_json (segment_of g).
Proof.
  apply wf_obj.
  - refine (bool_decide_unpack _ _). by vm_compute.
  - repeat constructor.
Qed.

Lemma orderly_answering pages : orderly (answering pages).
Proof. split; [intros pdf g o seg [= <-]; apply wf_segment_of|done]. Qed.

Lemma orderly_failing_at_3 pages : orderly (failing_at_3 pages).
Proof.
  split; [|done]. intros pdf g o seg. cbn.
  destruct (String.eqb g "3"); [done|]. intros [= <-]. apply wf_segment_of.
Qed.

Lemma stored_nothing path : stored path ∅ default_state.
Proof. left. by rewrite lookup_empty. Qed.

Lemma wf_structure : wf_json structure.
Proof.
  apply wf_obj; [apply NoDup_singleton|].
  apply Forall_cons_2; [|constructor]. cbn [snd].
  apply wf_arr. repeat (apply Forall_cons_2; [apply wf_segment_of|]). constructor.
Qed.

Lemma init_checkpoint_path_witness :
  doc_name indexer = "report.pdf" ∧
  state_path indexer = "./tmp/report.pdf_state.json" ∧
  _load_state (failing_at_3 23) (state_path indexer) ∅ = Ok (state_to_json default_state) ∧
  let out := run (failing_at_3 23) indexer fresh in
  disk out.2 !! state_path indexer = Some (checkpoint_text two_of_three) ∧
  ∃ self', __init__ (answering 23) "/archive/report.pdf" options default_work_dir
             (disk out.2) = Ok (self', state_to_json two_of_three) ∧
           state_path self' = state_path indexer.
Proof.
  pose proof (init_checkpoint_path (failing_at_3 23) "/data/report.pdf" options
                default_work_dir ∅ indexer (state_to_json default_state) eq_refl)
    as (H1 & _ & H3 & H4 & H5 & _).
  split_and!; [exact H1|apply H3; reflexivity|exact H4|].
  destruct (H5 default_state (failing_at_3 23) (as_state_to_json _)
              (Forall_nil_2 _) (orderly_failing_at_3 23)) as (_ & Hfile & Hnext).
  intros out. split.
  - apply Hfile. by vm_compute.
  - destruct (__init__ (answering 23) "/archive/report.pdf" options default_work_dir
                (disk out.2)) as [[self' state']|e] eqn:Hinit; [|by vm_compute in Hinit].
    destruct (Hnext (answering 23) "/archive/report.pdf" options self' state'
                eq_refl Hinit) as (Hpath & Hstate & _).
    exists self'. split; [|exact Hpath].
    by rewrite (Hstate two_of_three ltac:(by vm_compute)).
Defined.

Lemma next_invocation_resumes_witness :
  ∃ self, __init__ (failing_at_3 23) "/data/report.pdf" options default_work_dir ∅
          = Ok (self, state_to_json default_state) ∧
    let out := run (failing_at_3 23) self (mkWorld default_state ∅ []) in
    ∃ self', __init__ (answering 23) "/archive/report.pdf" options default_work_dir
               (disk out.2)
             = Ok (self', state_to_json (last_saved default_state (trace out.2))) ∧
             state_path self' = state_path self.
Proof.
  apply (next_invocation_resumes (failing_at_3 23) (answering 23) "/data/report.pdf"
           options default_work_dir ∅ default_state "/archive/report.pdf" options);
    [apply orderly_failing_at_3|apply stored_nothing|reflexivity..].
Defined.

Lemma lifetime_grows_witness :
  let saved := (lifetime [failing_at_3 23; answering 23] "/data/report.pdf" options
                  default_work_dir ∅).1 in
  StronglySorted extends (default_state :: saved) ∧
  Forall balanced saved ∧
  Forall (λ s, step s ≠ "COMPLETED") saved.
Proof.
  apply (lifetime_grows [failing_at_3 23; answering 23]).
  apply Forall_cons_2; [apply orderly_failing_at_3|].
  apply Forall_cons_2; [apply orderly_answering|apply Forall_nil_2].
Defined.

Lemma run_records_groups_once_witness :
  Forall (λ s, NoDup (completed_groups s))
    (saved_states (trace (run (answering 23) indexer
                            (mkWorld two_of_three (disk_with two_of_three) [])).2)).
Proof.
  apply (run_records_groups_once (answering 23) indexer two_of_three
           (disk_with two_of_three)).
  refine (bool_decide_unpack _ _). by vm_compute.
Defined.

Lemma run_keeps_totals_witness :
  Forall (λ s, total_pages s = 23%Z ∧ total_groups s = 3%Z)
    (saved_states (trace (run (answering 23) indexer
                            (mkWorld two_of_three (disk_with two_of_three) [])).2)).
Proof.
  apply (run_keeps_totals (answering 23) indexer two_of_three (disk_with two_of_three)).
  discriminate.
Defined.

Lemma run_verifies_only_when_complete_witness :
  Forall verify_means_complete
    (saved_states (trace (run (answering 23) indexer
                            (mkWorld two_of_three (disk_with two_of_three) [])).2)).
Proof.
  apply (run_verifies_only_when_complete (answering 23) indexer two_of_three
           (disk_with two_of_three)).
  discriminate.
Defined.

Lemma smooth_answering pages self cg l : smooth (answering pages) self cg l.
Proof. split; [by intros g _|done]. Qed.

Lemma run_finishes_extraction_witness :
  mem (run (answering 23) indexer (mkWorld two_of_three (disk_with two_of_three) [])).2
  = all_extracted.
Proof.
  pose proof (run_finishes_extraction (answering 23) indexer two_of_three
                (disk_with two_of_three) eq_refl ltac:(discriminate)
                (smooth_answering 23 indexer _ _)) as (H & _).
  rewrite H. by vm_compute.
Defined.

Lemma first_run_end_to_end_witness :
  mem (run (answering 23) indexer fresh).2 = all_extracted ∧
  (run (answering 23) indexer fresh).1 = Ok (Some structure).
Proof.
  pose proof (first_run_end_to_end (answering 23) indexer ∅ 23 3 eq_refl
                ltac:(by vm_compute) ltac:(discriminate) I (λ _ _, I) (λ _, eq_refl))
    as (H1 & _ & _ & H4).
  unfold fresh. split; [rewrite H1; by vm_compute|rewrite H4; by vm_compute].
Defined.

Lemma resumed_run_skips_setup_witness :
  Forall (λ e, extraction_event indexer e ∨ ∃ segs, e = CallVerify segs (opt indexer))
    (events (trace (run (failing_at_3 23) indexer
                      (mkWorld two_of_three (disk_with two_of_three) [])).2)).
Proof.
  apply (resumed_run_skips_setup (failing_at_3 23) indexer two_of_three
           (disk_with two_of_three)); discriminate.
Defined.

Lemma run_zero_group_size_witness :
  (run (answering 23) indexer_no_group_size fresh).1 = Raise ZeroDivisionError ∧
  event <$> trace (run (answering 23) indexer_no_group_size fresh).2
  = [CountPages "/data/report.pdf"] ∧
  disk (run (answering 23) indexer_no_group_size fresh).2 = ∅ ∧
  mem (run (answering 23) indexer_no_group_size fresh).2
  = set_total_pages 23 default_state.
Proof.
  apply (run_zero_group_size (answering 23) indexer_no_group_size default_state ∅ 23);
    reflexivity.
Defined.

Lemma checkpoint_shared_iff_witness :
  state_path indexer = state_path indexer ↔
  basename "/data/report.pdf" = basename "/archive/report.pdf".
Proof.
  apply (checkpoint_shared_iff (answering 23) "/data/report.pdf" options ∅ indexer
           (state_to_json default_state)
           (failing_at_3 23) "/archive/report.pdf" options ∅
           (mkIndexer "/archive/report.pdf" options "report.pdf"
              "./tmp/report.pdf_state.json") (state_to_json default_state)
           default_work_dir);
    reflexivity.
Defined.

(** An interruption by the user during the extraction of group 3 is not
    caught: it leaves [process_pdf_robustly]. *)
Lemma process_pdf_uncaught_witness :
  (process_pdf_robustly (interrupted_at_3 23) NoFault args ∅).1.1
  = Raise KeyboardInterrupt.
Proof.
  exact (proj2 (proj2 (process_pdf_uncaught (interrupted_at_3 23) NoFault args ∅
                         KeyboardInterrupt))
           "/data/report.pdf" indexer (state_to_json default_state)
           eq_refl eq_refl ltac:(by vm_compute)).
Defined.

Lemma process_pdf_failure_resumes_witness :
  (process_pdf_robustly (failing_at_3 23) NoFault args ∅).1.1
  = Ok (ExecutionInterrupted (CallFailed "rate limit")) ∧
  (process_pdf_robustly (failing_at_3 23) NoFault args ∅).1.2
    !! output_file "/data/report.pdf" = None.
Proof.
  pose proof (process_pdf_failure_resumes (failing_at_3 23) NoFault args ∅
                "/data/report.pdf" default_state (CallFailed "rate limit") eq_refl
                (orderly_failing_at_3 23) (stored_nothing _) eq_refl eq_refl
                ltac:(by vm_compute))
    as (H1 & H2 & _).
  rewrite H1. cbn [fst snd is_exception]. split; [done|]. by rewrite H2, lookup_empty.
Defined.

Lemma process_pdf_success_witness :
  (process_pdf_robustly (answering 23) NoFault args ∅).1.1
  = Ok (Success "./results/report_structure.json") ∧
  (process_pdf_robustly (answering 23) NoFault args ∅).1.2
    !! "./results/report_structure.json" = Some (results_text (Some structure)).
Proof.
  pose proof (process_pdf_success (answering 23) args ∅ "/data/report.pdf"
                default_state (Some structure) eq_refl eq_refl eq_refl
                ltac:(by vm_compute))
    as (H1 & _ & H3 & _).
  split; [exact H1|exact H3].
Defined.

Lemma process_pdf_again_reverifies_witness :
  event <$> (process_pdf_robustly (answering 23) NoFault args
               (process_pdf_robustly (answering 23) NoFault args ∅).1.2).2
  = [CallVerify (toc_segments (mem (run (answering 23) indexer fresh).2)) options].
Proof.
  pose proof (process_pdf_again_reverifies (answering 23) NoFault args ∅
                "/data/report.pdf" default_state structure (answering 23) NoFault
                eq_refl (orderly_answering 23) (stored_nothing _)
                eq_refl eq_refl eq_refl eq_refl
                ltac:(by vm_compute) ltac:(by vm_compute)) as (H & _).
  exact H.
Defined.

Lemma results_file_decodes_witness :
  (process_pdf_robustly (answering 23) NoFault args ∅).1.2
    !! output_file "/data/report.pdf" ≫= Json.loads = Some structure.
Proof.
  apply (results_file_decodes (answering 23) args ∅ "/data/report.pdf" default_state
           (Some structure));
    [reflexivity|reflexivity|reflexivity|by vm_compute|apply wf_structure].
Defined.

Lemma resumed_extraction_same_result_witness :
  let first := run (failing_at_3 23) indexer
                 (mkWorld extraction_started (disk_with extraction_started) []) in
  mem (run (answering 23) indexer
         (mkWorld (last_saved extraction_started (trace first.2)) (disk first.2) [])).2
  = mem (run (answering 23) indexer
           (mkWorld extraction_started (disk_with extraction_started) [])).2.
Proof.
  assert (stored (state_path indexer) (disk_with extraction_started) extraction_started)
    as Hstored.
  { right. split; [apply lookup_singleton_eq|constructor]. }
  assert (∀ g seg,
            generate_toc_continue (failing_at_3 23) (pdf_path indexer) g (opt indexer) = Ok seg →
            generate_toc_continue (answering 23) (pdf_path indexer) g (opt indexer) = Ok seg)
    as Hsame.
  { intros g seg. cbn. by destruct (String.eqb g "3"). }
  exact (proj1 (resumed_extraction_same_result (failing_at_3 23) (answering 23) indexer
                  extraction_started (disk_with extraction_started) eq_refl
                  ltac:(discriminate) (orderly_failing_at_3 23) Hstored Hsame
                  (smooth_answering 23 indexer _ _))).
Defined.
